(** * Context window manager: edit log, applier, elider, truncator

    A shallow embedding of
      src/core/context/context-management/ContextManager.ts
      src/core/context/context-management/context-window-utils.ts
      src/core/context/context-management/types.ts
    and the properties of the context-management specification.

    Conventions of the embedding.
    - A JS object keyed by message or block index is a [gmap nat _]; a
      [for (k in obj)] loop visits integer keys in ascending order, which
      is [for_in] below.
    - [cloneDeep] is the identity on these immutable values.
    - [Date.now()] is an explicit argument of the function that reads it.
    - [JSON.stringify(a) !== JSON.stringify(b)] on edit logs is structural
      disequality: with integer keys the serialisation is canonical.
    - Token budgets are rationals ([Q]); the source computes them in
      double precision.
    - The truncation fraction is a double, a primitive [float]; its
      product with the number of messages is the multiplication of
      binary64 ([SF64mul], which is what the primitive product computes
      by [FloatAxioms.mul_spec]), so the count of evicted messages is
      the one the source computes, rounding, NaN and infinities
      included. Keys of the log are message indices: where the source
      would file an entry under a key that is none (a count of
      [-Infinity], or one beyond [2^53] in size), the log of the model
      does not follow it.
    - Logger calls are dropped; the persistence port is a trace of the
      logs handed to [writePersistedContextHistory]. *)

From Stdlib Require Import Floats Ascii ZArith QArith Qround Qminmax Lqa.
From stdpp Require Import gmap strings list sorting.

Set Default Proof Using "Type".

(** ** JavaScript primitives used by the manager *)

Module Js.
Local Open Scope string_scope.

(** [for (const k in obj)] over an object whose keys are array indices. *)
Definition key_le {A} (x y : nat * A) : Prop := (x.1 ≤ y.1)%nat.

#[global] Instance key_le_dec {A} : RelDecision (@key_le A).
Proof. intros x y. unfold key_le. apply _. Defined.

Definition for_in {A} (m : gmap nat A) : list (nat * A) :=
  merge_sort key_le (map_to_list m).

(** [s.startsWith(p)] *)
Fixpoint startsWith (p s : string) : bool :=
  match p, s with
  | EmptyString, _ => true
  | String a p', String b s' => if decide (a = b) then startsWith p' s' else false
  | String _ _, EmptyString => false
  end.

(** The rest of [s] after the prefix [p], when [s] starts with [p]. *)
Fixpoint stripPrefix (p s : string) : option string :=
  match p, s with
  | EmptyString, _ => Some s
  | String a p', String b s' => if decide (a = b) then stripPrefix p' s' else None
  | String _ _, EmptyString => None
  end.

(** [s.indexOf(p)], returned as the text before and after the first
    occurrence of [p]. *)
Fixpoint splitAt (p s : string) : option (string * string) :=
  match stripPrefix p s with
  | Some rest => Some (EmptyString, rest)
  | None =>
      match s with
      | EmptyString => None
      | String c s' =>
          match splitAt p s' with
          | Some (before, after) => Some (String c before, after)
          | None => None
          end
      end
  end.

(** Expansion of the [$] patterns of a replacement string, for a string
    (not regular-expression) pattern: [$$], [$&], [$`] and [$']; every
    other [$] sequence stands for itself. *)
Fixpoint getSubstitution (matched before after template : string) : string :=
  match template with
  | EmptyString => EmptyString
  | String "$"%char (String "$"%char t) =>
      String "$"%char (getSubstitution matched before after t)
  | String "$"%char (String "&"%char t) =>
      matched +:+ getSubstitution matched before after t
  | String "$"%char (String "`"%char t) =>
      before +:+ getSubstitution matched before after t
  | String "$"%char (String "'"%char t) =>
      after +:+ getSubstitution matched before after t
  | String c t => String c (getSubstitution matched before after t)
  end.

(** [s.replace(pattern, replacement)] with a string pattern: the first
    occurrence only. *)
Definition replace (s pattern replacement : string) : string :=
  match splitAt pattern s with
  | Some (before, after) =>
      before +:+ getSubstitution pattern before after replacement +:+ after
  | None => s
  end.

(** [arr.slice(start)] for an integer [start], negative counting from the
    end. *)
Definition sliceFrom {A} (start : Z) (l : list A) : list A :=
  if (start <? 0)%Z
  then drop (Z.to_nat (Z.max (Z.of_nat (length l) + start) 0)) l
  else drop (Z.to_nat start) l.

(** Truthiness of a string: non-empty. *)
Definition truthy (s : string) : bool :=
  match s with EmptyString => false | String _ _ => true end.

(** The elements of an array with their indices, as a counting [for]
    loop visits them. *)
Definition entries {A} (l : list A) : list (nat * A) := imap pair l.

End Js.

(** ** Numbers

    A JavaScript number is a double: a primitive [float], read through
    [Prim2SF] as sign, mantissa and exponent. The numbers the truncator
    computes with after [Math.ceil] have no fraction: they are integers,
    infinities or NaN, and their arithmetic below is that of doubles as
    long as the integers stay below [2^53] in size, where every integer
    is a double. *)

Inductive Integral := NaN | Infinity (negative : bool) | Integer (value : Z).

Module Number.

(** An integer as a number: itself as mantissa, exponent 0. Below
    [2^53] this denotes the double of the same value, and its product
    with a double is the product of the primitive doubles (lemma
    [product_primitive]). *)
Definition ofInteger (z : Z) : spec_float :=
  match z with
  | Z0 => S754_zero false
  | Z.pos p => S754_finite false p 0
  | Z.neg p => S754_finite true p 0
  end.

(** [x + y] *)
Definition add (x y : Integral) : Integral :=
  match x, y with
  | NaN, _ | _, NaN => NaN
  | Infinity a, Infinity b => if Bool.eqb a b then Infinity a else NaN
  | Infinity a, Integer _ => Infinity a
  | Integer _, Infinity b => Infinity b
  | Integer a, Integer b => Integer (a + b)
  end.

(** [-x] *)
Definition opp (x : Integral) : Integral :=
  match x with
  | NaN => NaN
  | Infinity a => Infinity (negb a)
  | Integer a => Integer (- a)
  end.

(** [x - y] *)
Definition sub (x y : Integral) : Integral := add x (opp y).

(** [x % d] for a non-zero integer [d]: the remainder takes the sign of
    [x]; NaN for an infinite [x]. *)
Definition rem (x : Integral) (d : Z) : Integral :=
  match x with
  | Integer a => Integer (Z.rem a d)
  | _ => NaN
  end.

(** [x === y] *)
Definition eqb (x y : Integral) : bool :=
  match x, y with
  | Integer a, Integer b => (a =? b)%Z
  | Infinity a, Infinity b => Bool.eqb a b
  | _, _ => false
  end.

(** [x < y] *)
Definition ltb (x y : Integral) : bool :=
  match x, y with
  | NaN, _ | _, NaN => false
  | Integer a, Integer b => (a <? b)%Z
  | Infinity a, Infinity b => a && negb b
  | Infinity a, Integer _ => a
  | Integer _, Infinity b => negb b
  end.

End Number.

Module Math.

(** [Math.ceil(x)]: the least integer not below [x]; [-0] counts as 0. *)
Definition ceil (x : spec_float) : Integral :=
  match x with
  | S754_nan => NaN
  | S754_infinity s => Infinity s
  | S754_zero _ => Integer 0
  | S754_finite s m e =>
      let mantissa := if s then Z.neg m else Z.pos m in
      Integer (match e with
               | Z.neg k => - (- mantissa / 2 ^ Z.pos k)
               | _ => mantissa * 2 ^ e
               end)
  end.

(** [Math.min(x, y)] *)
Definition min (x y : Integral) : Integral :=
  match x, y with
  | NaN, _ | _, NaN => NaN
  | Infinity true, _ | _, Infinity true => Infinity true
  | Infinity false, _ => y
  | _, Infinity false => x
  | Integer a, Integer b => Integer (Z.min a b)
  end.

End Math.

(** [arr.slice(start)]: a start that is NaN counts as 0, an infinite one
    as the end it points to. *)
Definition slice {A} (start : Integral) (l : list A) : list A :=
  match start with
  | Integer z => Js.sliceFrom z l
  | Infinity false => []
  | Infinity true | NaN => l
  end.

(** ** Data model (types.ts and the Anthropic message shape) *)

Inductive Role := user | assistant.

(** Content blocks. [input] of a tool use is its JSON rendering (empty
    when absent); [content] of a tool result likewise. *)
Inductive ContentBlock :=
  | TextBlock (text : string)
  | ImageBlock
  | ToolUseBlock (name : string) (input : string)
  | ToolResultBlock (content : string).

Inductive MessageContent :=
  | ContentString (s : string)
  | ContentBlocks (blocks : list ContentBlock).

Record MessageParam := mkMessage { role : Role; content : MessageContent }.

Inductive UpdateType := replace_content | add_truncation_notice | other.

(** The metadata shapes the manager and its tests write. *)
Inductive Metadata :=
  | MetaEmpty
  | MetaPath (originalPath : string) (replacedMention : bool).

(** [ContextUpdate = [timestamp, updateType, content, metadata?]] *)
Record ContextUpdate := mkUpdate {
  timestamp : Z;
  updateType : UpdateType;
  newContent : option string;
  metadata : option Metadata
}.

Record MessageUpdates := mkEntry {
  editType : Role;
  blocks : gmap nat (list ContextUpdate)
}.

Abbreviation PersistedContextHistory := (gmap nat MessageUpdates).

#[global] Instance Role_eq_dec : EqDecision Role.
Proof. solve_decision. Defined.
#[global] Instance ContentBlock_eq_dec : EqDecision ContentBlock.
Proof. solve_decision. Defined.
#[global] Instance MessageContent_eq_dec : EqDecision MessageContent.
Proof. solve_decision. Defined.
#[global] Instance MessageParam_eq_dec : EqDecision MessageParam.
Proof. solve_decision. Defined.
#[global] Instance UpdateType_eq_dec : EqDecision UpdateType.
Proof. solve_decision. Defined.
#[global] Instance Metadata_eq_dec : EqDecision Metadata.
Proof. solve_decision. Defined.
#[global] Instance ContextUpdate_eq_dec : EqDecision ContextUpdate.
Proof. solve_decision. Defined.
#[global] Instance MessageUpdates_eq_dec : EqDecision MessageUpdates.
Proof. solve_decision. Defined.

(** The edits recorded for block [b] of message [i] ([[]] when none). *)
Definition editsAt (log : PersistedContextHistory) (i b : nat) : list ContextUpdate :=
  match log !! i with
  | Some e => default [] (blocks e !! b)
  | None => []
  end.

Definition isText (b : ContentBlock) : bool :=
  match b with TextBlock _ => true | _ => false end.

(** The block at position [b] of message [i], when the message has a
    block list. *)
Definition blockAt (h : list MessageParam) (i b : nat) : option ContentBlock :=
  match h !! i with
  | Some m =>
      match content m with
      | ContentBlocks bs => bs !! b
      | ContentString _ => None
      end
  | None => None
  end.

(** ** File-read occurrences *)

Record FileReadOccurrence := mkOccurrence {
  messageIndex : nat;
  blockIndex : nat;
  filePath : string;
  fullMatch : option string
}.

(** [Map<string, FileReadOccurrence[]>] in insertion order. *)
Abbreviation FileReads := (list (string * list FileReadOccurrence)).

#[global] Instance FileReadOccurrence_eq_dec : EqDecision FileReadOccurrence.
Proof. solve_decision. Defined.

(** The double-quote character and the fixed pieces of the two patterns. *)
Definition dquote : string := String "034"%char EmptyString.
Definition mentionOpen : string := "<file_content path="%string +:+ dquote.
Definition mentionOpenEnd : string := dquote +:+ ">"%string.
Definition mentionClose : string := "</file_content>"%string.
Definition toolOpen : string := "[read_file for '"%string.
Definition toolClose : string := "] Result:"%string.

(** [text.match(/^\[read_file for '([^']+)'\] Result:$/)]: capture 1. *)
Definition toolMatch (text : string) : option string :=
  match Js.stripPrefix toolOpen text with
  | Some rest =>
      match Js.splitAt "'"%string rest with
      | Some (path, after) =>
          if Js.truthy path && bool_decide (after = toolClose) then Some path else None
      | None => None
      end
  | None => None
  end.

(** A match of the mention pattern anchored at the start of [s]:
    capture 1 and the whole match. The path runs to the first double
    quote, the body to the first closing tag. *)
Definition mentionAt (s : string) : option (string * string) :=
  match Js.stripPrefix mentionOpen s with
  | Some rest =>
      match Js.splitAt dquote rest with
      | Some (path, afterQuote) =>
          match Js.stripPrefix ">"%string afterQuote with
          | Some afterOpen =>
              match Js.splitAt mentionClose afterOpen with
              | Some (body, _) =>
                  Some (path, mentionOpen +:+ path +:+ mentionOpenEnd +:+ body +:+ mentionClose)
              | None => None
              end
          | None => None
          end
      | None => None
      end
  | None => None
  end.

(** The [while ((match = mentionPattern.exec(text)) !== null)] loop: the
    matches from left to right, each search resuming after the previous
    match ([skip] characters are still inside it). *)
Fixpoint mentionMatchesFrom (skip : nat) (s : string) : list (string * string) :=
  match s with
  | EmptyString => []
  | String _ s' =>
      match skip with
      | S k => mentionMatchesFrom k s'
      | O =>
          match mentionAt s with
          | Some (path, full) =>
              (path, full) :: mentionMatchesFrom (String.length full - 1) s'
          | None => mentionMatchesFrom 0 s'
          end
      end
  end.

Definition mentionMatches (text : string) : list (string * string) :=
  mentionMatchesFrom 0 text.

(** External collaborators: the tokenizer handed to the constructor and
    the two canonical notice strings of [formatResponse]. *)
Class Collaborators := {
  tokenizer : string → Z;
  contextTruncationNotice : string;
  duplicateFileReadNotice : string
}.

(** ** Budget oracle (context-window-utils.ts) *)

Module ModelInfo.
Record t := mk { contextWindow : option Q }.
End ModelInfo.

#[global] Instance Q_eq_dec : EqDecision Q.
Proof. solve_decision. Defined.
#[global] Instance ModelInfo_eq_dec : EqDecision ModelInfo.t.
Proof. solve_decision. Defined.

Record ContextWindowInfo := mkWindowInfo { contextWindow : Q; maxAllowedSize : Q }.

Definition DEFAULT_CONTEXT_WINDOW : Q := 128000%Q.
Definition DEFAULT_BUFFER : Q := 30000%Q.

(** [a || b] on numbers: zero is falsy. *)
Definition orDefault (a : option Q) (b : Q) : Q :=
  match a with
  | Some w => if Qeq_bool w 0%Q then b else w
  | None => b
  end.

(** [Math.max(a, b)] *)
Definition mathMax (a b : Q) : Q := if Qle_bool a b then b else a.

Definition getContextWindowInfo (modelInfo : option ModelInfo.t) : ContextWindowInfo :=
  let contextWindow :=
    orDefault (modelInfo ≫= ModelInfo.contextWindow) DEFAULT_CONTEXT_WINDOW in
  let maxAllowedSize :=
    (if Qeq_bool contextWindow 64000 then contextWindow - 27000
     else if Qeq_bool contextWindow 128000 then contextWindow - DEFAULT_BUFFER
     else if Qeq_bool contextWindow 200000 then contextWindow - 40000
     else
       let percentageBasedBuffer := contextWindow * (2 # 10) in
       let fixedBuffer := 40000 in
       let maxAllowedSize := contextWindow - mathMax percentageBasedBuffer fixedBuffer in
       mathMax (mathMax maxAllowedSize (contextWindow / 2)) 1000)%Q in
  mkWindowInfo contextWindow maxAllowedSize.

Section Manager.
Context `{Collaborators}.

(** ** Token estimator (calculateTokens) *)

Definition blockTokens (block : ContentBlock) : Z :=
  match block with
  | TextBlock text => tokenizer text
  | ImageBlock => 1500%Z
  | ToolUseBlock name input => (tokenizer input + tokenizer name + 20)%Z
  | ToolResultBlock content => (tokenizer content + 20)%Z
  end.

Definition messageTokens (message : MessageParam) : Z :=
  match content message with
  | ContentBlocks bs => foldl (λ total block, (total + blockTokens block)%Z) 0%Z bs
  | ContentString s => tokenizer s
  end.

Definition calculateTokens (history : list MessageParam) : Z :=
  foldl (λ totalTokens message, (totalTokens + messageTokens message)%Z) 0%Z history.

(** ** Edit applier (applyModificationsToHistory) *)

(** The body of the innermost loop once the latest update is selected. *)
Definition applyUpdate (u : ContextUpdate) (block : ContentBlock) : ContentBlock :=
  match updateType u with
  | replace_content =>
      match block, newContent u with
      | TextBlock _, Some s => TextBlock s
      | _, _ => block
      end
  | add_truncation_notice =>
      match block with
      | TextBlock t =>
          if Js.startsWith contextTruncationNotice t then block
          else TextBlock (contextTruncationNotice +:+ String "010"%char t)
      | _ => block
      end
  | other => block
  end.

(** One iteration of [for (const blockIndexStr in messageUpdates.blocks)]. *)
Definition applyBlockUpdates (bs : list ContentBlock)
    (kv : nat * list ContextUpdate) : list ContentBlock :=
  let '(blockIndex, blockUpdates) := kv in
  match bs !! blockIndex with
  | None => bs
  | Some block =>
      match last blockUpdates with
      | None => bs
      | Some latestUpdate => <[blockIndex := applyUpdate latestUpdate block]> bs
      end
  end.

(** One iteration of [for (const messageIndexStr in modifications)]. *)
Definition applyMessageUpdates (h : list MessageParam)
    (kv : nat * MessageUpdates) : list MessageParam :=
  let '(messageIndex, messageUpdates) := kv in
  match h !! messageIndex with
  | None => h
  | Some message =>
      match content message with
      | ContentString _ => h
      | ContentBlocks bs =>
          <[messageIndex :=
              mkMessage (role message)
                (ContentBlocks
                   (foldl applyBlockUpdates bs (Js.for_in (blocks messageUpdates))))]> h
      end
  end.

Definition applyModificationsToHistory (history : list MessageParam)
    (modifications : PersistedContextHistory) : list MessageParam :=
  foldl applyMessageUpdates history (Js.for_in modifications).

(** ** Duplicate elider (findDuplicateFileReads, applyOptimizations) *)

(** [fileReads.get(p) || []], [push], [fileReads.set(p, ...)] on a [Map]
    kept in insertion order. *)
Fixpoint pushOccurrence (fileReads : FileReads) (o : FileReadOccurrence) : FileReads :=
  match fileReads with
  | [] => [(filePath o, [o])]
  | (p, occurrences) :: rest =>
      if decide (p = filePath o) then (p, occurrences ++ [o]) :: rest
      else (p, occurrences) :: pushOccurrence rest o
  end.

(** The body of the loop over the blocks of one user message. *)
Definition scanBlock (messageIndex : nat) (bs : list ContentBlock)
    (fileReads : FileReads) (ib : nat * ContentBlock) : FileReads :=
  let '(blockIndex, block) := ib in
  match block with
  | TextBlock text =>
      let afterTool :=
        if decide (blockIndex = 0) then
          match toolMatch text with
          | Some path =>
              match bs !! (blockIndex + 1) with
              | Some (TextBlock _) =>
                  pushOccurrence fileReads
                    (mkOccurrence messageIndex (blockIndex + 1) path None)
              | _ => fileReads
              end
          | None => fileReads
          end
        else fileReads in
      foldl (λ fr pm, pushOccurrence fr
                        (mkOccurrence messageIndex blockIndex pm.1 (Some pm.2)))
            afterTool (mentionMatches text)
  | _ => fileReads
  end.

Definition scanMessage (fileReads : FileReads) (im : nat * MessageParam) : FileReads :=
  let '(messageIndex, message) := im in
  match role message, content message with
  | user, ContentBlocks bs => foldl (scanBlock messageIndex bs) fileReads (Js.entries bs)
  | _, _ => fileReads
  end.

Definition findDuplicateFileReads (history : list MessageParam) : FileReads :=
  foldl scanMessage [] (Js.entries history).

(** The text a mention is replaced in: the latest [replace_content]
    payload of the block, else the raw block's text. *)
Definition currentTextOf (rawHistory : list MessageParam) (messageIndex blockIndex : nat)
    (existingUpdates : list ContextUpdate) : string :=
  let fromLog :=
    match last existingUpdates with
    | Some latestExistingUpdate =>
        match updateType latestExistingUpdate, newContent latestExistingUpdate with
        | replace_content, Some s => s
        | _, _ => EmptyString
        end
    | None => EmptyString
    end in
  if Js.truthy fromLog then fromLog
  else match blockAt rawHistory messageIndex blockIndex with
       | Some (TextBlock text) => text
       | _ => EmptyString
       end.

(** Payload and metadata of the edit emitted for one occurrence. *)
Definition elisionPayload (rawHistory : list MessageParam) (path : string)
    (occurrence : FileReadOccurrence) (existingUpdates : list ContextUpdate)
    : string * Metadata :=
  let replacementNotice := duplicateFileReadNotice in
  match fullMatch occurrence with
  | Some fm =>
      if Js.truthy fm then
        let currentText :=
          currentTextOf rawHistory (messageIndex occurrence) (blockIndex occurrence)
            existingUpdates in
        if Js.truthy currentText then
          let mentionReplacement :=
            mentionOpen +:+ path +:+ mentionOpenEnd +:+ replacementNotice +:+ mentionClose in
          (Js.replace currentText fm mentionReplacement, MetaPath path true)
        else (replacementNotice, MetaPath path false)
      else (replacementNotice, MetaPath path false)
  | None => (replacementNotice, MetaPath path false)
  end.

(** The body of the inner loop of [applyOptimizations]. A message role is
    [user] or [assistant], so of the source's role test only the missing
    message remains. *)
Definition elideOccurrence (rawHistory : list MessageParam) (timestamp : Z)
    (path : string) (updatedModifications : PersistedContextHistory)
    (occurrence : FileReadOccurrence) : PersistedContextHistory :=
  let mi := messageIndex occurrence in
  let bi := blockIndex occurrence in
  let entry :=
    match updatedModifications !! mi with
    | Some e => Some e
    | None =>
        match rawHistory !! mi with
        | Some originalMessage => Some (mkEntry (role originalMessage) ∅)
        | None => None
        end
    end in
  match entry with
  | None => updatedModifications
  | Some e =>
      let existingUpdates := default [] (blocks e !! bi) in
      let '(payload, meta) := elisionPayload rawHistory path occurrence existingUpdates in
      let update := mkUpdate timestamp replace_content (Some payload) (Some meta) in
      <[mi := mkEntry (editType e) (<[bi := existingUpdates ++ [update]]> (blocks e))]>
        updatedModifications
  end.

Definition elidePath (rawHistory : list MessageParam) (timestamp : Z)
    (updatedModifications : PersistedContextHistory)
    (entry : string * list FileReadOccurrence) : PersistedContextHistory :=
  let '(path, occurrences) := entry in
  if decide (length occurrences ≤ 1)%nat then updatedModifications
  else foldl (elideOccurrence rawHistory timestamp path) updatedModifications
         (take (length occurrences - 1) occurrences).

(** [timestamp] is the value of [Date.now()] read by the call. *)
Definition applyOptimizations (rawHistory : list MessageParam)
    (currentModifications : PersistedContextHistory) (timestamp : Z)
    : PersistedContextHistory :=
  foldl (elidePath rawHistory timestamp) currentModifications
    (findDuplicateFileReads rawHistory).

(** ** Truncator (applyTruncation) *)

Record TruncationResult := mkTruncation {
  truncatedHistory : list MessageParam;
  updatedModifications : PersistedContextHistory;
  wasTruncated : bool
}.

(** [Math.ceil(n * percentage)], made even, clipped to [n]. The product
    is the product of doubles; NaN and the infinities go through the
    three steps as they do in the source. *)
Definition messagesToRemove (truncationPercentage : float) (numMessagesToConsider : Z)
    : Integral :=
  let messagesToRemove :=
    Math.ceil (SF64mul (Number.ofInteger numMessagesToConsider)
                 (Prim2SF truncationPercentage)) in
  let messagesToRemove :=
    if negb (Number.eqb (Number.rem messagesToRemove 2) (Integer 0))
    then Number.add messagesToRemove (Integer 1) else messagesToRemove in
  Math.min messagesToRemove (Integer numMessagesToConsider).

(** The "Add Truncation Notice" step. *)
Definition addTruncationNotice (historyToTruncate truncatedHistory : list MessageParam)
    (mods : PersistedContextHistory) (timestamp : Z) : PersistedContextHistory :=
  let firstAssistantMessageIndex := 1%nat in
  if decide (firstAssistantMessageIndex < length truncatedHistory)%nat then
    let entry :=
      match mods !! firstAssistantMessageIndex with
      | Some e => Some e
      | None =>
          match historyToTruncate !! firstAssistantMessageIndex with
          | Some originalMessage =>
              if decide (role originalMessage = assistant)
              then Some (mkEntry assistant ∅) else None
          | None => None
          end
      end in
    match entry with
    | None => mods
    | Some e =>
        let blockUpdates := default [] (blocks e !! 0%nat) in
        let push :=
          match last blockUpdates with
          | Some latestUpdate =>
              negb (bool_decide (updateType latestUpdate = add_truncation_notice))
          | None => true
          end in
        let noticeUpdate := mkUpdate timestamp add_truncation_notice None None in
        let blockUpdates := if push then blockUpdates ++ [noticeUpdate] else blockUpdates in
        <[firstAssistantMessageIndex :=
            mkEntry (editType e) (<[0%nat := blockUpdates]> (blocks e))]> mods
    end
  else mods.

(** The body of the "Adjust Modification Indices" loop. An entry is
    filed under [originalIndex - messagesToRemove] when that is an
    integer. When the count is [-Infinity] the source files it under the
    key [Infinity], which is no message index: the applier skips such a
    key, and the log of the model, keyed by message index, does not hold
    it. *)
Definition adjustIndex (messagesToRemove : Integral)
    (newModifications : PersistedContextHistory)
    (kv : nat * MessageUpdates) : PersistedContextHistory :=
  let '(originalIndex, e) := kv in
  let startIndexToConsider := 2%Z in
  let endIndexToRemove :=
    Number.sub (Number.add (Integer startIndexToConsider) messagesToRemove) (Integer 1) in
  if decide (Z.of_nat originalIndex < startIndexToConsider)%Z then
    <[originalIndex := e]> newModifications
  else if Number.ltb endIndexToRemove (Integer (Z.of_nat originalIndex)) then
    match Number.sub (Integer (Z.of_nat originalIndex)) messagesToRemove with
    | Integer newIndex => <[Z.to_nat newIndex := e]> newModifications
    | _ => newModifications
    end
  else newModifications.

Definition adjustIndices (messagesToRemove : Integral) (mods : PersistedContextHistory)
    : PersistedContextHistory :=
  foldl (adjustIndex messagesToRemove) ∅ (Js.for_in mods).

Definition applyTruncation (truncationPercentage : float)
    (historyToTruncate : list MessageParam)
    (currentModifications : PersistedContextHistory)
    (maxTokens : Q) (previousRequestTokenCount : Z) (timestamp : Z) : TruncationResult :=
  if negb (Qle_bool (inject_Z previousRequestTokenCount) maxTokens) then
    let currentTokens := calculateTokens historyToTruncate in
    let startIndexToConsider := 2%Z in
    let numMessages := Z.of_nat (length historyToTruncate) in
    let numMessagesToConsider := (numMessages - startIndexToConsider)%Z in
    if decide (0 < numMessagesToConsider)%Z then
      let remove := messagesToRemove truncationPercentage numMessagesToConsider in
      let endIndexToRemove :=
        Number.sub (Number.add (Integer startIndexToConsider) remove) (Integer 1) in
      let preservedFirstPair := take 2 historyToTruncate in
      let remainingMessages :=
        slice (Number.add endIndexToRemove (Integer 1)) historyToTruncate in
      let truncated := preservedFirstPair ++ remainingMessages in
      let withNotice :=
        addTruncationNotice historyToTruncate truncated currentModifications timestamp in
      mkTruncation truncated (adjustIndices remove withNotice) true
    else mkTruncation historyToTruncate currentModifications true
  else mkTruncation historyToTruncate currentModifications false.

(** ** Manager facade *)

Record ContextManager := mkManager {
  contextHistoryUpdates : PersistedContextHistory;
  currentModelInfo : option ModelInfo.t;
  truncationPercentage : float;
  reservedResponseTokens : Z;
  tokenBuffer : Z;
  (** every log handed to [writePersistedContextHistory], oldest first *)
  persisted : list PersistedContextHistory
}.

Record ProcessedContextResult := mkResult {
  processedHistory : list MessageParam;
  resultModifications : PersistedContextHistory;
  tokensUsed : Z;
  resultWasTruncated : bool
}.

Definition setLog (st : ContextManager) (log : PersistedContextHistory) : ContextManager :=
  mkManager log (currentModelInfo st) (truncationPercentage st)
    (reservedResponseTokens st) (tokenBuffer st) (persisted st).

Definition saveContextHistory (st : ContextManager) : ContextManager :=
  mkManager (contextHistoryUpdates st) (currentModelInfo st) (truncationPercentage st)
    (reservedResponseTokens st) (tokenBuffer st)
    (persisted st ++ [contextHistoryUpdates st]).

Definition updateModelInfo (st : ContextManager) (newModelInfo : option ModelInfo.t)
    : ContextManager :=
  if decide (currentModelInfo st = newModelInfo) then st
  else mkManager (contextHistoryUpdates st) newModelInfo (truncationPercentage st)
         (reservedResponseTokens st) (tokenBuffer st) (persisted st).

(** Same body as [applyModificationsToHistory], reading the live log. *)
Definition applyContextHistoryUpdates (st : ContextManager)
    (rawHistory : list MessageParam) : list MessageParam :=
  applyModificationsToHistory rawHistory (contextHistoryUpdates st).

Definition maxTokensForContext (st : ContextManager) : Q :=
  (maxAllowedSize (getContextWindowInfo (currentModelInfo st))
   - inject_Z (reservedResponseTokens st) - inject_Z (tokenBuffer st))%Q.

(** [nowOptimize] and [nowTruncate] are the two clock readings of the
    call, in [applyOptimizations] and in [applyTruncation]. *)
Definition processHistoryForApi (st : ContextManager)
    (rawApiConversationHistory : list MessageParam)
    (previousRequestTokenCount : Z) (nowOptimize nowTruncate : Z)
    : ProcessedContextResult * ContextManager :=
  let optimizedModifications :=
    applyOptimizations rawApiConversationHistory (contextHistoryUpdates st) nowOptimize in
  let historyAfterOptimizations := applyContextHistoryUpdates st rawApiConversationHistory in
  let historyAfterOptimizations :=
    applyModificationsToHistory historyAfterOptimizations optimizedModifications in
  if Qle_bool (maxTokensForContext st) 0%Q then
    (mkResult rawApiConversationHistory (contextHistoryUpdates st)
       (calculateTokens rawApiConversationHistory) false, st)
  else
    let r :=
      applyTruncation (truncationPercentage st) historyAfterOptimizations
        optimizedModifications (maxTokensForContext st) previousRequestTokenCount
        nowTruncate in
    let finalTokensUsed := calculateTokens (truncatedHistory r) in
    let st' :=
      if decide (contextHistoryUpdates st = updatedModifications r) then st
      else saveContextHistory (setLog st (updatedModifications r)) in
    (mkResult (truncatedHistory r) (contextHistoryUpdates st') finalTokensUsed
       (wasTruncated r), st').

(** ** Rollback (truncateHistoryUpdatesAtTimestamp) *)

(** The body of the loop over the blocks of one entry, on the pair of
    [newBlocks] and [blockAdded]. *)
Definition keepBlock (timestamp' : Z) (acc : gmap nat (list ContextUpdate) * bool)
    (kv : nat * list ContextUpdate) : gmap nat (list ContextUpdate) * bool :=
  let '(newBlocks, blockAdded) := acc in
  let '(blockIndex, updates) := kv in
  let validUpdates := filter (λ update, (timestamp update ≤ timestamp')%Z) updates in
  if decide (0 < length validUpdates)%nat
  then (<[blockIndex := validUpdates]> newBlocks, true)
  else (newBlocks, blockAdded).

(** The body of the loop over the entries. *)
Definition keepEntry (timestamp' : Z) (newModifications : PersistedContextHistory)
    (kv : nat * MessageUpdates) : PersistedContextHistory :=
  let '(messageIndex, messageData) := kv in
  let '(newBlocks, blockAdded) :=
    foldl (keepBlock timestamp') (∅, false) (Js.for_in (blocks messageData)) in
  if blockAdded
  then <[messageIndex := mkEntry (editType messageData) newBlocks]> newModifications
  else newModifications.

Definition truncateHistoryUpdatesAtTimestamp (st : ContextManager) (timestamp' : Z)
    : ContextManager :=
  let newModifications :=
    foldl (keepEntry timestamp') ∅ (Js.for_in (contextHistoryUpdates st)) in
  if decide (newModifications = contextHistoryUpdates st) then st
  else saveContextHistory (setLog st newModifications).

End Manager.

(** ** Loop shapes

    The two shapes the [for ... in] loops of the manager take: rewriting
    position [k] of an array for the entry of key [k], and inserting a
    re-keyed, possibly dropped, copy of each entry into a fresh object. *)

Definition alterStep {A B} (f : B → A → A) (h : list A) (kv : nat * B) : list A :=
  alter (f kv.2) kv.1 h.

Definition insertStep {B C} (F : nat → B → option (nat * C))
    (acc : gmap nat C) (kv : nat * B) : gmap nat C :=
  match F kv.1 kv.2 with
  | Some (k, c) => <[k := c]> acc
  | None => acc
  end.

(** ** Position-wise readings of the applier's loops

    What one pass over an entry does to a single block and to a single
    message; the loops above are shown equal to these below. *)

Section Readings.
Context `{Collaborators}.

Definition applyLatest (blockUpdates : list ContextUpdate) (block : ContentBlock)
    : ContentBlock :=
  match last blockUpdates with
  | Some latestUpdate => applyUpdate latestUpdate block
  | None => block
  end.

Definition applyToMessage (messageUpdates : MessageUpdates) (message : MessageParam)
    : MessageParam :=
  match content message with
  | ContentString _ => message
  | ContentBlocks bs =>
      mkMessage (role message)
        (ContentBlocks (foldl applyBlockUpdates bs (Js.for_in (blocks messageUpdates))))
  end.

Definition applyAt (modifications : PersistedContextHistory) (i : nat)
    (message : MessageParam) : MessageParam :=
  match modifications !! i with
  | Some messageUpdates => applyToMessage messageUpdates message
  | None => message
  end.

(** Where the index-adjustment loop sends the entry of [originalIndex]. *)
Definition rekey (messagesToRemove : Integral) (originalIndex : nat) : option nat :=
  if decide (Z.of_nat originalIndex < 2)%Z then Some originalIndex
  else match messagesToRemove with
       | Integer count =>
           if decide (2 + count - 1 < Z.of_nat originalIndex)%Z
           then Some (Z.to_nat (Z.of_nat originalIndex - count))
           else None
       | _ => None
       end.

(** The number of evicted messages, where the count is an integer. *)
Definition evicted (truncationPercentage : float) (numMessagesToConsider : Z) : nat :=
  match messagesToRemove truncationPercentage numMessagesToConsider with
  | Integer count => Z.to_nat count
  | _ => 0
  end.

(** The blocks an entry keeps through a rollback to [t]. *)
Definition keptBlocks (t : Z) (messageData : MessageUpdates)
    : gmap nat (list ContextUpdate) :=
  (foldl (keepBlock t) (∅, false) (Js.for_in (blocks messageData))).1.

(** The log a rollback to [t] computes, before it is compared with the
    live one. *)
Definition rolledBack (t : Z) (log : PersistedContextHistory) : PersistedContextHistory :=
  foldl (keepEntry t) ∅ (Js.for_in log).

Definition keepBlockF (t : Z) (b : nat) (updates : list ContextUpdate)
    : option (nat * list ContextUpdate) :=
  let validUpdates := filter (λ update, (timestamp update ≤ t)%Z) updates in
  if decide (0 < length validUpdates)%nat then Some (b, validUpdates) else None.

Definition keepEntryF (t : Z) (i : nat) (messageData : MessageUpdates)
    : option (nat * MessageUpdates) :=
  if negb (bool_decide (keptBlocks t messageData = ∅))
  then Some (i, mkEntry (editType messageData) (keptBlocks t messageData))
  else None.

(** The occurrences [applyOptimizations] edits: all but the last of each
    path read at least twice. *)
Definition nonFinal (occurrences : list FileReadOccurrence) : list FileReadOccurrence :=
  if decide (length occurrences ≤ 1)%nat then []
  else take (length occurrences - 1) occurrences.

Definition nonFinalOccurrences (rawHistory : list MessageParam) : list FileReadOccurrence :=
  flat_map (λ entry, nonFinal entry.2) (findDuplicateFileReads rawHistory).

(** Every occurrence of a scan result, path by path. *)
Definition allOccurrences (fileReads : FileReads) : list FileReadOccurrence :=
  flat_map snd fileReads.

(** [o] points at block [b] of message [i]. *)
Definition targets (i b : nat) (o : FileReadOccurrence) : Prop :=
  messageIndex o = i ∧ blockIndex o = b.

(** [u] is an elision edit of the call that read the clock at [now]. *)
Definition elisionEdit (now : Z) (u : ContextUpdate) : Prop :=
  timestamp u = now ∧ updateType u = replace_content.

(** [o] points at a text block of a user message of [rawHistory]. *)
Definition occurrenceIn (rawHistory : list MessageParam) (o : FileReadOccurrence) : Prop :=
  ∃ message bs text,
    rawHistory !! messageIndex o = Some message
    ∧ role message = user
    ∧ content message = ContentBlocks bs
    ∧ bs !! blockIndex o = Some (TextBlock text).

(** Every truncation notice of the log sits on block 0 of message 1. *)
Definition noticesOnlyAtFirstAssistant (log : PersistedContextHistory) : Prop :=
  ∀ i b u, u ∈ editsAt log i b → updateType u = add_truncation_notice →
           i = 1%nat ∧ b = 0%nat.

(** One operation of the manager. *)
Inductive managerStep : ContextManager → ContextManager → Prop :=
  | step_process st raw P nowOptimize nowTruncate :
      managerStep st (processHistoryForApi st raw P nowOptimize nowTruncate).2
  | step_rollback st t :
      managerStep st (truncateHistoryUpdatesAtTimestamp st t)
  | step_updateModelInfo st newModelInfo :
      managerStep st (updateModelInfo st newModelInfo).

(** Managers reachable from one whose log is empty. *)
Definition reachable (st : ContextManager) : Prop :=
  ∃ st0, contextHistoryUpdates st0 = ∅ ∧ rtc managerStep st0 st.

(** What the applier makes of message [i]: every block rewritten by the
    latest edit recorded for it. *)
Definition projectMessage (modifications : PersistedContextHistory) (i : nat)
    (message : MessageParam) : MessageParam :=
  match content message with
  | ContentString _ => message
  | ContentBlocks bs =>
      mkMessage (role message)
        (ContentBlocks (imap (λ b block, applyLatest (editsAt modifications i b) block) bs))
  end.

(** A log without empty edit lists and without entries that have no
    block, as rollback leaves it. *)
Definition withoutEmpties (log : PersistedContextHistory) : Prop :=
  ∀ i e, log !! i = Some e → blocks e ≠ ∅ ∧ ∀ b, blocks e !! b ≠ Some [].

(** The log names the role of the message each entry points at. *)
Definition rolesAgree (log : PersistedContextHistory) (h : list MessageParam) : Prop :=
  ∀ i e, log !! i = Some e → ∃ m, h !! i = Some m ∧ role m = editType e.

(** What the elider's loops keep true of the log they grow from [L]. *)
Definition grownFrom (raw : list MessageParam) (L M : PersistedContextHistory) : Prop :=
  (∀ i e, L !! i = Some e → ∃ e', M !! i = Some e' ∧ editType e' = editType e)
  ∧ (∀ i e', M !! i = Some e' → L !! i = None →
       editType e' = user ∧ ∃ m, raw !! i = Some m ∧ role m = user).

(** [c] occurs in [s]. *)
Fixpoint hasChar (c : ascii) (s : string) : bool :=
  match s with
  | EmptyString => false
  | String a s' => if decide (a = c) then true else hasChar c s'
  end.

(** The character a path may not hold in each pattern. *)
Definition quoteChar : ascii := "'"%char.
Definition dquoteChar : ascii := "034"%char.

(** A scan result keyed by path: distinct keys, no empty group, every
    occurrence filed under its own path. *)
Definition keyedByPath (fileReads : FileReads) : Prop :=
  NoDup fileReads.*1
  ∧ ∀ path occurrences, (path, occurrences) ∈ fileReads →
      occurrences ≠ [] ∧ Forall (λ o, filePath o = path) occurrences.

(** The edit emitted for an occurrence: stamped by the call, and carrying
    the notice itself when the occurrence has no [fullMatch]. *)
Definition emittedFor (now : Z) (o : FileReadOccurrence) (u : ContextUpdate) : Prop :=
  elisionEdit now u
  ∧ (fullMatch o = None → newContent u = Some duplicateFileReadNotice).

(** The last edit of the list is a truncation notice. *)
Definition endsWithNotice (edits : list ContextUpdate) : bool :=
  match last edits with
  | Some latestUpdate => bool_decide (updateType latestUpdate = add_truncation_notice)
  | None => false
  end.

(** Two blocks of the same variant, equal unless both are text. *)
Definition sameVariant (block block' : ContentBlock) : Prop :=
  match block with
  | TextBlock _ => isText block' = true
  | _ => block' = block
  end.

(** [c] rounded up to the next even integer. *)
Definition roundUpEven (c : Z) : Z := if Z.even c then c else (c + 1)%Z.

(** The number of binary digits of a mantissa. *)
Definition dig (m : positive) : Z := Z.pos (digits2_pos m).

End Readings.

#[global] Instance targets_dec i b o : Decision (targets i b o).
Proof. unfold targets. apply _. Defined.

(** ** Fixtures

    The collaborators of the specification's scenarios: notices [[trunc]]
    and [[dup]], one token per character. *)

#[global] Instance fixture : Collaborators := {|
  tokenizer := λ s, Z.of_nat (String.length s);
  contextTruncationNotice := "[trunc]"%string;
  duplicateFileReadNotice := "[dup]"%string
|}.

Definition textMessage (r : Role) (s : string) : MessageParam :=
  mkMessage r (ContentBlocks [TextBlock s]).

(** [n] user/assistant pairs. *)
Definition alternating (pairs : nat) : list MessageParam :=
  flat_map (λ _, [textMessage user "u"%string; textMessage assistant "a"%string])
    (seq 0 pairs).

Definition replaceEdit (t : Z) (s : string) : ContextUpdate :=
  mkUpdate t replace_content (Some s) (Some MetaEmpty).

(** [<file_content path="p">body</file_content>] *)
Definition mention (p body : string) : string :=
  mentionOpen +:+ p +:+ mentionOpenEnd +:+ body +:+ mentionClose.

(** A fresh manager for a 200 000-token model: budget 158 500. *)
Definition freshManager : ContextManager :=
  mkManager ∅ (Some (ModelInfo.mk (Some 200000%Q))) 0.5%float 1000 500 [].

(** A fresh manager whose reserve exceeds the budget. *)
Definition starvedManager : ContextManager :=
  mkManager ∅ (Some (ModelInfo.mk (Some 200000%Q))) 0.5%float 160000 500 [].

(** Scenario 2 of the specification: the same file mentioned in messages
    0 and 2. *)
Definition twoMentions : list MessageParam :=
  [textMessage user ("A " +:+ mention "a.ts" "X");
   textMessage assistant "ok";
   textMessage user ("B " +:+ mention "a.ts" "X")]%string.

(** One file mentioned once. *)
Definition oneMention : list MessageParam :=
  [textMessage user ("A " +:+ mention "a.ts" "X"); textMessage assistant "ok"]%string.

(** The same file mentioned in messages 2 and 4 of six. *)
Definition lateMentions : list MessageParam :=
  [textMessage user "u"; textMessage assistant "a";
   textMessage user (mention "a.ts" "X"); textMessage assistant "b";
   textMessage user (mention "a.ts" "X"); textMessage assistant "c"]%string.

(** Scenario 3 of the specification: the same file read by the tool in
    messages 0 and 2. *)
Definition twoReads : list MessageParam :=
  [mkMessage user
     (ContentBlocks [TextBlock "[read_file for 'f'] Result:"; TextBlock "CONTENT"]);
   textMessage assistant "k";
   mkMessage user
     (ContentBlocks [TextBlock "[read_file for 'f'] Result:"; TextBlock "CONTENT"])]%string.

(** A file read whose content mentions the file itself. *)
Definition readOfSelfMention : list MessageParam :=
  [mkMessage user
     (ContentBlocks [TextBlock "[read_file for 'f'] Result:";
                     TextBlock (mention "f" "X")])]%string.

(** Scenario 6 of the specification: edits at (0,0)@1, (0,0)@3 and
    (1,0)@2. *)
Definition threeEdits : PersistedContextHistory :=
  {[ 0%nat := mkEntry user
                {[ 0%nat := [replaceEdit 1 "Update 1"; replaceEdit 3 "Update 3"] ]};
     1%nat := mkEntry assistant {[ 0%nat := [replaceEdit 2 "Update 2"] ]} ]}%string.

Definition managerWith (log : PersistedContextHistory) : ContextManager :=
  mkManager log (Some (ModelInfo.mk (Some 200000%Q))) 0.5%float 1000 500 [].

(** A history whose first assistant message opens with a tool use. *)
Definition toolUseFirst : list MessageParam :=
  [textMessage user "u";
   mkMessage assistant (ContentBlocks [ToolUseBlock "read_file" "{}"]);
   textMessage user "v"; textMessage assistant "a"]%string.

(** ** Iteration over an object in key order *)

Section ForIn.
Context {A : Type}.
Implicit Types m : gmap nat A.

Lemma for_in_Permutation m : Js.for_in m ≡ₚ map_to_list m.
Proof. apply merge_sort_Permutation. Qed.

Lemma elem_of_for_in m k v : (k, v) ∈ Js.for_in m ↔ m !! k = Some v.
Proof. rewrite for_in_Permutation. apply elem_of_map_to_list. Qed.

Lemma NoDup_fst_for_in m : NoDup (Js.for_in m).*1.
Proof. rewrite for_in_Permutation. apply NoDup_fst_map_to_list. Qed.

Lemma not_elem_of_fst_for_in m k : m !! k = None → k ∉ (Js.for_in m).*1.
Proof.
  intros Hk [[k' v] [-> Hin]]%list_elem_of_fmap.
  apply elem_of_for_in in Hin. simpl in Hk. congruence.
Qed.

Lemma for_in_empty : Js.for_in (∅ : gmap nat A) = [].
Proof.
  apply Permutation_nil_r. rewrite for_in_Permutation.
  by rewrite map_to_list_empty.
Qed.

End ForIn.

(** A loop whose iteration for key [k] rewrites position [k] only. *)
Section FoldAlter.
Context {A B : Type} (f : B → A → A).

Local Abbreviation alterStep := (alterStep f).

Lemma foldl_alterStep_length l h : length (foldl alterStep h l) = length h.
Proof.
  revert h. induction l as [|kv l IH]; intros h; simpl; [done|].
  rewrite IH. unfold alterStep. apply length_alter.
Qed.

Lemma foldl_alterStep_notin l h i :
  i ∉ l.*1 → foldl alterStep h l !! i = h !! i.
Proof.
  revert h. induction l as [|[k v] l IH]; intros h Hi; simpl; [done|].
  rewrite fmap_cons in Hi. apply not_elem_of_cons in Hi as [Hne Hi].
  rewrite IH by done. unfold alterStep. simpl in *.
  by rewrite list_lookup_alter_ne.
Qed.

Lemma foldl_alterStep_in l h i v :
  NoDup l.*1 → (i, v) ∈ l → foldl alterStep h l !! i = f v <$> h !! i.
Proof.
  revert h. induction l as [|[k w] l IH]; intros h Hnd Hin; simpl.
  { by apply elem_of_nil in Hin. }
  rewrite fmap_cons in Hnd. apply NoDup_cons in Hnd as [Hk Hnd].
  apply elem_of_cons in Hin as [Heq|Hin].
  - inversion Heq; subst. rewrite foldl_alterStep_notin by done.
    unfold alterStep. simpl. apply list_lookup_alter_eq.
  - rewrite IH by done. unfold alterStep. simpl.
    rewrite list_lookup_alter_ne; [done|].
    intros ->. apply Hk. apply list_elem_of_fmap. by exists (i, v).
Qed.

(** The loop over an object, read position by position. *)
Lemma foldl_alterStep_for_in (m : gmap nat B) h i :
  foldl alterStep h (Js.for_in m) !! i =
  (λ x, match m !! i with Some v => f v x | None => x end) <$> h !! i.
Proof.
  destruct (m !! i) as [v|] eqn:Hm.
  - apply foldl_alterStep_in; [apply NoDup_fst_for_in|by apply elem_of_for_in].
  - rewrite foldl_alterStep_notin by by apply not_elem_of_fst_for_in.
    by destruct (h !! i).
Qed.

End FoldAlter.

(** A loop that inserts a re-keyed, possibly dropped, copy of each entry
    into a fresh object. *)
Section FoldInsert.
Context {B C : Type} (F : nat → B → option (nat * C)).

Local Abbreviation insertStep := (insertStep F).

Hypothesis F_inj : ∀ i j v w k c d,
  F i v = Some (k, c) → F j w = Some (k, d) → i = j.

Lemma foldl_insertStep_lookup l k c :
  NoDup l.*1 →
  foldl insertStep ∅ l !! k = Some c ↔ ∃ j v, (j, v) ∈ l ∧ F j v = Some (k, c).
Proof using F_inj.
  induction l as [|[j v] l IH] using rev_ind; intros Hnd.
  { simpl. rewrite lookup_empty. split; [done|].
    intros (j & v & Hin & _). by apply elem_of_nil in Hin. }
  rewrite fmap_app in Hnd. apply NoDup_app in Hnd as (Hnd & Hdisj & _).
  rewrite foldl_app. simpl. unfold insertStep at 1. simpl.
  assert (Hfresh : ∀ w, (j, w) ∉ l).
  { intros w Hin. apply (Hdisj j).
    - apply list_elem_of_fmap. by exists (j, w).
    - simpl. apply list_elem_of_singleton. done. }
  destruct (F j v) as [[k' c']|] eqn:HF.
  - destruct (decide (k' = k)) as [->|Hne].
    + rewrite lookup_insert_eq. split.
      * intros [= ->]. exists j, v. split; [|done].
        apply elem_of_app. right. by apply list_elem_of_singleton.
      * intros (j2 & v2 & Hin & HF2). apply elem_of_app in Hin as [Hin|Hin].
        -- pose proof (F_inj _ _ _ _ _ _ _ HF HF2) as <-. by destruct (Hfresh v2).
        -- apply list_elem_of_singleton in Hin. inversion Hin; subst. congruence.
    + rewrite lookup_insert_ne by done. rewrite IH by done. split.
      * intros (j2 & v2 & Hin & HF2). exists j2, v2. split; [|done].
        apply elem_of_app. by left.
      * intros (j2 & v2 & Hin & HF2). apply elem_of_app in Hin as [Hin|Hin].
        -- by exists j2, v2.
        -- apply list_elem_of_singleton in Hin. inversion Hin; subst. congruence.
  - rewrite IH by done. split.
    + intros (j2 & v2 & Hin & HF2). exists j2, v2. split; [|done].
      apply elem_of_app. by left.
    + intros (j2 & v2 & Hin & HF2). apply elem_of_app in Hin as [Hin|Hin].
      * by exists j2, v2.
      * apply list_elem_of_singleton in Hin. inversion Hin; subst. congruence.
Qed.

Lemma foldl_insertStep_for_in (m : gmap nat B) k c :
  foldl insertStep ∅ (Js.for_in m) !! k = Some c
  ↔ ∃ j v, m !! j = Some v ∧ F j v = Some (k, c).
Proof using F_inj.
  rewrite foldl_insertStep_lookup by apply NoDup_fst_for_in.
  split; intros (j & v & Hin & HF); exists j, v; split; try done;
    by apply elem_of_for_in.
Qed.

End FoldInsert.

Lemma foldl_step_ext {A B} (f g : A → B → A) (l : list B) (a : A) :
  (∀ a b, f a b = g a b) → foldl f a l = foldl g a l.
Proof.
  intros Hfg. revert a. induction l as [|b l IH]; intros a; simpl; [done|].
  by rewrite Hfg, IH.
Qed.

Lemma foldl_invariant {A B} (P : A → Prop) (f : A → B → A) (l : list B) (a : A) :
  P a → (∀ a b, b ∈ l → P a → P (f a b)) → P (foldl f a l).
Proof.
  revert a. induction l as [|b l IH]; intros a Ha Hstep; simpl; [done|].
  apply IH.
  - apply Hstep; [by left|done].
  - intros a' b' Hb'. apply Hstep. by right.
Qed.

Lemma elem_of_entries {A} (l : list A) i x : (i, x) ∈ Js.entries l ↔ l !! i = Some x.
Proof.
  unfold Js.entries. rewrite elem_of_lookup_imap. split.
  - intros (j & y & [= -> ->] & Hy). done.
  - intros Hx. by exists i, x.
Qed.

Lemma elem_of_flat_map {A B} (f : A → list B) (l : list A) (x : B) :
  x ∈ flat_map f l ↔ ∃ y, y ∈ l ∧ x ∈ f y.
Proof.
  rewrite list_elem_of_In, in_flat_map. split; intros (y & Hy & Hx); exists y;
    by rewrite ?list_elem_of_In in *.
Qed.

Lemma insert_as_alter {A} (f : A → A) (l : list A) i x :
  l !! i = Some x → <[i := f x]> l = alter f i l.
Proof.
  intros Hx. apply list_eq. intros j. destruct (decide (i = j)) as [->|Hne].
  - rewrite list_lookup_alter_eq, Hx. simpl.
    apply list_lookup_insert_eq. by eapply lookup_lt_Some.
  - by rewrite list_lookup_insert_ne, list_lookup_alter_ne.
Qed.

Lemma alter_absent {A} (f : A → A) (l : list A) i :
  l !! i = None → alter f i l = l.
Proof.
  intros Hx. apply list_eq. intros j. destruct (decide (i = j)) as [->|Hne].
  - by rewrite list_lookup_alter_eq, Hx.
  - by rewrite list_lookup_alter_ne.
Qed.

(** ** The applier, position by position *)

Section Applier.
Context `{Collaborators}.

Lemma applyBlockUpdates_alter bs kv :
  applyBlockUpdates bs kv = alterStep applyLatest bs kv.
Proof.
  destruct kv as [b ups]. unfold applyBlockUpdates, alterStep, applyLatest. simpl.
  destruct (bs !! b) as [block|] eqn:Hb.
  - destruct (last ups) as [u|].
    + by apply (insert_as_alter (applyUpdate u)).
    + symmetry. by apply list_alter_id.
  - symmetry. by apply alter_absent.
Qed.

Lemma foldl_applyBlockUpdates bs l :
  foldl applyBlockUpdates bs l = foldl (alterStep applyLatest) bs l.
Proof.
  revert bs. induction l as [|kv l IH]; intros bs; simpl; [done|].
  by rewrite applyBlockUpdates_alter, IH.
Qed.

Lemma applyMessageUpdates_alter h kv :
  applyMessageUpdates h kv = alterStep applyToMessage h kv.
Proof.
  destruct kv as [i e]. unfold applyMessageUpdates, alterStep. simpl.
  destruct (h !! i) as [m|] eqn:Hi.
  - rewrite <- (insert_as_alter (applyToMessage e) h i m Hi).
    unfold applyToMessage. destruct (content m) eqn:Hc; [|done].
    symmetry. apply list_insert_id. by rewrite Hi.
  - symmetry. by apply alter_absent.
Qed.

Lemma foldl_applyMessageUpdates h l :
  foldl applyMessageUpdates h l = foldl (alterStep applyToMessage) h l.
Proof.
  revert h. induction l as [|kv l IH]; intros h; simpl; [done|].
  by rewrite applyMessageUpdates_alter, IH.
Qed.

Lemma applyModificationsToHistory_lookup h L i :
  applyModificationsToHistory h L !! i = applyAt L i <$> h !! i.
Proof.
  unfold applyModificationsToHistory. rewrite foldl_applyMessageUpdates.
  apply foldl_alterStep_for_in.
Qed.

Lemma applyModificationsToHistory_length h L :
  length (applyModificationsToHistory h L) = length h.
Proof.
  unfold applyModificationsToHistory. rewrite foldl_applyMessageUpdates.
  apply foldl_alterStep_length.
Qed.

(** The blocks of a message after one pass over an entry. *)
Lemma applied_blocks_lookup (B : gmap nat (list ContextUpdate)) bs j :
  foldl applyBlockUpdates bs (Js.for_in B) !! j =
  (λ b, match B !! j with Some ups => applyLatest ups b | None => b end) <$> bs !! j.
Proof. rewrite foldl_applyBlockUpdates. apply foldl_alterStep_for_in. Qed.

Lemma startsWith_app p s : Js.startsWith p (p +:+ s) = true.
Proof. induction p as [|a p IH]; simpl; [done|]. by rewrite decide_True. Qed.

Lemma applyUpdate_idem u b : applyUpdate u (applyUpdate u b) = applyUpdate u b.
Proof.
  unfold applyUpdate. destruct (updateType u); [| |done].
  - destruct b; try done. by destruct (newContent u).
  - destruct b as [t| | |]; try done.
    destruct (Js.startsWith contextTruncationNotice t) eqn:Hs.
    + by rewrite Hs.
    + by rewrite startsWith_app.
Qed.

Lemma applyLatest_idem ups b : applyLatest ups (applyLatest ups b) = applyLatest ups b.
Proof. unfold applyLatest. destruct (last ups); [apply applyUpdate_idem|done]. Qed.

Lemma applyToMessage_idem e m : applyToMessage e (applyToMessage e m) = applyToMessage e m.
Proof.
  unfold applyToMessage. destruct (content m) as [s|bs] eqn:Hc.
  { by rewrite Hc. }
  simpl. do 2 f_equal. apply list_eq. intros j.
  rewrite !applied_blocks_lookup. destruct (bs !! j) as [b|]; [|done]. simpl.
  destruct (blocks e !! j); [|done]. by rewrite applyLatest_idem.
Qed.

Lemma applyAt_idem L i m : applyAt L i (applyAt L i m) = applyAt L i m.
Proof. unfold applyAt. destruct (L !! i); [apply applyToMessage_idem|done]. Qed.

(** What the applier does to one block: the latest edit recorded for it. *)
Lemma blockAt_applyModificationsToHistory h (L : PersistedContextHistory) i b :
  blockAt (applyModificationsToHistory h L) i b
  = applyLatest (editsAt L i b) <$> blockAt h i b.
Proof.
  unfold blockAt. rewrite applyModificationsToHistory_lookup.
  destruct (h !! i) as [m|]; [|done]. simpl. unfold applyAt, editsAt.
  destruct (L !! i) as [e|].
  - unfold applyToMessage. destruct (content m) as [str|bs] eqn:Hc; simpl.
    + by rewrite Hc.
    + rewrite applied_blocks_lookup. destruct (bs !! b) as [blk|]; [|done]. simpl.
      by destruct (blocks e !! b).
  - destruct (content m) as [str|bs]; [done|]. by destruct (bs !! b).
Qed.

(** C1. Applier idempotence: for every history [H] and edit log [L],
    applying [L] to the result of applying [L] to [H] gives the result of
    applying it once; the notice is prepended only when the text does not
    already start with it, so it is never prefixed twice. *)
Theorem applier_idempotent (H0 : list MessageParam) (L : PersistedContextHistory) :
  applyModificationsToHistory (applyModificationsToHistory H0 L) L
  = applyModificationsToHistory H0 L.
Proof.
  apply list_eq. intros i. rewrite !applyModificationsToHistory_lookup.
  destruct (H0 !! i) as [m|]; [|done]. simpl. by rewrite applyAt_idem.
Qed.

End Applier.

(** ** Doubles

    What the truncator needs of binary64 rounding, from the definitions
    of [SpecFloat]: a shift to the right divides the mantissa, rounding
    to nearest moves it by at most one, and so the product of a positive
    integer and a double keeps the sign of the double and is not below
    the exact product cut at the exponent of the result. *)

Section Doubles.

Lemma dig_bounds m : (2 ^ (dig m - 1) ≤ Z.pos m < 2 ^ dig m)%Z.
Proof.
  unfold dig. induction m as [m IH|m IH|]; simpl digits2_pos.
  - rewrite Pos2Z.inj_succ. set (d := Z.pos (digits2_pos m)) in *.
    replace (Z.succ d - 1)%Z with (Z.succ (d - 1)) by lia.
    rewrite !Z.pow_succ_r by lia. lia.
  - rewrite Pos2Z.inj_succ. set (d := Z.pos (digits2_pos m)) in *.
    replace (Z.succ d - 1)%Z with (Z.succ (d - 1)) by lia.
    rewrite !Z.pow_succ_r by lia. lia.
  - simpl. lia.
Qed.

Lemma dig_pos m : (1 ≤ dig m)%Z.
Proof. unfold dig. lia. Qed.

Lemma dig_unique m k : (2 ^ (k - 1) ≤ Z.pos m < 2 ^ k)%Z → dig m = k.
Proof.
  intros [Hlo Hhi]. pose proof (dig_bounds m) as [Hl Hh]. pose proof (dig_pos m).
  assert (0 < k)%Z as Hk.
  { destruct (Z.lt_ge_cases 0 k); [done|].
    assert (2 ^ k ≤ 2 ^ 0)%Z by (apply Z.pow_le_mono_r; lia). simpl in *. lia. }
  destruct (Z.lt_trichotomy (dig m) k) as [Hlt|[Heq|Hgt]]; [|done|].
  - assert (2 ^ dig m ≤ 2 ^ (k - 1))%Z by (apply Z.pow_le_mono_r; lia). lia.
  - assert (2 ^ k ≤ 2 ^ (dig m - 1))%Z by (apply Z.pow_le_mono_r; lia). lia.
Qed.

Lemma dig_mono m m' : (Z.pos m ≤ Z.pos m')%Z → (dig m ≤ dig m')%Z.
Proof.
  intros Hle. pose proof (dig_bounds m) as [Hl _]. pose proof (dig_bounds m') as [_ Hh].
  destruct (Z.le_gt_cases (dig m) (dig m')) as [|Hgt]; [done|].
  pose proof (dig_pos m').
  assert (2 ^ dig m' ≤ 2 ^ (dig m - 1))%Z by (apply Z.pow_le_mono_r; lia).
  lia.
Qed.

Lemma fexp_eq e : fexp prec emax e = Z.max (e - 53) (-1074).
Proof. reflexivity. Qed.

Lemma shr_1_m mrs : (0 ≤ shr_m mrs)%Z → shr_m (shr_1 mrs) = (shr_m mrs / 2)%Z.
Proof.
  destruct mrs as [m r s]. cbn [shr_m]. intros Hm.
  destruct m as [|[p|p|]|p]; cbn [shr_1 shr_m]; try lia;
    Z.to_euclidean_division_equations; lia.
Qed.

Lemma pow2_xO k : (2 ^ Z.pos k~0 = 2 ^ Z.pos k * 2 ^ Z.pos k)%Z.
Proof. rewrite <- Z.pow_add_r by lia. f_equal. lia. Qed.

Lemma pow2_xI k : (2 ^ Z.pos k~1 = 2 * (2 ^ Z.pos k * 2 ^ Z.pos k))%Z.
Proof.
  rewrite <- Z.pow_add_r by lia. rewrite <- Z.pow_succ_r by lia. f_equal. lia.
Qed.

Lemma iter_shr_1_m k mrs :
  (0 ≤ shr_m mrs)%Z → shr_m (SpecFloat.iter_pos shr_1 k mrs) = (shr_m mrs / 2 ^ Z.pos k)%Z.
Proof.
  revert mrs. induction k as [k IH|k IH|]; intros mrs Hm; simpl SpecFloat.iter_pos.
  - assert (0 ≤ shr_m (shr_1 mrs))%Z as H1 by (rewrite shr_1_m by done; apply Z.div_pos; lia).
    assert (0 ≤ shr_m (SpecFloat.iter_pos shr_1 k (shr_1 mrs)))%Z as H2
      by (rewrite IH by done; apply Z.div_pos; lia).
    rewrite IH, IH, shr_1_m by done.
    rewrite !Z.div_div by lia. by rewrite pow2_xI.
  - assert (0 ≤ shr_m (SpecFloat.iter_pos shr_1 k mrs))%Z as H2
      by (rewrite IH by done; apply Z.div_pos; lia).
    rewrite IH, IH by done. rewrite Z.div_div by lia. by rewrite pow2_xO.
  - by rewrite shr_1_m.
Qed.

Lemma shr_record_of_loc_m m l : shr_m (shr_record_of_loc m l) = m.
Proof. by destruct l as [|[]]. Qed.

Lemma div_pow2_dig (m : positive) k :
  (0 ≤ k < dig m)%Z →
  ∃ m', (Z.pos m / 2 ^ k)%Z = Z.pos m' ∧ dig m' = (dig m - k)%Z.
Proof.
  intros Hk. pose proof (dig_bounds m) as [Hl Hh].
  assert (0 < 2 ^ k)%Z as Hp by (apply Z.pow_pos_nonneg; lia).
  assert (2 ^ (dig m - 1) = 2 ^ (dig m - k - 1) * 2 ^ k)%Z as E1
    by (rewrite <- Z.pow_add_r by lia; f_equal; lia).
  assert (2 ^ dig m = 2 ^ (dig m - k) * 2 ^ k)%Z as E2
    by (rewrite <- Z.pow_add_r by lia; f_equal; lia).
  assert (2 ^ (dig m - k - 1) ≤ Z.pos m / 2 ^ k)%Z as Hlo.
  { apply Z.div_le_lower_bound; lia. }
  assert (Z.pos m / 2 ^ k < 2 ^ (dig m - k))%Z as Hhi.
  { apply Z.div_lt_upper_bound; lia. }
  assert (0 < 2 ^ (dig m - k - 1))%Z by (apply Z.pow_pos_nonneg; lia).
  destruct (Z.pos m / 2 ^ k)%Z as [|m'|] eqn:Hq; try lia.
  exists m'. split; [done|]. apply dig_unique. lia.
Qed.

(** One [shr_fexp] step on a positive mantissa that does not underflow. *)
Lemma shr_fexp_pos (m : positive) e l :
  (-1074 < e + dig m)%Z →
  ∃ m', shr_m (shr_fexp prec emax (Z.pos m) e l).1 = Z.pos m'
    ∧ (shr_fexp prec emax (Z.pos m) e l).2 = Z.max e (fexp prec emax (dig m + e))
    ∧ Z.pos m' = (Z.pos m / 2 ^ (Z.max e (fexp prec emax (dig m + e)) - e))%Z
    ∧ (dig m' + Z.max e (fexp prec emax (dig m + e)) = dig m + e)%Z.
Proof.
  intros Hd. unfold shr_fexp, shr. simpl Zdigits2. fold (dig m).
  rewrite fexp_eq. pose proof (dig_pos m).
  destruct (Z.max (dig m + e - 53) (-1074) - e)%Z as [|k|k] eqn:Hk; simpl.
  - exists m. rewrite shr_record_of_loc_m.
    replace (Z.max e (Z.max (dig m + e - 53) (-1074))) with e by lia.
    rewrite Z.sub_diag. simpl. rewrite Z.div_1_r. repeat split; lia.
  - rewrite iter_shr_1_m by (rewrite shr_record_of_loc_m; lia).
    rewrite shr_record_of_loc_m.
    destruct (div_pow2_dig m (Z.pos k)) as (m' & Hm' & Hdig); [lia|].
    exists m'. replace (Z.max e (Z.max (dig m + e - 53) (-1074))) with (e + Z.pos k)%Z by lia.
    replace (e + Z.pos k - e)%Z with (Z.pos k) by lia.
    repeat split; first [done | lia].
  - exists m. rewrite shr_record_of_loc_m.
    replace (Z.max e (Z.max (dig m + e - 53) (-1074))) with e by lia.
    rewrite Z.sub_diag. simpl. rewrite Z.div_1_r. repeat split; lia.
Qed.

Lemma round_nearest_even_pos (m : positive) l :
  ∃ m2, round_nearest_even (Z.pos m) l = Z.pos m2 ∧ (Z.pos m ≤ Z.pos m2 ≤ Z.pos m + 1)%Z.
Proof.
  destruct l as [|[]]; simpl; try (exists m; split; [done|lia]).
  - destruct m; simpl; eexists; split; try done; lia.
  - eexists; split; [done|]; lia.
Qed.

(** Rounding a positive mantissa that does not underflow gives a float of
    the same sign, not below the mantissa cut at its exponent. *)
Lemma binary_round_aux_pos s (M : positive) (E : Z) :
  (-1074 < E + dig M)%Z →
  binary_round_aux prec emax s (Z.pos M) E loc_Exact = S754_infinity s
  ∨ ∃ m e,
      binary_round_aux prec emax s (Z.pos M) E loc_Exact = S754_finite s m e
      ∧ (Z.max E (fexp prec emax (dig M + E)) ≤ e)%Z
      ∧ (Z.pos M / 2 ^ (e - E) ≤ Z.pos m)%Z
      ∧ ((E ≤ fexp prec emax (dig M + E))%Z → e = fexp prec emax (dig m + e)).
Proof.
  intros Hd. unfold binary_round_aux.
  destruct (shr_fexp_pos M E loc_Exact Hd) as (m1 & Hm1 & He1 & Hv1 & Hd1).
  destruct (shr_fexp prec emax (Z.pos M) E loc_Exact) as [mrs1 e1] eqn:Hs1.
  simpl in Hm1, He1. rewrite Hm1.
  destruct (round_nearest_even_pos m1 (loc_of_shr_record mrs1)) as (m2 & -> & Hm2).
  assert (dig m1 ≤ dig m2)%Z as Hdig12 by (apply dig_mono; lia).
  assert (-1074 < e1 + dig m2)%Z as Hd2 by lia.
  destruct (shr_fexp_pos m2 e1 loc_Exact Hd2) as (m3 & Hm3 & He3 & Hv3 & Hd3).
  destruct (shr_fexp prec emax (Z.pos m2) e1 loc_Exact) as [mrs3 e3] eqn:Hs3.
  simpl in Hm3, He3. rewrite Hm3.
  destruct (e3 <=? emax - prec)%Z; [|by left]. right.
  exists m3, e3. split; [done|]. rewrite <- He3 in Hv3, Hd3. rewrite <- He1 in Hv1, Hd1.
  split; [lia|]. split.
  - rewrite Hv3.
    replace (e3 - E)%Z with ((e1 - E) + (e3 - e1))%Z by lia.
    rewrite Z.pow_add_r by lia. rewrite <- Z.div_div by (try apply Z.pow_pos_nonneg; lia).
    rewrite <- Hv1. apply Z.div_le_mono; [apply Z.pow_pos_nonneg; lia|lia].
  - intros Hk. rewrite fexp_eq in *. lia.
Qed.

Lemma valid_finite s m e :
  valid_binary (S754_finite s m e) = true →
  e = fexp prec emax (dig m + e) ∧ (e ≤ 971)%Z.
Proof.
  unfold valid_binary, SpecFloat.valid_binary, bounded, canonical_mantissa. fold (dig m).
  intros [Hc He]%andb_prop. apply Z.eqb_eq in Hc. apply Z.leb_le in He.
  split; [done|]. exact He.
Qed.

(** The product of a positive integer and a finite double: of the sign
    of the double, an infinity or a canonical float not below the exact
    product cut at its exponent. *)
Lemma SF64mul_ofInteger (n : positive) s m e :
  valid_binary (S754_finite s m e) = true →
  SF64mul (Number.ofInteger (Z.pos n)) (S754_finite s m e) = S754_infinity s
  ∨ ∃ m' e',
      SF64mul (Number.ofInteger (Z.pos n)) (S754_finite s m e) = S754_finite s m' e'
      ∧ (Z.max e (fexp prec emax (dig (n * m) + e)) ≤ e')%Z
      ∧ (Z.pos (n * m) / 2 ^ (e' - e) ≤ Z.pos m')%Z
      ∧ e' = fexp prec emax (dig m' + e').
Proof.
  intros [Hc He]%valid_finite. simpl.
  assert (dig m ≤ dig (n * m))%Z as Hd by (apply dig_mono; nia).
  pose proof (dig_pos m) as Hp. rewrite fexp_eq in Hc.
  destruct (binary_round_aux_pos s (n * m) (0 + e)) as [->|(m' & e' & -> & H1 & H2 & H3)].
  - simpl. lia.
  - by left.
  - right. exists m', e'. simpl in *. repeat split; [done..|]. apply H3. rewrite fexp_eq. lia.
Qed.

Lemma roundUpEven_rem c :
  (if negb (Z.rem c 2 =? 0)%Z then (c + 1)%Z else c) = roundUpEven c.
Proof.
  unfold roundUpEven. rewrite Zeven_mod.
  destruct (Z.eqb_spec (Z.rem c 2) 0) as [Hr|Hr];
    destruct (Z.eqb_spec (c mod 2) 0) as [Hm|Hm]; try done; exfalso;
    Z.to_euclidean_division_equations; lia.
Qed.

Lemma roundUpEven_ge c : (c ≤ roundUpEven c ≤ c + 1)%Z.
Proof. unfold roundUpEven. destruct (Z.even c); lia. Qed.

(** The count in terms of the ceiling of the product. *)
Lemma messagesToRemove_Integer φ n c :
  Math.ceil (SF64mul (Number.ofInteger n) (Prim2SF φ)) = Integer c →
  messagesToRemove φ n = Integer (Z.min (roundUpEven c) n).
Proof.
  intros Hc. unfold messagesToRemove. rewrite Hc. simpl.
  rewrite <- (roundUpEven_rem c). by destruct (negb _).
Qed.

Lemma messagesToRemove_Infinity φ n :
  Math.ceil (SF64mul (Number.ofInteger n) (Prim2SF φ)) = Infinity false →
  messagesToRemove φ n = Integer n.
Proof. intros Hc. unfold messagesToRemove. by rewrite Hc. Qed.

Lemma ceil_finite_pos m e : ∃ c, Math.ceil (S754_finite false m e) = Integer c ∧ (1 ≤ c)%Z.
Proof.
  simpl. eexists. split; [done|]. destruct e as [|k|k].
  - lia.
  - assert (0 < 2 ^ Z.pos k)%Z by (apply Z.pow_pos_nonneg; lia). nia.
  - assert (0 < 2 ^ Z.pos k)%Z by (apply Z.pow_pos_nonneg; lia).
    assert (- Z.pos m / 2 ^ Z.pos k < 0)%Z; [|lia].
    apply Z.div_lt_upper_bound; lia.
Qed.

Lemma Prim2SF_zero : Prim2SF 0 = S754_zero false.
Proof. reflexivity. Qed.

Lemma Prim2SF_one : Prim2SF 1 = S754_finite false 4503599627370496 (-52).
Proof. reflexivity. Qed.

Lemma leb_zero φ :
  (0 <=? φ)%float = true →
  (∃ s, Prim2SF φ = S754_zero s) ∨ Prim2SF φ = S754_infinity false
  ∨ ∃ m e, Prim2SF φ = S754_finite false m e.
Proof.
  rewrite leb_spec, Prim2SF_zero. destruct (Prim2SF φ) as [s|[]| |[] m e]; try done; eauto.
Qed.

Lemma ltb_zero φ :
  (0 <? φ)%float = true →
  Prim2SF φ = S754_infinity false ∨ ∃ m e, Prim2SF φ = S754_finite false m e.
Proof.
  rewrite ltb_spec, Prim2SF_zero. destruct (Prim2SF φ) as [s|[]| |[] m e]; try done; eauto.
Qed.

Lemma leb_one φ :
  (1 <=? φ)%float = true →
  Prim2SF φ = S754_infinity false
  ∨ ∃ m e, Prim2SF φ = S754_finite false m e ∧ (2 ^ 52 ≤ Z.pos m)%Z ∧ (-52 ≤ e)%Z.
Proof.
  rewrite leb_spec, Prim2SF_one. pose proof (Prim2SF_valid φ) as Hv.
  destruct (Prim2SF φ) as [s|[]| |[] m e]; try done; eauto.
  intros Hle. right. exists m, e. split; [done|].
  apply valid_finite in Hv as [Hc _]. rewrite fexp_eq in Hc.
  unfold SFleb, SFcompare in Hle.
  destruct (Z.compare_spec (-52) e) as [<-|Hlt|Hgt]; try done.
  - split; [|lia].
    change (Pos.compare_cont Eq 4503599627370496 m)
      with (Pos.compare 4503599627370496 m) in Hle.
    destruct (Pos.compare_spec 4503599627370496 m) as [<-|Hm|Hm]; try done; lia.
  - split; [|lia]. assert (dig m = 53)%Z as Hd by lia.
    pose proof (dig_bounds m) as [Hl _]. rewrite Hd in Hl. exact Hl.
Qed.

(** The ceiling of the product, by the sign of the fraction. *)
Lemma ceil_product_positive (n : positive) φ :
  (0 <? φ)%float = true →
  Math.ceil (SF64mul (Number.ofInteger (Z.pos n)) (Prim2SF φ)) = Infinity false
  ∨ ∃ c, Math.ceil (SF64mul (Number.ofInteger (Z.pos n)) (Prim2SF φ)) = Integer c
         ∧ (1 ≤ c)%Z.
Proof.
  intros Hφ. pose proof (Prim2SF_valid φ) as Hv.
  destruct (ltb_zero φ Hφ) as [Hi|(m & e & Hf)].
  - left. by rewrite Hi.
  - rewrite Hf in *.
    destruct (SF64mul_ofInteger n false m e Hv) as [->|(m' & e' & -> & _)]; [by left|].
    right. apply ceil_finite_pos.
Qed.

Lemma ceil_product_nonneg (n : positive) φ :
  (0 <=? φ)%float = true →
  Math.ceil (SF64mul (Number.ofInteger (Z.pos n)) (Prim2SF φ)) = Infinity false
  ∨ ∃ c, Math.ceil (SF64mul (Number.ofInteger (Z.pos n)) (Prim2SF φ)) = Integer c
         ∧ (0 ≤ c)%Z.
Proof.
  intros Hφ. pose proof (Prim2SF_valid φ) as Hv.
  destruct (leb_zero φ Hφ) as [[s Hz]|[Hi|(m & e & Hf)]].
  - right. rewrite Hz. by exists 0%Z.
  - left. by rewrite Hi.
  - rewrite Hf in *.
    destruct (SF64mul_ofInteger n false m e Hv) as [->|(m' & e' & -> & _)]; [by left|].
    right. destruct (ceil_finite_pos m' e') as (c & ? & ?). exists c. split; [done|lia].
Qed.

Lemma messagesToRemove_range φ n :
  (0 <=? φ)%float = true → (0 < n)%Z →
  ∃ c, messagesToRemove φ n = Integer c ∧ (0 ≤ c ≤ n)%Z.
Proof.
  intros Hφ Hn. destruct n as [|n|n]; try lia.
  destruct (ceil_product_nonneg n φ Hφ) as [Hc|(c & Hc & Hpos)].
  - exists (Z.pos n). split; [by apply messagesToRemove_Infinity|lia].
  - exists (Z.min (roundUpEven c) (Z.pos n)).
    split; [by apply messagesToRemove_Integer|]. pose proof (roundUpEven_ge c). lia.
Qed.

Lemma messagesToRemove_positive φ n :
  (0 <? φ)%float = true → (0 < n)%Z →
  ∃ c, messagesToRemove φ n = Integer c ∧ (1 ≤ c ≤ n)%Z.
Proof.
  intros Hφ Hn. destruct n as [|n|n]; try lia.
  destruct (ceil_product_positive n φ Hφ) as [Hc|(c & Hc & Hpos)].
  - exists (Z.pos n). split; [by apply messagesToRemove_Infinity|lia].
  - exists (Z.min (roundUpEven c) (Z.pos n)).
    split; [by apply messagesToRemove_Integer|]. pose proof (roundUpEven_ge c). lia.
Qed.

Lemma ceil_product_all (n : positive) φ :
  (1 <=? φ)%float = true → (Z.pos n < 2 ^ 53)%Z →
  Math.ceil (SF64mul (Number.ofInteger (Z.pos n)) (Prim2SF φ)) = Infinity false
  ∨ ∃ c, Math.ceil (SF64mul (Number.ofInteger (Z.pos n)) (Prim2SF φ)) = Integer c
         ∧ (Z.pos n ≤ c)%Z.
Proof.
  intros Hφ Hn. pose proof (Prim2SF_valid φ) as Hv.
  destruct (leb_one φ Hφ) as [Hi|(m & e & Hf & Hm & He)].
  { left. by rewrite Hi. }
  rewrite Hf in *.
  destruct (SF64mul_ofInteger n false m e Hv) as [->|(m' & e' & -> & H1 & H2 & H3)];
    [by left|].
  right. simpl. eexists. split; [done|].
  rewrite fexp_eq in H3.
  assert (dig m' = 53)%Z as Hd by lia.
  pose proof (dig_bounds m') as [Hm' _]. rewrite Hd in Hm'. simpl in Hm'.
  assert (2 ^ (- e) ≤ Z.pos m)%Z as Hpow.
  { destruct (Z.le_gt_cases 0 (- e)).
    - assert (2 ^ (- e) ≤ 2 ^ 52)%Z by (apply Z.pow_le_mono_r; lia). lia.
    - rewrite Z.pow_neg_r by lia. lia. }
  assert (∀ k, (0 ≤ k)%Z → (k + (e' - e) = - e)%Z → (Z.pos n * 2 ^ k ≤ Z.pos m')%Z) as Hlow.
  { intros k Hk Hsum. etrans; [|exact H2].
    assert (0 < 2 ^ (e' - e))%Z by (apply Z.pow_pos_nonneg; lia).
    apply Z.div_le_lower_bound; [done|].
    rewrite Pos2Z.inj_mul.
    replace (2 ^ (e' - e) * (Z.pos n * 2 ^ k))%Z
      with (Z.pos n * (2 ^ k * 2 ^ (e' - e)))%Z by lia.
    rewrite <- Z.pow_add_r by lia. rewrite Hsum. nia. }
  destruct e' as [|k|k].
  - specialize (Hlow 0%Z). simpl in Hlow. lia.
  - assert (2 ^ 1 ≤ 2 ^ Z.pos k)%Z by (apply Z.pow_le_mono_r; lia). simpl in *. nia.
  - specialize (Hlow (Z.pos k) ltac:(lia) ltac:(lia)).
    assert (0 < 2 ^ Z.pos k)%Z by (apply Z.pow_pos_nonneg; lia).
    assert (- Z.pos m' / 2 ^ Z.pos k ≤ - Z.pos n)%Z; [|lia].
    apply Z.lt_succ_r. apply Z.div_lt_upper_bound; [done|]. nia.
Qed.

Lemma messagesToRemove_all φ n :
  (1 <=? φ)%float = true → (0 < n < 2 ^ 53)%Z →
  messagesToRemove φ n = Integer n.
Proof.
  intros Hφ Hn. destruct n as [|n|n]; try lia.
  destruct (ceil_product_all n φ Hφ) as [Hc|(c & Hc & Hpos)]; [lia|..].
  - by apply messagesToRemove_Infinity.
  - rewrite (messagesToRemove_Integer _ _ _ Hc). f_equal.
    pose proof (roundUpEven_ge c). lia.
Qed.

Lemma iter_pos_nat {A} (f : A → A) p x :
  SpecFloat.iter_pos f p x = Nat.iter (Pos.to_nat p) f x.
Proof.
  revert x. induction p as [p IH|p IH|]; intros x; simpl SpecFloat.iter_pos.
  - rewrite !IH. rewrite Pos2Nat.inj_xI.
    replace (S (2 * Pos.to_nat p)) with (Pos.to_nat p + (Pos.to_nat p + 1))%nat by lia.
    rewrite !Nat.iter_add. done.
  - rewrite !IH. rewrite Pos2Nat.inj_xO.
    replace (2 * Pos.to_nat p)%nat with (Pos.to_nat p + Pos.to_nat p)%nat by lia.
    by rewrite Nat.iter_add.
  - done.
Qed.

(** Shifting out the zeros a mantissa was padded with gives it back,
    exactly. *)
Lemma iter_shr_1_padded (j : nat) (M : positive) :
  Nat.iter j shr_1 (Build_shr_record (Z.pos (Nat.iter j xO M)) false false)
  = Build_shr_record (Z.pos M) false false.
Proof.
  induction j as [|j IH]; [done|].
  rewrite Nat.iter_succ_r. simpl. exact IH.
Qed.

Lemma dig_padded (j : nat) (M : positive) : dig (Nat.iter j xO M) = (dig M + Z.of_nat j)%Z.
Proof.
  induction j as [|j IH]; simpl; [lia|].
  unfold dig in *. simpl. lia.
Qed.

Lemma shr_nat mrs e k :
  shr mrs e k = (Nat.iter (Z.to_nat k) shr_1 mrs, Z.max e (e + k)).
Proof.
  unfold shr. destruct k as [|k|k]; simpl.
  - f_equal. lia.
  - rewrite iter_pos_nat. f_equal. lia.
  - f_equal. lia.
Qed.

Lemma shr_fexp_padded (j : nat) (M : positive) (E : Z) :
  (E ≤ fexp prec emax (dig M + E))%Z →
  shr_fexp prec emax (Z.pos (Nat.iter j xO M)) (E - Z.of_nat j) loc_Exact
  = shr_fexp prec emax (Z.pos M) E loc_Exact.
Proof.
  intros Hk. unfold shr_fexp. simpl Zdigits2. fold (dig M). fold (dig (Nat.iter j xO M)).
  rewrite dig_padded. rewrite !shr_nat.
  replace (dig M + Z.of_nat j + (E - Z.of_nat j))%Z with (dig M + E)%Z by lia.
  set (t := fexp prec emax (dig M + E)) in *.
  replace (Z.to_nat (t - (E - Z.of_nat j))) with (Z.to_nat (t - E) + j)%nat by lia.
  rewrite Nat.iter_add. simpl shr_record_of_loc. rewrite iter_shr_1_padded.
  f_equal. lia.
Qed.

Lemma binary_round_aux_padded s (j : nat) (M : positive) (E : Z) :
  (E ≤ fexp prec emax (dig M + E))%Z →
  binary_round_aux prec emax s (Z.pos (Nat.iter j xO M)) (E - Z.of_nat j) loc_Exact
  = binary_round_aux prec emax s (Z.pos M) E loc_Exact.
Proof. intros Hk. unfold binary_round_aux. by rewrite shr_fexp_padded. Qed.

(** A canonical mantissa is rounded to itself. *)
Lemma binary_round_aux_canonical s (M : positive) (E : Z) :
  E = fexp prec emax (dig M + E) → (E ≤ 971)%Z →
  binary_round_aux prec emax s (Z.pos M) E loc_Exact = S754_finite s M E.
Proof.
  intros Hc HE. unfold binary_round_aux, shr_fexp. simpl Zdigits2. fold (dig M).
  rewrite <- Hc, Z.sub_diag. simpl. fold (dig M). rewrite <- Hc, Z.sub_diag. simpl.
  destruct (Z.leb_spec E (emax - prec)) as [|Hgt]; [done|].
  change (emax - prec)%Z with 971%Z in Hgt. lia.
Qed.

Lemma pos_iter_nat {A} (f : A → A) x p : Pos.iter f x p = Nat.iter (Pos.to_nat p) f x.
Proof. apply Pos2Nat.inj_iter. Qed.

Lemma padded_mul (j : nat) (p m : positive) :
  (Nat.iter j xO p * m)%positive = Nat.iter j xO (p * m)%positive.
Proof.
  induction j as [|j IH]; [done|].
  rewrite !Nat.iter_succ. change (?a~0 * m)%positive with (a * m)~0%positive.
  by rewrite IH.
Qed.

(** The double of a positive integer below [2^53]: the integer, padded
    to 53 digits. *)
Lemma binary_normalize_small (p : positive) :
  (Z.pos p < 2 ^ 53)%Z →
  binary_normalize prec emax (Z.pos p) 0 false
  = S754_finite false (Nat.iter (Z.to_nat (53 - dig p)) xO p) (dig p - 53).
Proof.
  intros Hp. pose proof (dig_pos p) as Hd1.
  assert (dig p ≤ 53)%Z as Hd.
  { pose proof (dig_bounds p) as [Hl _].
    destruct (Z.le_gt_cases (dig p) 53); [done|].
    assert (2 ^ 53 ≤ 2 ^ (dig p - 1))%Z by (apply Z.pow_le_mono_r; lia). lia. }
  unfold binary_normalize, binary_round. fold (dig p). rewrite fexp_eq.
  replace (Z.max (dig p + 0 - 53) (-1074)) with (dig p - 53)%Z by lia.
  unfold shl_align.
  destruct (dig p - 53 - 0)%Z as [|d|d] eqn:Hsub; try lia.
  - replace (53 - dig p)%Z with 0%Z by lia. simpl Z.to_nat. simpl Nat.iter.
    replace (dig p - 53)%Z with 0%Z by lia.
    apply binary_round_aux_canonical; [rewrite fexp_eq|]; lia.
  - rewrite pos_iter_nat. replace (Z.to_nat (53 - dig p)) with (Pos.to_nat d) by lia.
    apply binary_round_aux_canonical; [|lia].
    rewrite dig_padded, fexp_eq. lia.
Qed.

(** The product the truncator rounds is the product of the primitive
    doubles, the number of messages being below [2^53]. *)
Lemma product_primitive (n : Z) (φ : float) :
  (0 < n < 2 ^ 53)%Z →
  SF64mul (Number.ofInteger n) (Prim2SF φ)
  = Prim2SF (PrimFloat.of_uint63 (Uint63.of_Z n) * φ)%float.
Proof.
  intros Hn. rewrite mul_spec, of_uint63_spec.
  rewrite Uint63.of_Z_spec.
  rewrite Z.mod_small by (change Uint63.wB with (2 ^ 63)%Z; lia).
  destruct n as [|p|p]; try lia.
  rewrite binary_normalize_small by lia.
  pose proof (Prim2SF_valid φ) as Hv.
  destruct (Prim2SF φ) as [s|s| |s m e]; try done.
  apply valid_finite in Hv as [Hc _].
  simpl. rewrite padded_mul.
  assert (dig m ≤ dig (p * m))%Z as Hd by (apply dig_mono; nia).
  pose proof (dig_bounds p) as [_ Hh]. pose proof (dig_pos p).
  assert (dig p ≤ 53)%Z as Hd53.
  { pose proof (dig_bounds p) as [Hl _].
    destruct (Z.le_gt_cases (dig p) 53); [done|].
    assert (2 ^ 53 ≤ 2 ^ (dig p - 1))%Z by (apply Z.pow_le_mono_r; lia). lia. }
  replace (dig p - 53 + e)%Z with (e - Z.of_nat (Z.to_nat (53 - dig p)))%Z by lia.
  symmetry. apply binary_round_aux_padded. rewrite fexp_eq in *. lia.
Qed.

End Doubles.

(** ** The truncator *)

Section Truncator.
Context `{Collaborators}.

Lemma roundUpEven_even c : Z.even (roundUpEven c) = true.
Proof.
  unfold roundUpEven. destruct (Z.even c) eqn:He; [done|].
  rewrite Z.even_add, He. done.
Qed.

(** With a fraction that is not negative the count is an integer
    between 0 and the number of messages considered. *)
Lemma evicted_spec φ n :
  (0 <=? φ)%float = true → (0 < n)%Z →
  messagesToRemove φ n = Integer (Z.of_nat (evicted φ n)) ∧ (Z.of_nat (evicted φ n) ≤ n)%Z.
Proof.
  intros Hφ Hn. destruct (messagesToRemove_range φ n Hφ Hn) as (c & Hc & Hrange).
  unfold evicted. rewrite Hc. split; [f_equal|]; lia.
Qed.

Lemma not_Qle_bool x y : negb (Qle_bool x y) = true ↔ (y < x)%Q.
Proof.
  rewrite negb_true_iff. split.
  - intros Hb. apply Qnot_le_lt. intros Hle. apply Qle_bool_iff in Hle. congruence.
  - intros Hlt. destruct (Qle_bool x y) eqn:Hb; [|done].
    apply Qle_bool_iff in Hb. by apply Qlt_not_le in Hlt.
Qed.

Lemma applyTruncation_within_limit φ H0 (L : PersistedContextHistory) maxTokens P now :
  (inject_Z P <= maxTokens)%Q →
  applyTruncation φ H0 L maxTokens P now = mkTruncation H0 L false.
Proof.
  intros Hle. unfold applyTruncation. apply Qle_bool_iff in Hle. by rewrite Hle.
Qed.

(** Nothing to evict after the preserved pair: the inputs come back,
    flagged as truncated. *)
Lemma applyTruncation_short φ H0 (L : PersistedContextHistory) maxTokens P now :
  (maxTokens < inject_Z P)%Q → (length H0 ≤ 2)%nat →
  applyTruncation φ H0 L maxTokens P now = mkTruncation H0 L true.
Proof.
  intros HP Hlen. unfold applyTruncation.
  apply not_Qle_bool in HP. rewrite HP.
  by rewrite decide_False by lia.
Qed.

(** The shape of the result once truncation is triggered on a history
    longer than the preserved pair. *)
Lemma applyTruncation_triggered φ H0 L maxTokens P now :
  (maxTokens < inject_Z P)%Q → (2 < length H0)%nat →
  let remove := messagesToRemove φ (Z.of_nat (length H0) - 2) in
  let endIndexToRemove := Number.sub (Number.add (Integer 2) remove) (Integer 1) in
  let truncated := take 2 H0 ++ slice (Number.add endIndexToRemove (Integer 1)) H0 in
  applyTruncation φ H0 L maxTokens P now
  = mkTruncation truncated
      (adjustIndices remove (addTruncationNotice H0 truncated L now)) true.
Proof.
  intros HP Hlen. unfold applyTruncation.
  apply not_Qle_bool in HP. rewrite HP.
  rewrite decide_True by lia. done.
Qed.

Lemma sliceFrom_nonneg {A} (k : Z) (l : list A) :
  (0 ≤ k)%Z → Js.sliceFrom k l = drop (Z.to_nat k) l.
Proof.
  intros Hk. unfold Js.sliceFrom.
  destruct (Z.ltb_spec k 0); [lia|done].
Qed.

(** The same, for a count that is a natural number. *)
Lemma applyTruncation_evicting φ H0 L maxTokens P now (count : nat) :
  (maxTokens < inject_Z P)%Q → (2 < length H0)%nat →
  messagesToRemove φ (Z.of_nat (length H0) - 2) = Integer (Z.of_nat count) →
  let truncated := take 2 H0 ++ drop (2 + count) H0 in
  applyTruncation φ H0 L maxTokens P now
  = mkTruncation truncated
      (adjustIndices (Integer (Z.of_nat count)) (addTruncationNotice H0 truncated L now))
      true.
Proof.
  intros HP Hlen Hcount. rewrite applyTruncation_triggered by done.
  rewrite Hcount. cbn [Number.add Number.sub Number.opp slice].
  replace (2 + Z.of_nat count + - (1) + 1)%Z with (Z.of_nat (2 + count)) by lia.
  rewrite sliceFrom_nonneg by lia. by rewrite Nat2Z.id.
Qed.

(** The prepared history after a triggered truncation: the first pair,
    then what follows the evicted range. *)
Lemma truncatedHistory_triggered φ H0 (L : PersistedContextHistory) maxTokens P now :
  (0 <=? φ)%float = true → (maxTokens < inject_Z P)%Q → (2 < length H0)%nat →
  truncatedHistory (applyTruncation φ H0 L maxTokens P now)
  = take 2 H0 ++ drop (2 + evicted φ (Z.of_nat (length H0) - 2)) H0.
Proof.
  intros Hφ HP Hlen.
  destruct (evicted_spec φ (Z.of_nat (length H0) - 2) Hφ) as [Hcount _]; [lia|].
  by rewrite (applyTruncation_evicting _ _ _ _ _ _ _ HP Hlen Hcount).
Qed.

(** A fraction above zero evicts at least one message. *)
Lemma evicted_positive φ n :
  (0 <? φ)%float = true → (0 < n)%Z → (1 ≤ evicted φ n)%nat.
Proof.
  intros Hφ Hn. destruct (messagesToRemove_positive φ n Hφ Hn) as (c & Hc & Hrange).
  unfold evicted. rewrite Hc. lia.
Qed.

Lemma even_of_nat (n : nat) : Z.even (Z.of_nat n) = Nat.even n.
Proof.
  induction n as [|n IH]; [done|].
  rewrite Nat2Z.inj_succ, Z.even_succ, Nat.even_succ.
  rewrite <- Z.negb_even, <- Nat.negb_even. by rewrite IH.
Qed.

(** The count is even unless the clip to the number of messages
    considered applies. *)
Lemma evicted_parity φ n :
  (0 <=? φ)%float = true → (0 < n)%Z →
  Nat.even (evicted φ n) = true ∨ Z.of_nat (evicted φ n) = n.
Proof.
  intros Hφ Hn. destruct n as [|n|n]; try lia. unfold evicted.
  destruct (ceil_product_nonneg n φ Hφ) as [Hc|(c & Hc & Hpos)].
  - right. rewrite (messagesToRemove_Infinity _ _ Hc). lia.
  - rewrite (messagesToRemove_Integer _ _ _ Hc).
    pose proof (roundUpEven_ge c) as Hge. pose proof (roundUpEven_even c) as He.
    destruct (Z.le_gt_cases (roundUpEven c) (Z.pos n)) as [Hle|Hgt].
    + left. rewrite Z.min_l by done.
      rewrite <- (Z2Nat.id (roundUpEven c)) in He by lia.
      by rewrite even_of_nat in He.
    + right. rewrite Z.min_r by lia. lia.
Qed.

Lemma ltb_leb_zero φ : (0 <? φ)%float = true → (0 <=? φ)%float = true.
Proof.
  rewrite ltb_spec, leb_spec, Prim2SF_zero.
  by destruct (Prim2SF φ) as [s|[]| |[] m e].
Qed.

(** *** Index rewrite *)

Lemma adjustIndex_insertStep r acc kv :
  adjustIndex r acc kv = insertStep (λ j e, (λ k, (k, e)) <$> rekey r j) acc kv.
Proof.
  destruct kv as [j e]. unfold adjustIndex, insertStep, rekey. simpl.
  destruct (decide _); [done|].
  destruct r as [|[]|c]; simpl; try done.
  destruct (Z.ltb_spec (2 + c + - (1)) (Z.of_nat j)); case_decide; try lia; done.
Qed.

Lemma adjustIndices_lookup r (M : PersistedContextHistory) k e :
  adjustIndices r M !! k = Some e ↔ ∃ j, M !! j = Some e ∧ rekey r j = Some k.
Proof.
  unfold adjustIndices.
  rewrite (foldl_step_ext _ _ _ _ (adjustIndex_insertStep r)).
  rewrite foldl_insertStep_for_in.
  - split.
    + intros (j & v & Hj & HF). exists j. destruct (rekey r j); simplify_eq/=. done.
    + intros (j & Hj & Hk). exists j, e. by rewrite Hk.
  - intros i j v w k' c d Hi Hj.
    destruct (rekey r i) as [ki|] eqn:Hki; simplify_eq/=.
    destruct (rekey r j) as [kj|] eqn:Hkj; simplify_eq/=.
    unfold rekey in *. destruct r; repeat case_decide; simplify_eq; lia.
Qed.

Lemma rekey_nonneg (r j k : nat) :
  rekey (Integer (Z.of_nat r)) j = Some k
  ↔ (j < 2 ∧ k = j)%nat ∨ (2 + r ≤ j ∧ k = j - r)%nat.
Proof.
  unfold rekey. repeat case_decide; split.
  all: try (intros [= <-]; first [left; lia | right; lia]).
  all: try (intros [[? ->]|[? ->]]; first [lia | done | f_equal; lia]).
  all: try done.
Qed.

Lemma addTruncationNotice_lookup_ne H0 T (L : PersistedContextHistory) now j :
  j ≠ 1%nat → addTruncationNotice H0 T L now !! j = L !! j.
Proof.
  intros Hj. unfold addTruncationNotice. case_decide; [|done].
  destruct (L !! 1%nat) as [e|].
  - by rewrite lookup_insert_ne.
  - destruct (H0 !! 1%nat) as [m|]; [|done].
    case_decide; [|done]. by rewrite lookup_insert_ne.
Qed.

Lemma addTruncationNotice_keeps H0 T (L : PersistedContextHistory) now j :
  is_Some (L !! j) → is_Some (addTruncationNotice H0 T L now !! j).
Proof.
  intros Hj. destruct (decide (j = 1%nat)) as [->|Hne].
  - unfold addTruncationNotice. case_decide; [|done].
    destruct Hj as [e ->]. rewrite lookup_insert_eq. by eexists.
  - by rewrite addTruncationNotice_lookup_ne.
Qed.

(** C3. Index shift: after a truncation that evicts the range
    [[2, 2 + remove)], every entry that entered at an index
    [j >= 2 + remove] is found, unchanged, under key [j - remove]; an
    entry that entered at [j < 2] still has an entry under key [j] (the
    one at 0 unchanged, the one at 1 as the notice step left it); and
    every entry of the rewritten log under a key [k >= 2] is the entry
    that entered at [k + remove]: no entry of the rewritten log comes
    from an index of the evicted range. [remove] is the count the source
    computes in doubles, for a fraction that is not negative. *)
Theorem index_shift (φ : float) (H0 : list MessageParam) (L : PersistedContextHistory)
    (maxTokens : Q) (P now : Z) :
  (0 <=? φ)%float = true → (maxTokens < inject_Z P)%Q → (2 < length H0)%nat →
  let remove := evicted φ (Z.of_nat (length H0) - 2) in
  let r := applyTruncation φ H0 L maxTokens P now in
  let L' := updatedModifications r in
  messagesToRemove φ (Z.of_nat (length H0) - 2) = Integer (Z.of_nat remove)
  ∧ truncatedHistory r = take 2 H0 ++ drop (2 + remove) H0
  ∧ (∀ j e, (2 + remove ≤ j)%nat → L !! j = Some e → L' !! (j - remove)%nat = Some e)
  ∧ (∀ j, (j < 2)%nat → is_Some (L !! j) → is_Some (L' !! j))
  ∧ L' !! 0%nat = L !! 0%nat
  ∧ L' !! 1%nat = addTruncationNotice H0 (truncatedHistory r) L now !! 1%nat
  ∧ (∀ k e, L' !! k = Some e →
       (k < 2)%nat ∨ L !! (k + remove)%nat = Some e).
Proof.
  intros Hφ HP Hlen remove r L'.
  destruct (evicted_spec φ (Z.of_nat (length H0) - 2) Hφ) as [Hrem Hrange]; [lia|].
  fold remove in Hrem, Hrange.
  split; [done|]. split; [by apply truncatedHistory_triggered|].
  subst L' r. rewrite (applyTruncation_evicting _ _ _ _ _ _ _ HP Hlen Hrem). simpl.
  set (T := take 2 H0 ++ _). set (M := addTruncationNotice H0 T L now).
  assert (Hlow : ∀ k, (k < 2)%nat →
                      adjustIndices (Integer (Z.of_nat remove)) M !! k = M !! k).
  { intros k Hk. apply option_eq. intros e. rewrite adjustIndices_lookup. split.
    - intros (j & Hj & Hkey). apply rekey_nonneg in Hkey as [[_ ->]|[? ->]]; [done|lia].
    - intros Hj. exists k. split; [done|]. apply rekey_nonneg. left. done. }
  split; [|split; [|split; [|split]]].
  - intros j e Hj He. apply adjustIndices_lookup. exists j. split.
    + subst M. rewrite addTruncationNotice_lookup_ne by lia. done.
    + apply rekey_nonneg. right. done.
  - intros j Hj Hsome. rewrite Hlow by done. by apply addTruncationNotice_keeps.
  - rewrite Hlow by lia. by apply addTruncationNotice_lookup_ne.
  - by rewrite Hlow by lia.
  - intros k e Hk. apply adjustIndices_lookup in Hk as (j & Hj & Hkey).
    apply rekey_nonneg in Hkey as [[? ->]|[? ->]]; [by left|]. right.
    subst M. rewrite addTruncationNotice_lookup_ne in Hj by lia.
    by replace (j - remove + remove)%nat with j by lia.
Qed.

(** C2 (defect). Eviction parity is broken on a history of three
    messages: whenever truncation is triggered on it, with any fraction
    above zero, exactly one message is evicted, an odd number, and the
    user message that opened the second pair is gone while the first
    pair stays. The count is made even before it is clipped to the
    number of messages after the first pair, and that number is 1. *)
Theorem eviction_parity_broken (φ : float) (H0 : list MessageParam)
    (L : PersistedContextHistory) (maxTokens : Q) (P now : Z) :
  (0 <? φ)%float = true → (maxTokens < inject_Z P)%Q → length H0 = 3%nat →
  let r := applyTruncation φ H0 L maxTokens P now in
  wasTruncated r = true
  ∧ messagesToRemove φ (Z.of_nat (length H0) - 2) = Integer 1
  ∧ truncatedHistory r = take 2 H0
  ∧ (length H0 - length (truncatedHistory r) = 1)%nat
  ∧ Nat.even (length H0 - length (truncatedHistory r)) = false.
Proof.
  intros Hφ HP Hlen r.
  destruct (messagesToRemove_positive φ (Z.of_nat (length H0) - 2) Hφ)
    as (c & Hc & Hrange); [lia|].
  assert (c = 1%Z) as -> by lia.
  assert (Hr : r = mkTruncation (take 2 H0 ++ drop (2 + 1) H0)
                 (adjustIndices (Integer (Z.of_nat 1))
                    (addTruncationNotice H0 (take 2 H0 ++ drop (2 + 1) H0) L now)) true).
  { subst r. apply applyTruncation_evicting; [done|lia|done]. }
  assert (Ht : truncatedHistory r = take 2 H0).
  { rewrite Hr. simpl truncatedHistory. rewrite drop_ge by lia. by rewrite app_nil_r. }
  split; [by rewrite Hr|]. split; [done|]. split; [done|].
  rewrite Ht, length_take, Hlen. done.
Qed.

End Truncator.


(** *** Truncation scenarios *)



Lemma eviction_parity_broken_witness :
  let H3 := [textMessage user "u"; textMessage assistant "a"; textMessage user "v"] in
  let r := applyTruncation 0.5 H3 ∅ 13 21 0 in
  truncatedHistory r = [textMessage user "u"; textMessage assistant "a"]
  ∧ Nat.even (length H3 - length (truncatedHistory r)) = false.
Proof.
  intros H3 r.
  destruct (eviction_parity_broken 0.5 H3 ∅ 13 21 0) as (_ & _ & Ht & _ & Hodd).
  - reflexivity.
  - unfold Qlt. simpl. lia.
  - reflexivity.
  - split; [exact Ht|exact Hodd].
Defined.

Lemma index_shift_witness :
  let e9 := mkEntry assistant {[0%nat := [replaceEdit 1 "Modified last response"]]} in
  updatedModifications
    (applyTruncation 0.5 (alternating 5) {[9%nat := e9]} 13 21 0) !! 5%nat
  = Some e9.
Proof.
  intros e9.
  refine (proj1 (proj2 (proj2
            (index_shift 0.5 (alternating 5) {[9%nat := e9]} 13 21 0 _ _ _)))
            9%nat e9 _ _).
  - reflexivity.
  - unfold Qlt. simpl. lia.
  - simpl. lia.
  - vm_compute. lia.
  - done.
Defined.

(** The count is the one of the doubles: with the double nearest to
    0.28 and fifty messages after the first pair the product is just
    above 14, so 16 messages go; with the double nearest to 0.1 and
    twenty messages the product is 2 exactly. A fraction that is NaN
    gives NaN, a negative one a negative count. *)
Example count_in_doubles :
  messagesToRemove 0x1.1eb851eb851ecp-2 50 = Integer 16
  ∧ messagesToRemove 0x1.999999999999ap-4 20 = Integer 2
  ∧ messagesToRemove 0.5 8 = Integer 4
  ∧ messagesToRemove 0.75 3 = Integer 3
  ∧ messagesToRemove infinity 8 = Integer 8
  ∧ messagesToRemove (-0.5) 5 = Integer (-2)
  ∧ messagesToRemove nan 8 = NaN
  ∧ messagesToRemove neg_infinity 8 = Infinity true.
Proof. vm_compute. repeat split. Qed.

(** Outside the fractions the truncator is meant for. With NaN the
    count is NaN: [slice(NaN)] is the whole history, which follows the
    first pair a second time, and no index is above NaN, so every entry
    from index 2 on is dropped. With -0.75 and four messages after the
    first pair the count is -2: the whole history follows the first
    pair again and the entries from index 2 on move up by 2. *)
Example truncation_outside_fractions :
  let e3 := mkEntry assistant {[0%nat := [replaceEdit 1 "three"]]} in
  let rNaN := applyTruncation nan (alternating 2) {[3%nat := e3]} 13 21 0 in
  let rNeg := applyTruncation (-0.75) (alternating 3) {[3%nat := e3]} 13 21 0 in
  truncatedHistory rNaN = take 2 (alternating 2) ++ alternating 2
  ∧ updatedModifications rNaN !! 3%nat = None
  ∧ messagesToRemove (-0.75) 4 = Integer (-2)
  ∧ truncatedHistory rNeg = take 2 (alternating 3) ++ alternating 3
  ∧ updatedModifications rNeg !! 3%nat = None
  ∧ updatedModifications rNeg !! 5%nat = Some e3.
Proof. vm_compute. repeat split. Qed.

(** The same in the index rewrite: of fifty-two messages, with the
    double nearest to 0.28, the range [[2, 18)] is evicted, so the entry
    that entered at 16 is dropped and the one that entered at 18 is
    found under key 2. *)
Example index_shift_in_doubles :
  let e16 := mkEntry user {[0%nat := [replaceEdit 1 "sixteen"]]} in
  let e18 := mkEntry user {[0%nat := [replaceEdit 1 "eighteen"]]} in
  let r :=
    applyTruncation 0x1.1eb851eb851ecp-2 (alternating 26)
      {[16%nat := e16; 18%nat := e18]} 13 21 0 in
  length (truncatedHistory r) = 36%nat
  ∧ updatedModifications r !! 2%nat = Some e18
  ∧ Js.for_in (updatedModifications r)
    = [(1%nat, mkEntry assistant {[0%nat := [mkUpdate 0 add_truncation_notice None None]]});
       (2%nat, e18)].
Proof. vm_compute. repeat split. Qed.

(** ** The budget oracle *)

Section Oracle.

Lemma mathMax_Qmax a b : (mathMax a b == Qmax a b)%Q.
Proof.
  unfold mathMax. destruct (Qle_bool a b) eqn:Hab.
  - apply Qle_bool_iff in Hab. symmetry. by apply Q.max_r.
  - symmetry. apply Q.max_l. apply Qlt_le_weak, Qnot_le_lt.
    intros Hle. apply Qle_bool_iff in Hle. congruence.
Qed.

Lemma Qeq_bool_false x y : ¬ (x == y)%Q → Qeq_bool x y = false.
Proof.
  intros Hne. destruct (Qeq_bool x y) eqn:Hb; [|done].
  by apply Qeq_bool_iff in Hb.
Qed.

(** C6. Budget oracle policy: an absent or zero [contextWindow] gives
    window 128 000 and the 128 000 rule; 64 000 gives 64 000 - 27 000;
    128 000 gives 128 000 - 30 000; 200 000 gives 200 000 - 40 000; any
    other window [W] gives [W - max(0.20 W, 40 000)] clamped to
    [max(result, W / 2, 1 000)]. *)
Theorem budget_oracle_policy (modelInfo : option ModelInfo.t) :
  let declared := modelInfo ≫= ModelInfo.contextWindow in
  let info := getContextWindowInfo modelInfo in
  let W := contextWindow info in
  (declared = None ∨ (∃ w, declared = Some w ∧ (w == 0)%Q) →
     W = 128000%Q ∧ (maxAllowedSize info == 128000 - 30000)%Q)
  ∧ (∀ w, declared = Some w → ¬ (w == 0)%Q → W = w)
  ∧ ((W == 64000)%Q → (maxAllowedSize info == 64000 - 27000)%Q)
  ∧ ((W == 128000)%Q → (maxAllowedSize info == 128000 - 30000)%Q)
  ∧ ((W == 200000)%Q → (maxAllowedSize info == 200000 - 40000)%Q)
  ∧ (¬ (W == 64000)%Q → ¬ (W == 128000)%Q → ¬ (W == 200000)%Q →
     (maxAllowedSize info
      == Qmax (Qmax (W - Qmax ((20 # 100) * W) 40000) (W / 2)) 1000)%Q).
Proof.
  intros declared info W.
  assert (HW : W = orDefault declared DEFAULT_CONTEXT_WINDOW) by done.
  assert (Hmax : maxAllowedSize info =
    (if Qeq_bool W 64000 then W - 27000
     else if Qeq_bool W 128000 then W - DEFAULT_BUFFER
     else if Qeq_bool W 200000 then W - 40000
     else mathMax (mathMax (W - mathMax (W * (2 # 10)) 40000) (W / 2)) 1000)%Q) by done.
  clearbody W info declared. rewrite Hmax. clear Hmax.
  split; [|split; [|split; [|split; [|split]]]].
  - intros Hdecl. assert (W = 128000%Q) as ->.
    { rewrite HW. destruct Hdecl as [->|(w & -> & Hw)]; [done|].
      unfold orDefault. apply Qeq_bool_iff in Hw. by rewrite Hw. }
    done.
  - intros w -> Hw. rewrite HW. unfold orDefault. by rewrite Qeq_bool_false.
  - intros H64. rewrite (Qeq_eq_bool _ _ H64). by rewrite H64.
  - intros H128. rewrite (Qeq_bool_false W 64000) by (rewrite H128; done).
    rewrite (Qeq_eq_bool _ _ H128). by rewrite H128.
  - intros H200. rewrite (Qeq_bool_false W 64000) by (rewrite H200; done).
    rewrite (Qeq_bool_false W 128000) by (rewrite H200; done).
    rewrite (Qeq_eq_bool _ _ H200). by rewrite H200.
  - intros H64 H128 H200. rewrite !Qeq_bool_false by done.
    rewrite !mathMax_Qmax.
    assert ((W * (2 # 10)) == ((20 # 100) * W))%Q as Hp by (unfold Qeq; simpl; lia).
    by rewrite Hp.
Qed.

End Oracle.

Lemma budget_oracle_policy_witness :
  contextWindow (getContextWindowInfo None) = 128000%Q
  ∧ (maxAllowedSize (getContextWindowInfo None) == 128000 - 30000)%Q.
Proof.
  apply (proj1 (budget_oracle_policy None)). by left.
Defined.

(** ** Budget underflow *)

Section Underflow.
Context `{Collaborators}.

(** C8. Budget underflow: when [maxAllowedSize - reservedResponseTokens
    - tokenBuffer] is not positive, [processHistoryForApi] returns the raw
    history, the live log, the token estimate of the raw history and
    [wasTruncated = false], and leaves the manager as it was: the log is
    not replaced and nothing is persisted. *)
Theorem budget_underflow_noop (st : ContextManager) (raw : list MessageParam)
    (P nowOptimize nowTruncate : Z) :
  (maxAllowedSize (getContextWindowInfo (currentModelInfo st))
   - inject_Z (reservedResponseTokens st) - inject_Z (tokenBuffer st) <= 0)%Q →
  processHistoryForApi st raw P nowOptimize nowTruncate
  = (mkResult raw (contextHistoryUpdates st) (calculateTokens raw) false, st).
Proof.
  intros Hb. unfold processHistoryForApi.
  apply Qle_bool_iff in Hb. fold (maxTokensForContext st) in Hb. by rewrite Hb.
Qed.

End Underflow.

Lemma budget_underflow_noop_witness :
  let st := mkManager ∅ None 0.5%float 97500 500 [] in
  processHistoryForApi st (alternating 5) 200000 1 2
  = (mkResult (alternating 5) ∅ (calculateTokens (alternating 5)) false, st).
Proof.
  intros st. apply (budget_underflow_noop st (alternating 5) 200000 1 2).
  unfold Qle. simpl. lia.
Defined.

(** ** Rollback *)

Section Rollback.

Lemma foldl_keepBlock_fst t l acc :
  (foldl (keepBlock t) acc l).1 = foldl (insertStep (keepBlockF t)) acc.1 l.
Proof.
  revert acc. induction l as [|[b ups] l IH]; intros [newBlocks added]; simpl; [done|].
  rewrite IH. f_equal. unfold keepBlock, insertStep, keepBlockF. simpl.
  by case_decide.
Qed.

(** [blockAdded] is set exactly when [newBlocks] holds a block. *)
Lemma foldl_keepBlock_flag t l :
  let r := foldl (keepBlock t) (∅, false) l in r.2 = true ↔ r.1 ≠ ∅.
Proof.
  apply (foldl_invariant (λ acc : gmap nat (list ContextUpdate) * bool,
                            acc.2 = true ↔ acc.1 ≠ ∅)).
  - simpl. split; [done|]. intros Hne. by destruct Hne.
  - intros [newBlocks added] [b ups] _ Hacc. unfold keepBlock. case_decide; [|done].
    simpl. split; [|done]. intros _. apply insert_non_empty.
Qed.

Lemma keptBlocks_lookup t e b ups' :
  keptBlocks t e !! b = Some ups'
  ↔ ∃ ups, blocks e !! b = Some ups
           ∧ ups' = filter (λ u, (timestamp u ≤ t)%Z) ups ∧ ups' ≠ [].
Proof.
  unfold keptBlocks. rewrite foldl_keepBlock_fst. simpl.
  rewrite foldl_insertStep_for_in.
  - split.
    + intros (j & ups & Hj & HF). unfold keepBlockF in HF.
      case_decide as Hlen; simplify_eq. exists ups. repeat split; [done|].
      intros Hnil. rewrite Hnil in Hlen. simpl in Hlen. lia.
    + intros (ups & Hb & -> & Hne). exists b, ups. split; [done|].
      unfold keepBlockF. rewrite decide_True; [done|].
      destruct (filter _ ups); [done|simpl; lia].
  - intros i j v w k c d Hi Hj. unfold keepBlockF in *.
    repeat case_decide; simplify_eq. done.
Qed.

Lemma keepEntry_insertStep t acc kv :
  keepEntry t acc kv = insertStep (keepEntryF t) acc kv.
Proof.
  destruct kv as [i e]. unfold keepEntry, insertStep, keepEntryF, keptBlocks. simpl.
  pose proof (foldl_keepBlock_flag t (Js.for_in (blocks e))) as Hflag. simpl in Hflag.
  destruct (foldl (keepBlock t) (∅, false) (Js.for_in (blocks e)))
    as [newBlocks added]. simpl in *.
  destruct added.
  - rewrite bool_decide_eq_false_2; [done|]. by apply Hflag.
  - rewrite bool_decide_eq_true_2; [done|].
    destruct (decide (newBlocks = ∅)) as [|Hne]; [done|].
    apply Hflag in Hne. done.
Qed.

Lemma rolledBack_lookup t (L : PersistedContextHistory) i e' :
  rolledBack t L !! i = Some e'
  ↔ ∃ e, L !! i = Some e ∧ keptBlocks t e ≠ ∅
         ∧ e' = mkEntry (editType e) (keptBlocks t e).
Proof.
  unfold rolledBack.
  rewrite (foldl_step_ext _ _ _ _ (keepEntry_insertStep t)).
  rewrite foldl_insertStep_for_in.
  - split.
    + intros (j & e & Hj & HF). unfold keepEntryF in HF.
      destruct (bool_decide _) eqn:Hd; simplify_eq/=.
      apply bool_decide_eq_false in Hd. by exists e.
    + intros (e & Hi & Hne & ->). exists i, e. split; [done|].
      unfold keepEntryF. by rewrite bool_decide_eq_false_2.
  - intros i' j v w k c d Hi Hj. unfold keepEntryF in *.
    destruct (negb _); destruct (negb _); simplify_eq. done.
Qed.

Lemma truncateHistoryUpdatesAtTimestamp_log st t :
  contextHistoryUpdates (truncateHistoryUpdatesAtTimestamp st t)
  = rolledBack t (contextHistoryUpdates st).
Proof.
  unfold truncateHistoryUpdatesAtTimestamp. fold (rolledBack t (contextHistoryUpdates st)).
  by case_decide.
Qed.

Lemma filter_default_nil t (e : MessageUpdates) b :
  keptBlocks t e !! b = None →
  filter (λ u, (timestamp u ≤ t)%Z) (default [] (blocks e !! b)) = [].
Proof.
  intros Hnone. destruct (blocks e !! b) as [ups|] eqn:Hb; [|done]. simpl.
  destruct (filter (λ u, (timestamp u ≤ t)%Z) ups) as [|u l] eqn:Hf; [done|].
  assert (keptBlocks t e !! b = Some (u :: l)) as Hk; [|congruence].
  apply keptBlocks_lookup. exists ups. by rewrite Hf.
Qed.

Lemma rolledBack_editsAt t (L : PersistedContextHistory) i b :
  editsAt (rolledBack t L) i b = filter (λ u, (timestamp u ≤ t)%Z) (editsAt L i b).
Proof.
  unfold editsAt. destruct (L !! i) as [e|] eqn:Hi.
  - destruct (rolledBack t L !! i) as [e'|] eqn:Hi'.
    + apply rolledBack_lookup in Hi' as (e0 & He0 & Hne & ->). simplify_eq. simpl.
      destruct (keptBlocks t e !! b) as [ups'|] eqn:Hb.
      * apply keptBlocks_lookup in Hb as (ups & -> & -> & _). done.
      * symmetry. by apply filter_default_nil.
    + symmetry. apply filter_default_nil.
      destruct (keptBlocks t e !! b) as [ups'|] eqn:Hb; [|done].
      assert (is_Some (rolledBack t L !! i)) as [? ?]; [|congruence].
      exists (mkEntry (editType e) (keptBlocks t e)). apply rolledBack_lookup.
      exists e. repeat split; [done|]. intros Hempty.
      rewrite Hempty in Hb. by apply lookup_empty_Some in Hb.
  - destruct (rolledBack t L !! i) as [e'|] eqn:Hi'; [|done].
    apply rolledBack_lookup in Hi' as (e0 & He0 & _). congruence.
Qed.

(** C7. Rollback: [truncateHistoryUpdatesAtTimestamp t] leaves, for every
    (message, block), exactly the edits whose timestamp is at most [t], in
    their append order; no block of the result has an empty edit list and
    no entry of the result has an empty block map; a surviving entry keeps
    its [editType]; and the log is handed to the persistence store exactly
    when it differs from the starting log. *)
Theorem rollback_removes_later_edits (st : ContextManager) (t : Z) :
  let st' := truncateHistoryUpdatesAtTimestamp st t in
  let L := contextHistoryUpdates st in
  let L' := contextHistoryUpdates st' in
  (∀ i b, editsAt L' i b = filter (λ u, (timestamp u ≤ t)%Z) (editsAt L i b))
  ∧ (∀ i e', L' !! i = Some e' →
       blocks e' ≠ ∅
       ∧ (∀ b, blocks e' !! b ≠ Some [])
       ∧ ∃ e, L !! i = Some e ∧ editType e' = editType e)
  ∧ persisted st' = (if decide (L' = L) then persisted st else persisted st ++ [L']).
Proof.
  intros st' L L'.
  assert (HL' : L' = rolledBack t L) by apply truncateHistoryUpdatesAtTimestamp_log.
  split; [|split].
  - intros i b. rewrite HL'. apply rolledBack_editsAt.
  - intros i e' Hi'. rewrite HL' in Hi'.
    apply rolledBack_lookup in Hi' as (e & He & Hne & ->). simpl.
    split; [done|]. split; [|by exists e].
    intros b Hb. apply keptBlocks_lookup in Hb as (ups & _ & _ & Hnil). done.
  - subst st' L L'. unfold truncateHistoryUpdatesAtTimestamp.
    fold (rolledBack t (contextHistoryUpdates st)).
    destruct (decide (rolledBack t (contextHistoryUpdates st) = contextHistoryUpdates st))
      as [Heq|Hne]; simpl.
    + by rewrite decide_True.
    + by rewrite decide_False.
Qed.

End Rollback.

(** *** Rollback scenarios *)

Lemma rollback_removes_later_edits_witness :
  blocks (mkEntry user {[ 0%nat := [replaceEdit 1 "Update 1"] ]}) ≠ ∅.
Proof.
  apply (proj1 (proj2 (rollback_removes_later_edits (managerWith threeEdits) 2))
           0%nat (mkEntry user {[ 0%nat := [replaceEdit 1 "Update 1"] ]})).
  vm_compute. reflexivity.
Defined.

(** Scenario 6: rolling back to the second instant drops the third edit
    and stores the log once. *)
Example rollback_scenario :
  let st' := truncateHistoryUpdatesAtTimestamp (managerWith threeEdits) 2 in
  contextHistoryUpdates st'
  = {[ 0%nat := mkEntry user {[ 0%nat := [replaceEdit 1 "Update 1"] ]};
       1%nat := mkEntry assistant {[ 0%nat := [replaceEdit 2 "Update 2"] ]} ]}
  ∧ persisted st' = [contextHistoryUpdates st'].
Proof. vm_compute. split; reflexivity. Qed.

(** ** The duplicate elider *)

Section Scan.

Lemma elem_of_pushOccurrence fr o x :
  x ∈ allOccurrences (pushOccurrence fr o) ↔ x = o ∨ x ∈ allOccurrences fr.
Proof.
  unfold allOccurrences. induction fr as [|[p os] fr IH]; simpl.
  - rewrite ?app_nil_r, list_elem_of_singleton. rewrite elem_of_nil. tauto.
  - case_decide; simpl.
    + rewrite !elem_of_app, list_elem_of_singleton. tauto.
    + rewrite !elem_of_app, IH. tauto.
Qed.

Lemma pushOccurrence_Forall (Q : FileReadOccurrence → Prop) fr o :
  Forall Q (allOccurrences fr) → Q o → Forall Q (allOccurrences (pushOccurrence fr o)).
Proof.
  rewrite !Forall_forall. intros Hfr Ho x [->|Hx]%elem_of_pushOccurrence; auto.
Qed.

Lemma scanBlock_occurrences raw mi message bs fr ib :
  raw !! mi = Some message → role message = user → content message = ContentBlocks bs →
  ib ∈ Js.entries bs →
  Forall (occurrenceIn raw) (allOccurrences fr) →
  Forall (occurrenceIn raw) (allOccurrences (scanBlock mi bs fr ib)).
Proof.
  intros Hmi Hrole Hcontent Hib Hfr. destruct ib as [bi block].
  apply elem_of_entries in Hib. unfold scanBlock.
  destruct block as [text| | |]; try done.
  apply foldl_invariant.
  - case_decide as Hbi; [|done]. destruct (toolMatch text) as [path|]; [|done].
    destruct (bs !! (bi + 1)%nat) as [[next| | |]|] eqn:Hnext; try done.
    apply pushOccurrence_Forall; [done|].
    exists message, bs, next. done.
  - intros fr' pm _ Hfr'. apply pushOccurrence_Forall; [done|].
    exists message, bs, text. done.
Qed.

Lemma findDuplicateFileReads_occurrences raw :
  Forall (occurrenceIn raw) (allOccurrences (findDuplicateFileReads raw)).
Proof.
  unfold findDuplicateFileReads. apply foldl_invariant.
  - constructor.
  - intros fr [mi message] Him Hfr. apply elem_of_entries in Him.
    unfold scanMessage. destruct (role message) eqn:Hrole; [|done].
    destruct (content message) as [|bs] eqn:Hcontent; [done|].
    apply foldl_invariant; [done|].
    intros fr' ib Hib Hfr'. by eapply scanBlock_occurrences.
Qed.

Lemma nonFinal_subseteq os : nonFinal os ⊆ os.
Proof. unfold nonFinal. case_decide; [set_solver|apply subseteq_take]. Qed.

Lemma nonFinalOccurrences_in raw : Forall (occurrenceIn raw) (nonFinalOccurrences raw).
Proof.
  pose proof (findDuplicateFileReads_occurrences raw) as Hall.
  rewrite Forall_forall in Hall. apply Forall_forall. intros o Ho. apply Hall.
  unfold nonFinalOccurrences in Ho. unfold allOccurrences.
  apply elem_of_flat_map in Ho as ([p os] & Hin & Ho).
  apply elem_of_flat_map. exists (p, os). split; [done|].
  simpl in *. by apply nonFinal_subseteq.
Qed.

End Scan.

Section Elider.
Context `{Collaborators}.

(** One iteration of the inner loop appends one elision edit to the block
    the occurrence points at, and touches nothing else. *)
Lemma elideOccurrence_editsAt raw now path (M : PersistedContextHistory) o :
  occurrenceIn raw o →
  ∃ u, elisionEdit now u ∧ ∀ i b,
    editsAt (elideOccurrence raw now path M o) i b
    = editsAt M i b ++ (if decide (targets i b o) then [u] else []).
Proof.
  intros (message & bs & text & Hraw & _). unfold elideOccurrence. rewrite Hraw.
  set (e := match M !! messageIndex o with
            | Some e => e
            | None => mkEntry (role message) ∅
            end).
  assert (He : ∀ b, default [] (blocks e !! b) = editsAt M (messageIndex o) b).
  { intros b. unfold editsAt, e. by destruct (M !! messageIndex o). }
  replace (match M !! messageIndex o with
           | Some e0 => Some e0
           | None => Some (mkEntry (role message) ∅)
           end) with (Some e) by (unfold e; by destruct (M !! messageIndex o)).
  destruct (elisionPayload raw path o (default [] (blocks e !! blockIndex o)))
    as [payload meta].
  exists (mkUpdate now replace_content (Some payload) (Some meta)). split; [done|].
  intros i b. unfold editsAt at 1, targets.
  destruct (decide (i = messageIndex o)) as [->|Hi].
  - rewrite lookup_insert_eq. simpl.
    destruct (decide (b = blockIndex o)) as [->|Hb].
    + rewrite lookup_insert_eq. simpl. rewrite decide_True by done. by rewrite He.
    + rewrite lookup_insert_ne by done. rewrite decide_False by (by intros [_ ?]).
      by rewrite app_nil_r, He.
  - rewrite lookup_insert_ne by done. rewrite decide_False by (by intros [? _]).
    by rewrite app_nil_r.
Qed.

Lemma foldl_elideOccurrence_editsAt raw now path os (M : PersistedContextHistory) i b :
  Forall (occurrenceIn raw) os →
  ∃ new, editsAt (foldl (elideOccurrence raw now path) M os) i b = editsAt M i b ++ new
         ∧ length new = length (filter (targets i b) os)
         ∧ Forall (elisionEdit now) new.
Proof.
  revert M. induction os as [|o os IH]; intros M Hos; simpl.
  { exists []. by rewrite app_nil_r. }
  apply Forall_cons in Hos as [Ho Hos].
  destruct (IH (elideOccurrence raw now path M o) Hos) as (new & Hnew & Hlen & Hall).
  destruct (elideOccurrence_editsAt raw now path M o Ho) as (u & Hu & Hstep).
  rewrite Hnew, Hstep, <- app_assoc. eexists. split; [done|].
  rewrite filter_cons. destruct (decide (targets i b o)); simpl.
  - split; [by rewrite Hlen|]. by constructor.
  - done.
Qed.

Lemma elidePath_nonFinal raw now (M : PersistedContextHistory) entry :
  elidePath raw now M entry
  = foldl (elideOccurrence raw now entry.1) M (nonFinal entry.2).
Proof. destruct entry as [path os]. unfold elidePath, nonFinal. simpl. by case_decide. Qed.

Lemma foldl_elidePath_editsAt raw now fr (M : PersistedContextHistory) i b :
  Forall (occurrenceIn raw) (flat_map (λ entry, nonFinal entry.2) fr) →
  ∃ new, editsAt (foldl (elidePath raw now) M fr) i b = editsAt M i b ++ new
         ∧ length new
           = length (filter (targets i b) (flat_map (λ entry, nonFinal entry.2) fr))
         ∧ Forall (elisionEdit now) new.
Proof.
  revert M. induction fr as [|entry fr IH]; intros M Hfr; simpl.
  { exists []. by rewrite app_nil_r. }
  simpl in Hfr. apply Forall_app in Hfr as [Hentry Hfr].
  destruct (IH (elidePath raw now M entry) Hfr) as (new2 & Hnew2 & Hlen2 & Hall2).
  destruct (foldl_elideOccurrence_editsAt raw now entry.1 (nonFinal entry.2) M i b Hentry)
    as (new1 & Hnew1 & Hlen1 & Hall1).
  rewrite <- elidePath_nonFinal in Hnew1.
  exists (new1 ++ new2). split; [|split].
  - by rewrite Hnew2, Hnew1, app_assoc.
  - rewrite filter_app, !length_app. by rewrite Hlen1, Hlen2.
  - by apply Forall_app.
Qed.

(** The elider appends; it never rewrites what the log already holds. *)
Lemma applyOptimizations_editsAt raw (L : PersistedContextHistory) now i b :
  ∃ new, editsAt (applyOptimizations raw L now) i b = editsAt L i b ++ new
         ∧ length new = length (filter (targets i b) (nonFinalOccurrences raw))
         ∧ Forall (elisionEdit now) new.
Proof.
  unfold applyOptimizations. apply foldl_elidePath_editsAt.
  apply nonFinalOccurrences_in.
Qed.

(** A block no non-final occurrence points at reads, after elision, as
    the given log alone leaves it. *)
Lemma elision_keeps_untargeted_block raw (L : PersistedContextHistory) now i b :
  filter (targets i b) (nonFinalOccurrences raw) = [] →
  blockAt (applyModificationsToHistory (applyModificationsToHistory raw L)
             (applyOptimizations raw L now)) i b
  = blockAt (applyModificationsToHistory raw L) i b.
Proof.
  intros Hnone.
  destruct (applyOptimizations_editsAt raw L now i b) as (new & Hnew & Hlen & _).
  rewrite Hnone in Hlen. apply nil_length_inv in Hlen. subst new.
  rewrite app_nil_r in Hnew.
  rewrite !blockAt_applyModificationsToHistory, Hnew.
  destruct (blockAt raw i b) as [blk|]; [|done]. simpl.
  by rewrite applyLatest_idem.
Qed.

Lemma editsAt_differ (L1 L2 : PersistedContextHistory) i b :
  editsAt L1 i b ≠ editsAt L2 i b → L1 ≠ L2.
Proof. intros Hne ->. done. Qed.

(** With a path read twice, the elider's log is never the log it was
    given. *)
Lemma applyOptimizations_changes raw (L : PersistedContextHistory) now :
  nonFinalOccurrences raw ≠ [] → applyOptimizations raw L now ≠ L.
Proof.
  intros Hne. destruct (nonFinalOccurrences raw) as [|o os] eqn:Hocc; [done|].
  apply (editsAt_differ _ _ (messageIndex o) (blockIndex o)).
  destruct (applyOptimizations_editsAt raw L now (messageIndex o) (blockIndex o))
    as (new & Hnew & Hlen & _).
  rewrite Hocc, filter_cons_True in Hlen by done.
  intros Heq. rewrite Hnew in Heq.
  apply (f_equal length) in Heq. rewrite length_app, Hlen in Heq. simpl in Heq. lia.
Qed.

End Elider.

(** ** The facade: two calls in a row, and what every reachable log
    looks like *)

Section Facade.
Context `{Collaborators}.

Lemma Qle_bool_false_lt x y : (y < x)%Q → Qle_bool x y = false.
Proof.
  intros Hlt. destruct (Qle_bool x y) eqn:Hb; [|done].
  apply Qle_bool_iff in Hb. by apply Qlt_not_le in Hlt.
Qed.

(** [processHistoryForApi] changes the log and the persistence trace
    only. *)
Lemma processHistoryForApi_config st raw P o t :
  let st' := (processHistoryForApi st raw P o t).2 in
  currentModelInfo st' = currentModelInfo st
  ∧ truncationPercentage st' = truncationPercentage st
  ∧ reservedResponseTokens st' = reservedResponseTokens st
  ∧ tokenBuffer st' = tokenBuffer st.
Proof.
  unfold processHistoryForApi. destruct (Qle_bool _ _); simpl; [done|].
  by case_decide.
Qed.

Lemma processHistoryForApi_budget st raw P o t :
  maxTokensForContext (processHistoryForApi st raw P o t).2 = maxTokensForContext st.
Proof.
  destruct (processHistoryForApi_config st raw P o t) as (Hm & _ & Hr & Hb).
  unfold maxTokensForContext. by rewrite Hm, Hr, Hb.
Qed.

(** A call that neither underflows nor truncates installs the elider's
    log. *)
Lemma processHistoryForApi_no_truncation st raw P o t :
  (0 < maxTokensForContext st)%Q → (inject_Z P <= maxTokensForContext st)%Q →
  let st' := (processHistoryForApi st raw P o t).2 in
  let L' := applyOptimizations raw (contextHistoryUpdates st) o in
  contextHistoryUpdates st' = L'
  ∧ persisted st'
    = (if decide (contextHistoryUpdates st = L') then persisted st
       else persisted st ++ [L']).
Proof.
  intros Hpos HP. unfold processHistoryForApi.
  rewrite (Qle_bool_false_lt _ _ Hpos).
  rewrite applyTruncation_within_limit by done. simpl.
  destruct (decide (contextHistoryUpdates st
                    = applyOptimizations raw (contextHistoryUpdates st) o))
    as [Heq|Hne]; simpl; [|done].
  by rewrite <- Heq.
Qed.

Lemma duplicated_path_nonFinal raw path occurrences :
  (path, occurrences) ∈ findDuplicateFileReads raw → (2 ≤ length occurrences)%nat →
  nonFinalOccurrences raw ≠ [].
Proof.
  intros Hin Hlen Hnil.
  destruct occurrences as [|o1 [|o2 os]]; simpl in Hlen; try lia.
  assert (o1 ∈ nonFinalOccurrences raw) as Ho; [|rewrite Hnil in Ho; by apply elem_of_nil in Ho].
  unfold nonFinalOccurrences. apply elem_of_flat_map.
  exists (path, o1 :: o2 :: os). split; [done|].
  unfold nonFinal. case_decide as Hd; [simpl in Hd; lia|]. simpl. by left.
Qed.

(** C10 (amended). Elision is not idempotent on the edit log: every call
    of [applyOptimizations] appends, to each block, one new
    [replace_content] edit stamped with the call's clock reading for
    every non-final occurrence pointing at it, whatever the log already
    holds. Consequently, when some path is read at least twice, the
    budget is positive and neither call truncates, two consecutive calls
    of [processHistoryForApi] on the same raw history both change the log
    and both hand it to the persistence store. *)
Theorem elision_appends_on_every_call (raw : list MessageParam) :
  (∀ (L : PersistedContextHistory) now i b,
     ∃ new, editsAt (applyOptimizations raw L now) i b = editsAt L i b ++ new
            ∧ length new = length (filter (targets i b) (nonFinalOccurrences raw))
            ∧ Forall (elisionEdit now) new)
  ∧ (∀ st P1 P2 o1 t1 o2 t2,
       (∃ path occurrences,
          (path, occurrences) ∈ findDuplicateFileReads raw
          ∧ (2 ≤ length occurrences)%nat) →
       (0 < maxTokensForContext st)%Q →
       (inject_Z P1 <= maxTokensForContext st)%Q →
       (inject_Z P2 <= maxTokensForContext st)%Q →
       let st1 := (processHistoryForApi st raw P1 o1 t1).2 in
       let st2 := (processHistoryForApi st1 raw P2 o2 t2).2 in
       contextHistoryUpdates st1 = applyOptimizations raw (contextHistoryUpdates st) o1
       ∧ contextHistoryUpdates st1 ≠ contextHistoryUpdates st
       ∧ persisted st1 = persisted st ++ [contextHistoryUpdates st1]
       ∧ contextHistoryUpdates st2 = applyOptimizations raw (contextHistoryUpdates st1) o2
       ∧ contextHistoryUpdates st2 ≠ contextHistoryUpdates st1
       ∧ persisted st2 = persisted st1 ++ [contextHistoryUpdates st2]).
Proof.
  split; [intros L now i b; apply applyOptimizations_editsAt|].
  intros st P1 P2 o1 t1 o2 t2 (path & occs & Hin & Hlen) Hpos HP1 HP2 st1 st2.
  pose proof (duplicated_path_nonFinal raw path occs Hin Hlen) as Hdup.
  assert (Hcall : ∀ s P o t, (0 < maxTokensForContext s)%Q →
            (inject_Z P <= maxTokensForContext s)%Q →
            let s' := (processHistoryForApi s raw P o t).2 in
            contextHistoryUpdates s' = applyOptimizations raw (contextHistoryUpdates s) o
            ∧ contextHistoryUpdates s' ≠ contextHistoryUpdates s
            ∧ persisted s' = persisted s ++ [contextHistoryUpdates s']).
  { intros s P o t Hs HP s'.
    destruct (processHistoryForApi_no_truncation s raw P o t Hs HP) as [Hlog Hsaved].
    fold s' in Hlog, Hsaved.
    pose proof (applyOptimizations_changes raw (contextHistoryUpdates s) o Hdup) as Hch.
    rewrite decide_False in Hsaved by done.
    rewrite Hlog. done. }
  destruct (Hcall st P1 o1 t1 Hpos HP1) as (H1 & H2 & H3). fold st1 in H1, H2, H3.
  assert (Hb : maxTokensForContext st1 = maxTokensForContext st)
    by apply processHistoryForApi_budget.
  destruct (Hcall st1 P2 o2 t2) as (H4 & H5 & H6); [by rewrite Hb|by rewrite Hb|].
  fold st2 in H4, H5, H6. done.
Qed.

(** *** Notices in reachable logs *)

Lemma noticesOnly_empty : noticesOnlyAtFirstAssistant ∅.
Proof. intros i b u Hu. unfold editsAt in Hu. rewrite lookup_empty in Hu. by apply elem_of_nil in Hu. Qed.

Lemma applyOptimizations_notices raw (L : PersistedContextHistory) now :
  noticesOnlyAtFirstAssistant L →
  noticesOnlyAtFirstAssistant (applyOptimizations raw L now).
Proof.
  intros HL i b u Hu Hnotice.
  destruct (applyOptimizations_editsAt raw L now i b) as (new & Hnew & _ & Hall).
  rewrite Hnew in Hu. apply elem_of_app in Hu as [Hu|Hu]; [by eapply HL|].
  rewrite Forall_forall in Hall. destruct (Hall u Hu) as [_ Hty]. congruence.
Qed.

Lemma addTruncationNotice_editsAt H0 T (M : PersistedContextHistory) now i b u :
  u ∈ editsAt (addTruncationNotice H0 T M now) i b →
  u ∈ editsAt M i b ∨ (i = 1%nat ∧ b = 0%nat).
Proof.
  destruct (decide (i = 1%nat)) as [->|Hi].
  2:{ unfold editsAt. rewrite addTruncationNotice_lookup_ne by done. by left. }
  destruct (decide (b = 0%nat)) as [->|Hb]; [by right|].
  intros Hu. left. revert Hu. unfold addTruncationNotice. case_decide; [|done].
  unfold editsAt.
  destruct (M !! 1%nat) as [e|] eqn:HM.
  - rewrite lookup_insert_eq. simpl. by rewrite lookup_insert_ne.
  - destruct (H0 !! 1%nat) as [m|]; [|by rewrite HM].
    case_decide; [|by rewrite HM].
    rewrite lookup_insert_eq. simpl. by rewrite lookup_insert_ne.
Qed.

Lemma adjustIndices_editsAt r (M : PersistedContextHistory) k b u :
  u ∈ editsAt (adjustIndices r M) k b →
  ∃ j, rekey r j = Some k ∧ u ∈ editsAt M j b.
Proof.
  unfold editsAt at 1. destruct (adjustIndices r M !! k) as [e|] eqn:Hk.
  - apply adjustIndices_lookup in Hk as (j & Hj & Hkey). intros Hu.
    exists j. split; [done|]. unfold editsAt. by rewrite Hj.
  - intros Hu. by apply elem_of_nil in Hu.
Qed.

Lemma applyTruncation_notices φ H0 (L : PersistedContextHistory) maxTokens P now :
  noticesOnlyAtFirstAssistant L →
  noticesOnlyAtFirstAssistant
    (updatedModifications (applyTruncation φ H0 L maxTokens P now)).
Proof.
  intros HL. unfold applyTruncation.
  destruct (negb _); [|done]. case_decide; [|done]. simpl.
  intros k b u Hu Hnotice.
  apply adjustIndices_editsAt in Hu as (j & Hkey & Hu).
  apply addTruncationNotice_editsAt in Hu as [Hu|[-> ->]].
  - destruct (HL j b u Hu Hnotice) as [-> ->]. unfold rekey in Hkey.
    rewrite decide_True in Hkey by lia. by simplify_eq.
  - unfold rekey in Hkey. rewrite decide_True in Hkey by lia. by simplify_eq.
Qed.

Lemma managerStep_notices st st' :
  managerStep st st' →
  noticesOnlyAtFirstAssistant (contextHistoryUpdates st) →
  noticesOnlyAtFirstAssistant (contextHistoryUpdates st').
Proof.
  intros Hstep HL. destruct Hstep as [st raw P o t|st t|st newModelInfo].
  - unfold processHistoryForApi. destruct (Qle_bool _ _); simpl; [done|].
    case_decide as Heq; [done|]. simpl.
    by apply applyTruncation_notices, applyOptimizations_notices.
  - rewrite truncateHistoryUpdatesAtTimestamp_log.
    intros i b u Hu Hnotice. rewrite rolledBack_editsAt in Hu.
    apply list_elem_of_filter in Hu as [_ Hu]. by eapply HL.
  - unfold updateModelInfo. by case_decide.
Qed.

(** C9 (amended). In every edit log reachable from the empty log through
    the manager's operations, every [add_truncation_notice] edit is keyed
    to block 0 of message 1. The truncator does not look at the variant
    of that block when it adds the edit; the applier skips the edit when
    the block is not a text block. *)
Theorem reachable_notices_at_first_assistant (st : ContextManager) :
  reachable st → noticesOnlyAtFirstAssistant (contextHistoryUpdates st).
Proof.
  intros (st0 & Hempty & Hsteps). revert st Hsteps.
  apply (rtc_ind_r (λ st, noticesOnlyAtFirstAssistant (contextHistoryUpdates st))).
  - rewrite Hempty. apply noticesOnly_empty.
  - intros st1 st2 _ Hstep IH. by eapply managerStep_notices.
Qed.

End Facade.

(** *** Facade scenarios *)

Lemma elision_appends_on_every_call_witness :
  let st1 := (processHistoryForApi freshManager twoMentions 0 1 2).2 in
  let st2 := (processHistoryForApi st1 twoMentions 0 3 4).2 in
  contextHistoryUpdates st2 ≠ contextHistoryUpdates st1
  ∧ persisted st2 = persisted st1 ++ [contextHistoryUpdates st2].
Proof.
  intros st1 st2.
  assert (Hdup : ∃ path occurrences,
             (path, occurrences) ∈ findDuplicateFileReads twoMentions
             ∧ (2 ≤ length occurrences)%nat).
  { do 2 eexists. split; [apply list_elem_of_here|]. simpl. lia. }
  assert (Hpos : (0 < maxTokensForContext freshManager)%Q)
    by (vm_compute; reflexivity).
  assert (HP : (inject_Z 0 <= maxTokensForContext freshManager)%Q)
    by (vm_compute; intros Hgt; discriminate Hgt).
  destruct (proj2 (elision_appends_on_every_call twoMentions)
              freshManager 0%Z 0%Z 1%Z 2%Z 3%Z 4%Z Hdup Hpos HP HP)
    as (_ & _ & _ & _ & Hne & Hsaved).
  split; [exact Hne|exact Hsaved].
Defined.

(** C10, as stated, fails. With a reserve above the budget the call is a
    no-op: a history with a duplicated path changes nothing and persists
    nothing. With truncation, the elision edit of an evicted message is
    discarded: the second of two identical calls leaves the log as the
    first left it and persists nothing. *)
Lemma elision_persistence_counterexample :
  (∃ occurrences,
     findDuplicateFileReads twoMentions = [("a.ts"%string, occurrences)]
     ∧ length occurrences = 2%nat)
  ∧ (processHistoryForApi starvedManager twoMentions 0 1 2).2 = starvedManager
  ∧ (∃ occurrences,
       findDuplicateFileReads lateMentions = [("a.ts"%string, occurrences)]
       ∧ length occurrences = 2%nat)
  ∧ (let st1 := (processHistoryForApi freshManager lateMentions 200000 1 2).2 in
     let st2 := (processHistoryForApi st1 lateMentions 200000 3 4).2 in
     contextHistoryUpdates st2 = contextHistoryUpdates st1
     ∧ persisted st2 = persisted st1).
Proof.
  split; [eexists; split; [vm_compute; reflexivity|done]|].
  split; [vm_compute; reflexivity|].
  split; [eexists; split; [vm_compute; reflexivity|done]|].
  vm_compute. split; reflexivity.
Qed.

Lemma reachable_notices_at_first_assistant_witness :
  noticesOnlyAtFirstAssistant
    (contextHistoryUpdates (processHistoryForApi freshManager toolUseFirst 200000 1 2).2).
Proof.
  apply reachable_notices_at_first_assistant.
  exists freshManager. split; [reflexivity|].
  eapply rtc_l; [apply step_process|apply rtc_refl].
Defined.

(** C9, as stated, fails: a first call on a history whose first assistant
    message opens with a tool use adds a notice at (1, 0); the block there,
    in the raw history and in the prepared one, is not a text block. *)
Lemma notice_targets_text_counterexample :
  let run := processHistoryForApi freshManager toolUseFirst 200000 1 2 in
  editsAt (contextHistoryUpdates freshManager) 1 0 = []
  ∧ editsAt (contextHistoryUpdates run.2) 1 0
    = [mkUpdate 2 add_truncation_notice None None]
  ∧ blockAt toolUseFirst 1 0 = Some (ToolUseBlock "read_file" "{}")
  ∧ blockAt (processedHistory run.1) 1 0 = Some (ToolUseBlock "read_file" "{}")
  ∧ isText (ToolUseBlock "read_file" "{}") = false.
Proof. vm_compute. repeat split; reflexivity. Qed.

(** C4, at the failing input. A [read_file] result for [f] whose content
    block holds a mention of [f] gives two occurrences of [f], both
    pointing at block 1 of message 0; the edit emitted for the first
    replaces the whole block by the duplicate-read notice, so the last
    occurrence, which the claim says is left unmodified, is gone from
    the prepared history. *)
Theorem elision_overwrites_last_occurrence :
  let run := processHistoryForApi freshManager readOfSelfMention 0 1 2 in
  findDuplicateFileReads readOfSelfMention
  = [("f"%string,
      [mkOccurrence 0 1 "f" None;
       mkOccurrence 0 1 "f" (Some (mention "f" "X"))])]
  ∧ blockAt readOfSelfMention 0 1 = Some (TextBlock (mention "f" "X"))
  ∧ blockAt (processedHistory run.1) 0 1 = Some (TextBlock "[dup]").
Proof. vm_compute. repeat split; reflexivity. Qed.

(** *** Elision scenarios of the specification *)

(** Scenario 2: the first mention is replaced in place, the second is
    kept, and the log holds one edit at (0, 0). *)
Example mention_elision_scenario :
  let run := processHistoryForApi freshManager twoMentions 0 1 2 in
  blockAt (processedHistory run.1) 0 0
  = Some (TextBlock ("A " +:+ mention "a.ts" "[dup]"))
  ∧ blockAt (processedHistory run.1) 2 0 = blockAt twoMentions 2 0
  ∧ editsAt (contextHistoryUpdates run.2) 0 0
    = [mkUpdate 1 replace_content (Some ("A " +:+ mention "a.ts" "[dup]"))
         (Some (MetaPath "a.ts" true))]
  ∧ length (persisted run.2) = 1%nat.
Proof. vm_compute. repeat split; reflexivity. Qed.

(** Scenario 3: the content block of the first read becomes the notice,
    the second read is kept, and the log holds one edit at (0, 1). *)
Example tool_result_elision_scenario :
  let run := processHistoryForApi freshManager twoReads 0 1 2 in
  blockAt (processedHistory run.1) 0 1 = Some (TextBlock "[dup]")
  ∧ blockAt (processedHistory run.1) 2 1 = Some (TextBlock "CONTENT")
  ∧ editsAt (contextHistoryUpdates run.2) 0 1
    = [mkUpdate 1 replace_content (Some "[dup]"%string) (Some (MetaPath "f" false))].
Proof. vm_compute. repeat split; reflexivity. Qed.

(** Scenarios 4 and 5: ten messages with an edit at index 9, the previous
    request over the budget. Four messages are evicted, the edit moves to
    index 5 and its text is in the prepared history there, and a notice is
    recorded at (1, 0). The prepared history is cut from the history the
    applier produced before the notice was recorded, so message 1 reads as
    before in this call. *)
Example truncation_scenario :
  let e9 := mkEntry assistant {[0%nat := [replaceEdit 1 "Modified last response"]]} in
  let run :=
    processHistoryForApi (managerWith {[9%nat := e9]}) (alternating 5) 200000 2 3 in
  resultWasTruncated run.1 = true
  ∧ length (processedHistory run.1) = 6%nat
  ∧ blockAt (processedHistory run.1) 5 0 = Some (TextBlock "Modified last response")
  ∧ contextHistoryUpdates run.2 !! 5%nat = Some e9
  ∧ editsAt (contextHistoryUpdates run.2) 1 0
    = [mkUpdate 3 add_truncation_notice None None]
  ∧ blockAt (processedHistory run.1) 1 0 = Some (TextBlock "a")
  ∧ length (persisted run.2) = 1%nat.
Proof. vm_compute. repeat split; reflexivity. Qed.

(** * Further properties of the manager *)

(** ** The applier as a projection *)

Section Projection.
Context `{Collaborators}.

Lemma applyAt_projectMessage (L : PersistedContextHistory) i m :
  applyAt L i m = projectMessage L i m.
Proof.
  unfold applyAt, projectMessage, applyToMessage.
  destruct m as [r [str|bs]]; simpl.
  { by destruct (L !! i). }
  destruct (L !! i) as [e|] eqn:HL.
  - do 2 f_equal. apply list_eq. intros b.
    rewrite applied_blocks_lookup, list_lookup_imap.
    unfold editsAt. rewrite HL.
    destruct (bs !! b) as [blk|]; [|done]. simpl. by destruct (blocks e !! b).
  - do 2 f_equal. apply list_eq. intros b. rewrite list_lookup_imap.
    unfold editsAt. rewrite HL. by destruct (bs !! b).
Qed.

Lemma applyModificationsToHistory_imap h (L : PersistedContextHistory) :
  applyModificationsToHistory h L = imap (projectMessage L) h.
Proof.
  apply list_eq. intros i.
  rewrite applyModificationsToHistory_lookup, list_lookup_imap.
  destruct (h !! i) as [m|]; [|done]. simpl. by rewrite applyAt_projectMessage.
Qed.

Lemma projectMessage_ext (L1 L2 : PersistedContextHistory) i m :
  (∀ b blk, blockAt [m] 0 b = Some blk →
            applyLatest (editsAt L1 i b) blk = applyLatest (editsAt L2 i b) blk) →
  projectMessage L1 i m = projectMessage L2 i m.
Proof.
  intros Hsame. unfold projectMessage. destruct m as [r [str|bs]]; simpl; [done|].
  do 2 f_equal. apply list_eq. intros b. rewrite !list_lookup_imap.
  destruct (bs !! b) as [blk|] eqn:Hb; [|done]. simpl. f_equal.
  apply Hsame. unfold blockAt. simpl. done.
Qed.

(** X1. Edits whose target does not exist are skipped: when no existing
    block of the history has an edit recorded for it (the log may hold
    entries for message or block indices out of range, or empty edit
    lists), the applier returns the history as it is. *)
Theorem applier_skips_missing_targets (h : list MessageParam)
    (L : PersistedContextHistory) :
  (∀ i b blk, blockAt h i b = Some blk → editsAt L i b = []) →
  applyModificationsToHistory h L = h.
Proof.
  intros Hnone. rewrite applyModificationsToHistory_imap.
  apply list_eq. intros i. rewrite list_lookup_imap.
  destruct (h !! i) as [m|] eqn:Hi; [|done]. simpl. f_equal.
  unfold projectMessage. destruct m as [r [str|bs]]; simpl; [done|].
  do 2 f_equal. apply list_eq. intros b. rewrite list_lookup_imap.
  destruct (bs !! b) as [blk|] eqn:Hb; [|done]. simpl. f_equal.
  rewrite (Hnone i b blk); [done|]. unfold blockAt. rewrite Hi. simpl. done.
Qed.

(** X2. Only the last edit of each block counts: two logs whose edit
    lists end with the same edit at every (message, block) give the same
    prepared history, whatever earlier edits they hold. *)
Theorem applier_uses_latest_edit_only (h : list MessageParam)
    (L1 L2 : PersistedContextHistory) :
  (∀ i b, last (editsAt L1 i b) = last (editsAt L2 i b)) →
  applyModificationsToHistory h L1 = applyModificationsToHistory h L2.
Proof.
  intros Hlast. rewrite !applyModificationsToHistory_imap.
  apply list_eq. intros i. rewrite !list_lookup_imap.
  destruct (h !! i) as [m|]; [|done]. simpl. f_equal.
  apply projectMessage_ext. intros b blk _. unfold applyLatest. by rewrite Hlast.
Qed.

Lemma applyLatest_sameVariant ups blk : sameVariant blk (applyLatest ups blk).
Proof.
  unfold applyLatest. destruct (last ups) as [u|]; [|by destruct blk].
  unfold applyUpdate. destruct (updateType u); destruct blk as [t| | |]; try done.
  - by destruct (newContent u).
  - simpl. by destruct (Js.startsWith contextTruncationNotice t).
Qed.

(** X3. The applier keeps the shape of the history: the same number of
    messages, each with its role; a message whose content is a bare
    string is untouched; a message with blocks keeps their number, every
    text block stays a text block and every other block is unchanged. *)
Theorem applier_preserves_shape (h : list MessageParam) (L : PersistedContextHistory) :
  length (applyModificationsToHistory h L) = length h
  ∧ ∀ i m, h !! i = Some m →
      ∃ m', applyModificationsToHistory h L !! i = Some m'
            ∧ role m' = role m
            ∧ match content m with
              | ContentString _ => m' = m
              | ContentBlocks bs =>
                  ∃ bs', content m' = ContentBlocks bs'
                         ∧ length bs' = length bs
                         ∧ ∀ b blk, bs !! b = Some blk →
                             ∃ blk', bs' !! b = Some blk' ∧ sameVariant blk blk'
              end.
Proof.
  split; [apply applyModificationsToHistory_length|].
  intros i m Hi. rewrite applyModificationsToHistory_imap, list_lookup_imap, Hi. simpl.
  eexists. split; [done|]. unfold projectMessage.
  destruct m as [r [str|bs]]; simpl; [done|]. split; [done|].
  eexists. split; [done|]. split; [by rewrite length_imap|].
  intros b blk Hb. rewrite list_lookup_imap, Hb. simpl.
  eexists. split; [done|]. apply applyLatest_sameVariant.
Qed.

End Projection.

Lemma applier_skips_missing_targets_witness :
  applyModificationsToHistory (alternating 1)
    {[ 5%nat := mkEntry user {[ 0%nat := [replaceEdit 1 "invalid"] ]};
       0%nat := mkEntry user {[ 10%nat := [replaceEdit 1 "invalid block"] ]} ]}
  = alternating 1.
Proof.
  apply applier_skips_missing_targets.
  intros [|[|i]] [|b] blk Hblk; try done.
Defined.

Lemma applier_preserves_shape_witness :
  ∃ m', applyModificationsToHistory (alternating 1)
          {[ 1%nat := mkEntry assistant {[ 0%nat := [replaceEdit 1 "new"] ]} ]} !! 1%nat
        = Some m'
        ∧ role m' = assistant.
Proof.
  destruct (proj2 (applier_preserves_shape (alternating 1)
                     {[ 1%nat := mkEntry assistant {[ 0%nat := [replaceEdit 1 "new"] ]} ]})
              1%nat (textMessage assistant "a") eq_refl) as (m' & Hm' & Hrole & _).
  exists m'. split; [exact Hm'|exact Hrole].
Defined.

Lemma applier_uses_latest_edit_only_witness :
  applyModificationsToHistory (alternating 1)
    {[ 0%nat := mkEntry user {[ 0%nat := [replaceEdit 1 "old"; replaceEdit 2 "new"] ]} ]}
  = applyModificationsToHistory (alternating 1)
      {[ 0%nat := mkEntry user {[ 0%nat := [replaceEdit 2 "new"] ]} ]}.
Proof.
  apply applier_uses_latest_edit_only.
  intros i b. unfold editsAt. destruct (decide (i = 0%nat)) as [->|Hi].
  - rewrite !lookup_singleton_eq. simpl. destruct (decide (b = 0%nat)) as [->|Hb].
    + by rewrite !lookup_singleton_eq.
    + by rewrite !lookup_singleton_ne.
  - by rewrite !lookup_singleton_ne.
Defined.

(** ** The token estimator *)

Section Estimator.
Context `{Collaborators}.

Lemma foldl_add_shift {A} (f : A → Z) (l : list A) (a : Z) :
  foldl (λ total x, (total + f x)%Z) a l
  = (a + foldl (λ total x, (total + f x)%Z) 0%Z l)%Z.
Proof.
  revert a. induction l as [|x l IH]; intros a; simpl; [lia|].
  rewrite (IH (a + f x)%Z), (IH (0 + f x)%Z). lia.
Qed.

Lemma calculateTokens_append (h1 h2 : list MessageParam) :
  calculateTokens (h1 ++ h2) = (calculateTokens h1 + calculateTokens h2)%Z.
Proof.
  unfold calculateTokens. rewrite foldl_app.
  by rewrite (foldl_add_shift messageTokens h2).
Qed.

(** X4. The estimate is additive: the token count of a history is the
    sum of the counts of its messages taken one by one, so the count of
    two histories put end to end is the sum of their counts. *)
Theorem calculateTokens_additive (h1 h2 : list MessageParam) (m : MessageParam) :
  calculateTokens (h1 ++ h2) = (calculateTokens h1 + calculateTokens h2)%Z
  ∧ calculateTokens (m :: h2) = (messageTokens m + calculateTokens h2)%Z
  ∧ calculateTokens [] = 0%Z.
Proof.
  split; [apply calculateTokens_append|]. split; [|done].
  change (m :: h2) with ([m] ++ h2). rewrite calculateTokens_append.
  unfold calculateTokens at 1. simpl. lia.
Qed.

Lemma foldl_add_nonneg {A} (f : A → Z) (l : list A) :
  (∀ x, 0 ≤ f x)%Z → (0 ≤ foldl (λ total x, (total + f x)%Z) 0%Z l)%Z.
Proof.
  intros Hf. induction l as [|x l IH] using rev_ind; simpl; [lia|].
  rewrite foldl_app. simpl. specialize (Hf x). lia.
Qed.

(** X5. With a tokenizer that never returns a negative count, the
    estimate of any history is not negative, and no shorter history
    obtained by dropping a suffix or a prefix has a larger estimate. *)
Theorem calculateTokens_nonneg_monotone (h1 h2 : list MessageParam) :
  (∀ s, 0 ≤ tokenizer s)%Z →
  (0 ≤ calculateTokens h1)%Z
  ∧ (calculateTokens h1 ≤ calculateTokens (h1 ++ h2))%Z
  ∧ (calculateTokens h2 ≤ calculateTokens (h1 ++ h2))%Z.
Proof.
  intros Htok.
  assert (Hmsg : ∀ m, (0 ≤ messageTokens m)%Z).
  { intros m. unfold messageTokens. destruct (content m) as [str|bs]; [apply Htok|].
    apply foldl_add_nonneg. intros blk. unfold blockTokens.
    destruct blk as [t| |name input|c]; try lia.
    - apply Htok.
    - pose proof (Htok input). pose proof (Htok name). lia.
    - pose proof (Htok c). lia. }
  assert (Hall : ∀ h, (0 ≤ calculateTokens h)%Z).
  { intros h. unfold calculateTokens. by apply foldl_add_nonneg. }
  rewrite calculateTokens_append. pose proof (Hall h1). pose proof (Hall h2). lia.
Qed.

End Estimator.

Lemma calculateTokens_nonneg_monotone_witness :
  (0 ≤ calculateTokens (alternating 1))%Z
  ∧ (calculateTokens (alternating 1) ≤ calculateTokens (alternating 1 ++ alternating 2))%Z
  ∧ (calculateTokens (alternating 2) ≤ calculateTokens (alternating 1 ++ alternating 2))%Z.
Proof.
  apply calculateTokens_nonneg_monotone. intros s. simpl. lia.
Defined.

(** ** Bounds of the budget oracle *)

Section OracleBounds.

Lemma mathMax_le_l a b : (a <= mathMax a b)%Q.
Proof.
  unfold mathMax. destruct (Qle_bool a b) eqn:Hab; [|lra].
  by apply Qle_bool_iff in Hab.
Qed.

Lemma mathMax_le_r a b : (b <= mathMax a b)%Q.
Proof.
  unfold mathMax. destruct (Qle_bool a b) eqn:Hab; [lra|].
  apply Qlt_le_weak, Qnot_le_lt. intros Hle. apply Qle_bool_iff in Hle. congruence.
Qed.

Lemma mathMax_lub a b c : (a <= c)%Q → (b <= c)%Q → (mathMax a b <= c)%Q.
Proof. intros Ha Hb. unfold mathMax. by destruct (Qle_bool a b). Qed.

(** X6. Whatever the model descriptor, the window the oracle reports is
    not zero and the budget it reports is at least 1 000 tokens; when the
    window is at least 1 000 the budget does not exceed the window. *)
Theorem oracle_budget_bounds (modelInfo : option ModelInfo.t) :
  let info := getContextWindowInfo modelInfo in
  ¬ (contextWindow info == 0)%Q
  ∧ (1000 <= maxAllowedSize info)%Q
  ∧ ((1000 <= contextWindow info)%Q → (maxAllowedSize info <= contextWindow info)%Q).
Proof.
  intros info. subst info. unfold getContextWindowInfo. simpl.
  set (W := orDefault (modelInfo ≫= ModelInfo.contextWindow) DEFAULT_CONTEXT_WINDOW).
  assert (HW : ¬ (W == 0)%Q).
  { subst W. unfold orDefault. destruct (modelInfo ≫= ModelInfo.contextWindow) as [w|].
    - destruct (Qeq_bool w 0) eqn:Hw; [done|]. by apply Qeq_bool_neq.
    - done. }
  split; [done|]. clearbody W.
  destruct (Qeq_bool W 64000) eqn:H64.
  { apply Qeq_bool_iff in H64. split; [lra|]. intros _. lra. }
  destruct (Qeq_bool W 128000) eqn:H128.
  { apply Qeq_bool_iff in H128. unfold DEFAULT_BUFFER. split; [lra|]. intros _. lra. }
  destruct (Qeq_bool W 200000) eqn:H200.
  { apply Qeq_bool_iff in H200. split; [lra|]. intros _. lra. }
  split; [apply mathMax_le_r|].
  intros Hbig. apply mathMax_lub; [apply mathMax_lub|done].
  - pose proof (mathMax_le_r (W * (2 # 10)) 40000). lra.
  - assert (W / 2 == W * (1 # 2))%Q as -> by (unfold Qdiv; reflexivity). lra.
Qed.

End OracleBounds.

Lemma oracle_budget_bounds_witness :
  (maxAllowedSize (getContextWindowInfo (Some (ModelInfo.mk (Some 50000%Q))))
   <= contextWindow (getContextWindowInfo (Some (ModelInfo.mk (Some 50000%Q)))))%Q.
Proof.
  apply (proj2 (proj2 (oracle_budget_bounds (Some (ModelInfo.mk (Some 50000%Q)))))).
  vm_compute. intros Hgt. discriminate Hgt.
Defined.

(** ** Rollback: composition and no-ops *)

Section RollbackAlgebra.

Local Abbreviation upTo t := (λ u : ContextUpdate, (timestamp u ≤ t)%Z).

Lemma filter_upTo_compose t1 t2 (l : list ContextUpdate) :
  (t1 ≤ t2)%Z → filter (upTo t1) (filter (upTo t2) l) = filter (upTo t1) l.
Proof.
  intros Ht. induction l as [|u l IH]; [done|].
  rewrite (filter_cons (upTo t2)), (filter_cons (upTo t1)).
  destruct (decide (upTo t2 u)) as [H2|H2]; destruct (decide (upTo t1 u)) as [H1|H1];
    simpl in *; try lia.
  - rewrite filter_cons_True by done. by rewrite IH.
  - rewrite filter_cons_False by done. done.
  - done.
Qed.

Lemma filter_upTo_all t (l : list ContextUpdate) :
  (∀ u, u ∈ l → (timestamp u ≤ t)%Z) → filter (upTo t) l = l.
Proof.
  induction l as [|u l IH]; intros Hall; [done|].
  rewrite filter_cons_True by (apply Hall; by left).
  rewrite IH; [done|]. intros u' Hu'. apply Hall. by right.
Qed.

(** The kept blocks read off the edit lists alone. *)
Lemma keptBlocks_lookup_default t e b ups' :
  keptBlocks t e !! b = Some ups'
  ↔ ups' = filter (upTo t) (default [] (blocks e !! b)) ∧ ups' ≠ [].
Proof.
  rewrite keptBlocks_lookup. split.
  - intros (ups & Hb & -> & Hne). by rewrite Hb.
  - intros [-> Hne]. destruct (blocks e !! b) as [ups|]; [by exists ups|done].
Qed.

Lemma keptBlocks_ext t e1 e2 :
  (∀ b, filter (upTo t) (default [] (blocks e1 !! b))
        = filter (upTo t) (default [] (blocks e2 !! b))) →
  keptBlocks t e1 = keptBlocks t e2.
Proof.
  intros Hsame. apply map_eq. intros b. apply option_eq. intros ups'.
  rewrite !keptBlocks_lookup_default. by rewrite Hsame.
Qed.

Lemma rolledBack_incl t (M1 M2 : PersistedContextHistory) i e' :
  (∀ i b, filter (upTo t) (editsAt M1 i b) = filter (upTo t) (editsAt M2 i b)) →
  (∀ i e1 e2, M1 !! i = Some e1 → M2 !! i = Some e2 → editType e1 = editType e2) →
  rolledBack t M1 !! i = Some e' → rolledBack t M2 !! i = Some e'.
Proof.
  intros Hedits Htypes Hi. apply rolledBack_lookup in Hi as (e1 & H1 & Hne & ->).
  apply rolledBack_lookup.
  destruct (M2 !! i) as [e2|] eqn:H2.
  - assert (keptBlocks t e1 = keptBlocks t e2) as Hk.
    { apply keptBlocks_ext. intros b. specialize (Hedits i b).
      unfold editsAt in Hedits. by rewrite H1, H2 in Hedits. }
    exists e2. rewrite <- Hk. repeat split; [done|].
    by rewrite (Htypes i e1 e2 H1 H2).
  - exfalso. apply map_choose in Hne as (b & ups' & Hb).
    apply keptBlocks_lookup_default in Hb as [-> Hne].
    specialize (Hedits i b). unfold editsAt in Hedits. rewrite H1, H2 in Hedits.
    by rewrite Hedits in Hne.
Qed.

(** Rollback sees a log only through its edit lists and entry roles. *)
Lemma rolledBack_ext t (M1 M2 : PersistedContextHistory) :
  (∀ i b, filter (upTo t) (editsAt M1 i b) = filter (upTo t) (editsAt M2 i b)) →
  (∀ i e1 e2, M1 !! i = Some e1 → M2 !! i = Some e2 → editType e1 = editType e2) →
  rolledBack t M1 = rolledBack t M2.
Proof.
  intros Hedits Htypes. apply map_eq. intros i. apply option_eq. intros e'. split.
  - by apply rolledBack_incl.
  - apply rolledBack_incl; [done|]. intros j e1 e2 H1 H2. symmetry. by eapply Htypes.
Qed.

Lemma rolledBack_compose t1 t2 (L : PersistedContextHistory) :
  (t1 ≤ t2)%Z → rolledBack t1 (rolledBack t2 L) = rolledBack t1 L.
Proof.
  intros Ht. apply rolledBack_ext.
  - intros i b. rewrite rolledBack_editsAt. by apply filter_upTo_compose.
  - intros i e1 e2 H1 H2. apply rolledBack_lookup in H1 as (e & He & _ & ->).
    simpl. congruence.
Qed.

(** X7. Rollbacks compose: rolling back to [t2] and then to an earlier
    or equal [t1] leaves the log that rolling back to [t1] directly
    leaves. *)
Theorem rollback_compose (st : ContextManager) (t1 t2 : Z) :
  (t1 ≤ t2)%Z →
  contextHistoryUpdates
    (truncateHistoryUpdatesAtTimestamp (truncateHistoryUpdatesAtTimestamp st t2) t1)
  = contextHistoryUpdates (truncateHistoryUpdatesAtTimestamp st t1).
Proof.
  intros Ht. rewrite !truncateHistoryUpdatesAtTimestamp_log.
  by apply rolledBack_compose.
Qed.

Lemma rolledBack_fixed t (L : PersistedContextHistory) :
  withoutEmpties L →
  (∀ i b u, u ∈ editsAt L i b → (timestamp u ≤ t)%Z) →
  rolledBack t L = L.
Proof.
  intros Hnorm Hall.
  assert (Hkept : ∀ i e, L !! i = Some e → keptBlocks t e = blocks e).
  { intros i e He. apply map_eq. intros b. apply option_eq. intros ups'.
    rewrite keptBlocks_lookup. split.
    - intros (ups & Hb & -> & _). rewrite Hb. f_equal. symmetry. apply filter_upTo_all.
      intros u Hu. apply (Hall i b). unfold editsAt. by rewrite He, Hb.
    - intros Hb. exists ups'. split; [done|].
      assert (filter (upTo t) ups' = ups') as Hf.
      { apply filter_upTo_all. intros u Hu. apply (Hall i b).
        unfold editsAt. by rewrite He, Hb. }
      rewrite Hf. split; [done|]. intros ->.
      by destruct (proj2 (Hnorm i e He) b). }
  apply map_eq. intros i. apply option_eq. intros e'. rewrite rolledBack_lookup. split.
  - intros (e & He & _ & ->). rewrite (Hkept i e He). by destruct e.
  - intros He'. exists e'. rewrite (Hkept i e' He'). split; [done|].
    split; [apply (Hnorm i e' He')|]. by destruct e'.
Qed.

(** X8. A rollback that has nothing to remove is a no-op: when the log
    holds no empty edit list and no entry without blocks, and every edit
    was made at or before [t], the manager is returned as it is and
    nothing is persisted. *)
Theorem rollback_nothing_to_remove (st : ContextManager) (t : Z) :
  withoutEmpties (contextHistoryUpdates st) →
  (∀ i b u, u ∈ editsAt (contextHistoryUpdates st) i b → (timestamp u ≤ t)%Z) →
  truncateHistoryUpdatesAtTimestamp st t = st.
Proof.
  intros Hnorm Hall. unfold truncateHistoryUpdatesAtTimestamp.
  fold (rolledBack t (contextHistoryUpdates st)).
  rewrite rolledBack_fixed by done. by rewrite decide_True.
Qed.

(** X9. The log a rollback leaves has no empty edit list and no entry
    without blocks, and every edit in it was made at or before [t]; so a
    further rollback to any later instant returns the manager as it is. *)
Theorem rollback_result_is_stable (st : ContextManager) (t t' : Z) :
  (t ≤ t')%Z →
  let st1 := truncateHistoryUpdatesAtTimestamp st t in
  withoutEmpties (contextHistoryUpdates st1)
  ∧ (∀ i b u, u ∈ editsAt (contextHistoryUpdates st1) i b → (timestamp u ≤ t)%Z)
  ∧ truncateHistoryUpdatesAtTimestamp st1 t' = st1.
Proof.
  intros Ht st1.
  assert (Hnorm : withoutEmpties (contextHistoryUpdates st1)).
  { subst st1. rewrite truncateHistoryUpdatesAtTimestamp_log.
    intros i e' Hi. apply rolledBack_lookup in Hi as (e & He & Hne & ->). simpl.
    split; [done|]. intros b Hb.
    apply keptBlocks_lookup in Hb as (ups & _ & _ & Hnil). done. }
  assert (Hall : ∀ i b u, u ∈ editsAt (contextHistoryUpdates st1) i b
                          → (timestamp u ≤ t)%Z).
  { subst st1. rewrite truncateHistoryUpdatesAtTimestamp_log. intros i b u Hu.
    rewrite rolledBack_editsAt in Hu. by apply list_elem_of_filter in Hu as [Hu _]. }
  split; [done|]. split; [done|].
  unfold truncateHistoryUpdatesAtTimestamp at 1.
  fold (rolledBack t' (contextHistoryUpdates st1)).
  rewrite rolledBack_fixed; [by rewrite decide_True|done|].
  intros i b u Hu. specialize (Hall i b u Hu). lia.
Qed.

End RollbackAlgebra.

Lemma rollback_compose_witness :
  contextHistoryUpdates
    (truncateHistoryUpdatesAtTimestamp
       (truncateHistoryUpdatesAtTimestamp (managerWith threeEdits) 2) 1)
  = contextHistoryUpdates (truncateHistoryUpdatesAtTimestamp (managerWith threeEdits) 1).
Proof.
  apply (rollback_compose (managerWith threeEdits) 1 2). lia.
Defined.

Lemma rollback_nothing_to_remove_witness :
  truncateHistoryUpdatesAtTimestamp
    (managerWith {[ 0%nat := mkEntry user {[ 0%nat := [replaceEdit 1 "Update 1"] ]} ]}) 5
  = managerWith {[ 0%nat := mkEntry user {[ 0%nat := [replaceEdit 1 "Update 1"] ]} ]}.
Proof.
  apply rollback_nothing_to_remove.
  - intros i e. simpl. intros He.
    apply lookup_singleton_Some in He as [<- <-]. simpl. split.
    + apply map_non_empty_singleton.
    + intros b Hb. apply lookup_singleton_Some in Hb as [_ Hb]. discriminate Hb.
  - intros i b u. simpl. unfold editsAt. intros Hu.
    destruct (decide (i = 0%nat)) as [->|Hi].
    + rewrite lookup_singleton_eq in Hu. simpl in Hu.
      destruct (decide (b = 0%nat)) as [->|Hb].
      * rewrite lookup_singleton_eq in Hu. simpl in Hu.
        apply list_elem_of_singleton in Hu. subst u. simpl. lia.
      * rewrite lookup_singleton_ne in Hu by done. simpl in Hu.
        by apply elem_of_nil in Hu.
    + rewrite lookup_singleton_ne in Hu by done. by apply elem_of_nil in Hu.
Defined.

Lemma rollback_result_is_stable_witness :
  truncateHistoryUpdatesAtTimestamp
    (truncateHistoryUpdatesAtTimestamp (managerWith threeEdits) 2) 7
  = truncateHistoryUpdatesAtTimestamp (managerWith threeEdits) 2.
Proof.
  apply (rollback_result_is_stable (managerWith threeEdits) 2 7 ltac:(lia)).
Defined.

(** ** The elider and the entries of the log *)

Section ElidedEntries.
Context `{Collaborators}.

Lemma elideOccurrence_lookup_ne raw now path (M : PersistedContextHistory) o i :
  i ≠ messageIndex o → elideOccurrence raw now path M o !! i = M !! i.
Proof.
  intros Hi. unfold elideOccurrence.
  destruct (M !! messageIndex o) as [e|].
  - destruct (elisionPayload _ _ _ _). by rewrite lookup_insert_ne.
  - destruct (raw !! messageIndex o) as [m|]; [|done].
    destruct (elisionPayload _ _ _ _). by rewrite lookup_insert_ne.
Qed.

Lemma elideOccurrence_lookup_eq raw now path (M : PersistedContextHistory) o :
  occurrenceIn raw o →
  ∃ e', elideOccurrence raw now path M o !! messageIndex o = Some e'
        ∧ editType e' = match M !! messageIndex o with
                         | Some e => editType e
                         | None => user
                         end.
Proof.
  intros (message & bs & text & Hraw & Hrole & _). unfold elideOccurrence. rewrite Hraw.
  destruct (M !! messageIndex o) as [e|].
  - destruct (elisionPayload _ _ _ _). rewrite lookup_insert_eq. by eexists.
  - destruct (elisionPayload _ _ _ _). rewrite lookup_insert_eq. by eexists.
Qed.

Lemma elideOccurrence_grownFrom raw now path L (M : PersistedContextHistory) o :
  occurrenceIn raw o → grownFrom raw L M →
  grownFrom raw L (elideOccurrence raw now path M o).
Proof.
  intros Ho [Hold Hnew].
  destruct (elideOccurrence_lookup_eq raw now path M o Ho) as (e1 & He1 & Hty).
  split.
  - intros i e He. destruct (decide (i = messageIndex o)) as [->|Hi].
    + destruct (Hold _ _ He) as (e' & He' & <-). rewrite He' in Hty. by exists e1.
    + rewrite elideOccurrence_lookup_ne by done. by apply Hold.
  - intros i e' He' HL. destruct (decide (i = messageIndex o)) as [->|Hi].
    + rewrite He1 in He'. simplify_eq.
      destruct (M !! messageIndex o) as [e|] eqn:HM.
      * rewrite Hty. by apply (Hnew _ e).
      * split; [done|]. destruct Ho as (m & bs & text & Hraw & Hrole & _).
        by exists m.
    + rewrite elideOccurrence_lookup_ne in He' by done. by apply Hnew.
Qed.

Lemma applyOptimizations_grownFrom raw (L : PersistedContextHistory) now :
  grownFrom raw L (applyOptimizations raw L now).
Proof.
  pose proof (nonFinalOccurrences_in raw) as Hin. rewrite Forall_forall in Hin.
  unfold applyOptimizations. apply foldl_invariant.
  - split; [intros i e He; by exists e|]. intros i e' He' HL. congruence.
  - intros M entry Hentry HM. rewrite elidePath_nonFinal.
    apply foldl_invariant; [done|]. intros M' o Ho HM'.
    apply elideOccurrence_grownFrom; [|done]. apply Hin.
    unfold nonFinalOccurrences. apply elem_of_flat_map. by exists entry.
Qed.

(** X10. Entries and roles under elision: the elider removes no entry
    and changes no entry's [editType]; an entry it creates is for a user
    message of the raw history and says so. Hence a log that names the
    role of every message it points at still does after elision. *)
Theorem elider_keeps_entry_roles (raw : list MessageParam)
    (L : PersistedContextHistory) (now : Z) :
  let L' := applyOptimizations raw L now in
  (∀ i e, L !! i = Some e → ∃ e', L' !! i = Some e' ∧ editType e' = editType e)
  ∧ (∀ i e', L' !! i = Some e' → L !! i = None →
       editType e' = user ∧ ∃ m, raw !! i = Some m ∧ role m = user)
  ∧ (rolesAgree L raw → rolesAgree L' raw).
Proof.
  intros L'. destruct (applyOptimizations_grownFrom raw L now) as [Hold Hnew].
  split; [done|]. split; [done|].
  intros HL i e' He'. destruct (L !! i) as [e|] eqn:Hi.
  - destruct (Hold i e Hi) as (e1 & He1 & Hty). fold L' in He1.
    destruct (HL i e Hi) as (m & Hm & Hrole). exists m. split; [done|]. congruence.
  - destruct (Hnew i e' He' Hi) as (Hty & m & Hm & Hrole). exists m.
    split; [done|]. congruence.
Qed.

Lemma elidePath_single raw now (M : PersistedContextHistory) entry :
  (length entry.2 ≤ 1)%nat → elidePath raw now M entry = M.
Proof. destruct entry as [path os]. unfold elidePath. simpl. intros. by rewrite decide_True. Qed.

(** X11. No repeated read, no edit: when every path the scan finds
    occurs once, the elider returns the log it was given. *)
Theorem elider_without_duplicates (raw : list MessageParam)
    (L : PersistedContextHistory) (now : Z) :
  (∀ path occurrences,
     (path, occurrences) ∈ findDuplicateFileReads raw → (length occurrences ≤ 1)%nat) →
  applyOptimizations raw L now = L.
Proof.
  intros Hsingle. unfold applyOptimizations.
  apply (foldl_invariant (λ M, M = L)); [done|].
  intros M [path os] Hin ->. apply elidePath_single. simpl. by eapply Hsingle.
Qed.

(** X12. Rollback undoes elision: after a call of [processHistoryForApi]
    that does not truncate, rolling back to an instant before the call's
    clock reading leaves the log that the same rollback leaves when
    applied before the call. *)
Theorem rollback_undoes_elision (st : ContextManager) (raw : list MessageParam)
    (P nowOptimize nowTruncate t : Z) :
  (inject_Z P <= maxTokensForContext st)%Q → (t < nowOptimize)%Z →
  contextHistoryUpdates
    (truncateHistoryUpdatesAtTimestamp
       (processHistoryForApi st raw P nowOptimize nowTruncate).2 t)
  = contextHistoryUpdates (truncateHistoryUpdatesAtTimestamp st t).
Proof.
  intros HP Ht. rewrite !truncateHistoryUpdatesAtTimestamp_log.
  assert (Hlog : contextHistoryUpdates (processHistoryForApi st raw P nowOptimize nowTruncate).2
                 = contextHistoryUpdates st
                 ∨ contextHistoryUpdates (processHistoryForApi st raw P nowOptimize nowTruncate).2
                   = applyOptimizations raw (contextHistoryUpdates st) nowOptimize).
  { unfold processHistoryForApi. destruct (Qle_bool _ _); simpl; [by left|].
    rewrite applyTruncation_within_limit by done. simpl.
    case_decide; [by left|by right]. }
  destruct Hlog as [->| ->]; [done|].
  apply rolledBack_ext.
  - intros i b.
    destruct (applyOptimizations_editsAt raw (contextHistoryUpdates st) nowOptimize i b)
      as (new & -> & _ & Hnew).
    rewrite filter_app.
    assert (filter (λ u, (timestamp u ≤ t)%Z) new = []) as ->; [|by rewrite app_nil_r].
    induction Hnew as [|u new [Hts _] _ IH]; [done|].
    rewrite filter_cons_False by (rewrite Hts; lia). done.
  - intros i e1 e2 H1 H2.
    destruct (applyOptimizations_grownFrom raw (contextHistoryUpdates st) nowOptimize)
      as [Hold _].
    destruct (Hold i e2 H2) as (e' & He' & Hty). congruence.
Qed.

End ElidedEntries.

Lemma elider_keeps_entry_roles_witness :
  rolesAgree (applyOptimizations twoMentions threeEdits 9) twoMentions.
Proof.
  apply (proj2 (proj2 (elider_keeps_entry_roles twoMentions threeEdits 9))).
  intros i e He. unfold threeEdits in He.
  apply lookup_insert_Some in He as [[<- <-]|[_ He]].
  - eexists. split; reflexivity.
  - apply lookup_singleton_Some in He as [<- <-]. eexists. split; reflexivity.
Defined.

Lemma elider_without_duplicates_witness :
  applyOptimizations oneMention threeEdits 9 = threeEdits.
Proof.
  apply elider_without_duplicates.
  intros path occurrences Hin.
  let scanned := eval vm_compute in (findDuplicateFileReads oneMention) in
  change (findDuplicateFileReads oneMention) with scanned in Hin.
  apply list_elem_of_singleton in Hin. injection Hin as _ ->. simpl. lia.
Defined.

Lemma rollback_undoes_elision_witness :
  contextHistoryUpdates
    (truncateHistoryUpdatesAtTimestamp
       (processHistoryForApi (managerWith threeEdits) twoMentions 0 9 10).2 5)
  = contextHistoryUpdates (truncateHistoryUpdatesAtTimestamp (managerWith threeEdits) 5).
Proof.
  apply rollback_undoes_elision.
  - vm_compute. intros Hgt. discriminate Hgt.
  - lia.
Defined.

(** ** More on the truncator *)

Section TruncatorMore.
Context `{Collaborators}.

Lemma applyTruncation_cases φ H0 (L : PersistedContextHistory) maxTokens P now :
  (truncatedHistory (applyTruncation φ H0 L maxTokens P now) = H0
   ∧ updatedModifications (applyTruncation φ H0 L maxTokens P now) = L)
  ∨ ((maxTokens < inject_Z P)%Q ∧ (2 < length H0)%nat).
Proof.
  unfold applyTruncation.
  destruct (negb (Qle_bool (inject_Z P) maxTokens)) eqn:Hb; [|by left].
  apply not_Qle_bool in Hb. case_decide; [right|by left]. split; [done|lia].
Qed.

(** X13. Truncation never reorders or invents messages: with a fraction
    that is not negative, the history it returns is a subsequence of the
    one it was given, and begins with the same two messages. *)
Theorem truncation_keeps_order (φ : float) (H0 : list MessageParam)
    (L : PersistedContextHistory) (maxTokens : Q) (P now : Z) :
  (0 <=? φ)%float = true →
  let r := applyTruncation φ H0 L maxTokens P now in
  truncatedHistory r `sublist_of` H0
  ∧ take 2 (truncatedHistory r) = take 2 H0.
Proof.
  intros Hφ r. subst r.
  destruct (applyTruncation_cases φ H0 L maxTokens P now) as [[-> _]|[HP Hlen]]; [done|].
  rewrite truncatedHistory_triggered by done. split.
  - set (k := evicted _ _).
    assert (Hsub : take 2 H0 ++ drop (2 + k) H0 `sublist_of` take 2 H0 ++ drop 2 H0).
    { apply sublist_app; [done|]. rewrite <- drop_drop. apply sublist_drop. }
    by rewrite take_drop in Hsub.
  - apply take_app_length'. rewrite length_take. lia.
Qed.

(** X14. A triggered truncation makes progress: on a history of more
    than two messages, with a fraction above zero, at least one message
    is evicted; with a fraction of one or more, only the first pair
    remains, the number of messages being below [2^53], where every
    integer is a double. *)
Theorem truncation_makes_progress (φ : float) (H0 : list MessageParam)
    (L : PersistedContextHistory) (maxTokens : Q) (P now : Z) :
  (0 <? φ)%float = true → (maxTokens < inject_Z P)%Q → (2 < length H0)%nat →
  let r := applyTruncation φ H0 L maxTokens P now in
  (2 ≤ length (truncatedHistory r) < length H0)%nat
  ∧ ((1 <=? φ)%float = true → (Z.of_nat (length H0) < 2 ^ 53)%Z →
     truncatedHistory r = take 2 H0).
Proof.
  intros Hφ HP Hlen r. subst r.
  rewrite truncatedHistory_triggered by (done || by apply ltb_leb_zero).
  set (n := (Z.of_nat (length H0) - 2)%Z).
  destruct (evicted_spec φ n (ltb_leb_zero φ Hφ)) as [Hcount Hrange]; [subst n; lia|].
  pose proof (evicted_positive φ n Hφ ltac:(subst n; lia)) as Hpos.
  assert (Hl2 : length (take 2 H0) = 2%nat) by (rewrite length_take; lia).
  split.
  - rewrite length_app, Hl2, length_drop. subst n. lia.
  - intros Hone Hsmall.
    assert (evicted φ n = Z.to_nat n) as ->.
    { unfold evicted. by rewrite messagesToRemove_all by (done || subst n; lia). }
    rewrite drop_ge by (subst n; lia). by rewrite app_nil_r.
Qed.

Lemma adjustIndices_low r (M : PersistedContextHistory) k :
  (k < 2)%nat → adjustIndices r M !! k = M !! k.
Proof.
  intros Hk. apply option_eq. intros e. rewrite adjustIndices_lookup. split.
  - intros (j & Hj & Hkey). unfold rekey in Hkey.
    destruct r; repeat case_decide; simplify_eq; first [done|lia].
  - intros Hj. exists k. split; [done|]. unfold rekey. rewrite decide_True by lia. done.
Qed.

Lemma endsWithNotice_snoc l now :
  endsWithNotice (l ++ [mkUpdate now add_truncation_notice None None]) = true.
Proof. unfold endsWithNotice. by rewrite last_snoc. Qed.

Lemma addTruncationNotice_first_assistant H0 T (M : PersistedContextHistory) now :
  (1 < length T)%nat →
  (is_Some (M !! 1%nat) ∨ ∃ m, H0 !! 1%nat = Some m ∧ role m = assistant) →
  editsAt (addTruncationNotice H0 T M now) 1 0
  = if endsWithNotice (editsAt M 1 0) then editsAt M 1 0
    else editsAt M 1 0 ++ [mkUpdate now add_truncation_notice None None].
Proof.
  intros HT Hentry. unfold addTruncationNotice. rewrite decide_True by done.
  unfold editsAt at 2 3 4, endsWithNotice.
  destruct (M !! 1%nat) as [e|] eqn:HM.
  - unfold editsAt. rewrite lookup_insert_eq. simpl. rewrite lookup_insert_eq. simpl.
    destruct (last (default [] (blocks e !! 0%nat))) as [u|]; [|done].
    by destruct (bool_decide _).
  - destruct Hentry as [[? ?]|(m & -> & Hrole)]; [done|].
    rewrite decide_True by done.
    unfold editsAt. rewrite lookup_insert_eq. simpl. by rewrite lookup_insert_eq.
Qed.

(** X15. One notice, never two in a row: when a truncation is triggered
    on more than two messages and the log has an entry for message 1 or
    that message is an assistant message, the edits of (1, 0) afterwards
    are the earlier ones if they already end with a notice, and the
    earlier ones followed by one notice stamped with the call's clock
    reading otherwise. When there is no entry and message 1 is a user
    message, no entry is made for it. *)
Theorem truncation_records_one_notice φ (H0 : list MessageParam)
    (L : PersistedContextHistory) (maxTokens : Q) (P now : Z) :
  (maxTokens < inject_Z P)%Q → (2 < length H0)%nat →
  let L' := updatedModifications (applyTruncation φ H0 L maxTokens P now) in
  ((is_Some (L !! 1%nat) ∨ ∃ m, H0 !! 1%nat = Some m ∧ role m = assistant) →
     editsAt L' 1 0
     = (if endsWithNotice (editsAt L 1 0) then editsAt L 1 0
        else editsAt L 1 0 ++ [mkUpdate now add_truncation_notice None None])
     ∧ endsWithNotice (editsAt L' 1 0) = true)
  ∧ (L !! 1%nat = None → (∃ m, H0 !! 1%nat = Some m ∧ role m = user) →
     L' !! 1%nat = None).
Proof.
  intros HP Hlen L'. subst L'. rewrite applyTruncation_triggered by done. simpl.
  set (T := take 2 H0 ++ _).
  assert (HT : (1 < length T)%nat).
  { subst T. rewrite length_app, length_take. lia. }
  split.
  - intros Hentry.
    assert (Hedits : editsAt (adjustIndices
                       (messagesToRemove φ (Z.of_nat (length H0) - 2))
                       (addTruncationNotice H0 T L now)) 1 0
                     = editsAt (addTruncationNotice H0 T L now) 1 0).
    { unfold editsAt. by rewrite adjustIndices_low by lia. }
    rewrite Hedits, addTruncationNotice_first_assistant by done.
    split; [done|].
    destruct (endsWithNotice (editsAt L 1 0)) eqn:Hends; [done|].
    apply endsWithNotice_snoc.
  - intros HL (m & Hm & Hrole). rewrite adjustIndices_low by lia.
    unfold addTruncationNotice. rewrite decide_True by done.
    rewrite HL, Hm. rewrite decide_False by congruence. done.
Qed.

(** X24. Eviction window: a truncation triggered on more than two
    messages, with a fraction that is not negative, evicts the
    contiguous range that starts at index 2: the first two messages
    stay, the rest of the result is the suffix of the history after the
    range, and the history is shorter by the count. The count is no more
    than the number of messages after the first pair, and it is even
    unless it is that number, so it is even whenever that number is. *)
Theorem eviction_window (φ : float) (H0 : list MessageParam) (L : PersistedContextHistory)
    (maxTokens : Q) (P now : Z) :
  (0 <=? φ)%float = true → (maxTokens < inject_Z P)%Q → (2 < length H0)%nat →
  let n := (Z.of_nat (length H0) - 2)%Z in
  let remove := evicted φ n in
  let r := applyTruncation φ H0 L maxTokens P now in
  messagesToRemove φ n = Integer (Z.of_nat remove)
  ∧ (Z.of_nat remove ≤ n)%Z
  ∧ take 2 (truncatedHistory r) = take 2 H0
  ∧ drop 2 (truncatedHistory r) = drop (2 + remove) H0
  ∧ (length H0 - length (truncatedHistory r) = remove)%nat
  ∧ (Nat.even remove = true ∨ Z.of_nat remove = n)
  ∧ (Z.even n = true → Nat.even remove = true).
Proof.
  intros Hφ HP Hlen n remove r.
  destruct (evicted_spec φ n Hφ) as [Hcount Hrange]; [subst n; lia|].
  fold remove in Hcount, Hrange.
  assert (Hr : truncatedHistory r = take 2 H0 ++ drop (2 + remove) H0)
    by (by apply truncatedHistory_triggered).
  assert (Hl2 : length (take 2 H0) = 2%nat) by (rewrite length_take; lia).
  pose proof (evicted_parity φ n Hφ ltac:(subst n; lia)) as Hpar. fold remove in Hpar.
  split; [done|]. split; [done|]. split; [|split; [|split; [|split]]].
  - rewrite Hr. by rewrite take_app_length'.
  - rewrite Hr. by rewrite drop_app_length'.
  - rewrite Hr, length_app, Hl2, length_drop. subst n. lia.
  - done.
  - intros Hn. destruct Hpar as [|Heq]; [done|].
    rewrite <- Heq in Hn. by rewrite even_of_nat in Hn.
Qed.

End TruncatorMore.

Lemma truncation_keeps_order_witness :
  take 2 (truncatedHistory (applyTruncation 0.75 (alternating 6) ∅ 13 21 0))
  = take 2 (alternating 6).
Proof.
  apply (truncation_keeps_order 0.75 (alternating 6) ∅ 13 21 0).
  reflexivity.
Defined.

Lemma truncation_makes_progress_witness :
  truncatedHistory (applyTruncation 1 (alternating 3) ∅ 13 21 0)
  = take 2 (alternating 3).
Proof.
  refine (proj2 (truncation_makes_progress 1 (alternating 3) ∅ 13 21 0 _ _ _) _ _).
  - reflexivity.
  - unfold Qlt. simpl. lia.
  - simpl. lia.
  - reflexivity.
  - simpl. lia.
Defined.

Lemma eviction_window_witness :
  let r := applyTruncation 0.5 (alternating 5) ∅ 13 21 0 in
  drop 2 (truncatedHistory r) = drop 6 (alternating 5).
Proof.
  pose proof (eviction_window 0.5 (alternating 5) ∅ 13 21 0) as Hw.
  simpl in Hw. apply Hw.
  - reflexivity.
  - unfold Qlt. simpl. lia.
  - lia.
Defined.

Lemma truncation_records_one_notice_witness :
  endsWithNotice
    (editsAt (updatedModifications (applyTruncation 0.5 (alternating 5) ∅ 13 21 7))
       1 0) = true.
Proof.
  refine (proj2 (proj1 (truncation_records_one_notice 0.5 (alternating 5) ∅ 13 21 7
                          _ _) _)).
  - unfold Qlt. simpl. lia.
  - simpl. lia.
  - right. eexists. split; reflexivity.
Defined.

(** ** The two patterns of the scan *)

Section Patterns.

Lemma append_String c a b : String c a +:+ b = String c (a +:+ b).
Proof. reflexivity. Qed.

Lemma append_empty_l a : EmptyString +:+ a = a.
Proof. reflexivity. Qed.

Lemma append_empty_r a : a +:+ EmptyString = a.
Proof. induction a as [|c a IH]; [done|]. by rewrite append_String, IH. Qed.

Lemma append_assoc a b c : (a +:+ b) +:+ c = a +:+ (b +:+ c).
Proof. induction a as [|x a IH]; [done|]. by rewrite !append_String, IH. Qed.

Lemma stripPrefix_spec p s r : Js.stripPrefix p s = Some r ↔ s = p +:+ r.
Proof.
  revert s. induction p as [|a p IH]; intros s; simpl.
  - rewrite append_empty_l. split; [by intros [= ->]|by intros ->].
  - destruct s as [|b s]; [done|]. rewrite append_String. case_decide as Hab.
    + subst b. rewrite IH. split; [by intros ->|by intros [= ->]].
    + split; [done|]. intros [= -> _]. done.
Qed.

Lemma stripPrefix_app p r : Js.stripPrefix p (p +:+ r) = Some r.
Proof. by apply stripPrefix_spec. Qed.

Lemma splitAt_sound p s a b : Js.splitAt p s = Some (a, b) → s = a +:+ p +:+ b.
Proof.
  revert a. induction s as [|c s IH]; intros a; simpl.
  - destruct (Js.stripPrefix p EmptyString) as [r|] eqn:Hp; [|done].
    intros [= <- <-]. by apply stripPrefix_spec in Hp.
  - destruct (Js.stripPrefix p (String c s)) as [r|] eqn:Hp.
    + intros [= <- <-]. by apply stripPrefix_spec in Hp.
    + destruct (Js.splitAt p s) as [[a' b']|]; [|done].
      intros [= <- <-]. rewrite append_String. f_equal. by apply IH.
Qed.

Lemma splitAt_complete p a b : is_Some (Js.splitAt p (a +:+ p +:+ b)).
Proof.
  induction a as [|c a IH].
  - rewrite append_empty_l.
    destruct (p +:+ b) as [|x y] eqn:Hpb; simpl;
      rewrite <- Hpb, stripPrefix_app; by eexists.
  - rewrite append_String. simpl.
    destruct (Js.stripPrefix p _); [by eexists|].
    destruct IH as [[a' b'] ->]. by eexists.
Qed.

(** Splitting at a one-character pattern stops at its first occurrence. *)
Lemma splitAt_char c s a b :
  Js.splitAt (String c EmptyString) s = Some (a, b)
  ↔ s = a +:+ String c b ∧ hasChar c a = false.
Proof.
  revert a. induction s as [|x s IH]; intros a; simpl.
  - split; [done|]. intros [Hs _]. by destruct a.
  - assert (Hrec : ∀ y a', x ≠ c →
              String x s = String y a' +:+ String c b →
              hasChar c (String y a') = false →
              Js.splitAt (String c EmptyString) s = Some (a', b) ∧ y = x).
    { intros y a' Hxc Hs Ha. rewrite append_String in Hs. injection Hs as -> ->.
      simpl in Ha. rewrite decide_False in Ha by done. split; [|done]. by apply IH. }
    case_decide as Hx.
    + subst x. split.
      * intros [= <- <-]. split; [by rewrite append_empty_l|done].
      * intros [Hs Ha]. destruct a as [|y a].
        -- rewrite append_empty_l in Hs. by injection Hs as ->.
        -- rewrite append_String in Hs. injection Hs as -> _.
           simpl in Ha. by rewrite decide_True in Ha.
    + destruct (Js.splitAt (String c EmptyString) s) as [[a' b']|] eqn:Hsplit.
      * split.
        -- intros [= <- <-]. destruct (proj1 (IH a') eq_refl) as [-> Ha'].
           split; [by rewrite append_String|].
           simpl. by rewrite decide_False by congruence.
        -- intros [Hs Ha]. destruct a as [|y a].
           ++ rewrite append_empty_l in Hs. injection Hs as -> _. done.
           ++ destruct (Hrec y a ltac:(congruence) Hs Ha) as [Hgoal ->].
              by simplify_eq.
      * split; [done|]. intros [Hs Ha]. destruct a as [|y a].
        -- rewrite append_empty_l in Hs. injection Hs as -> _. done.
        -- destruct (Hrec y a ltac:(congruence) Hs Ha) as [Hgoal _]. done.
Qed.

(** X16. What the tool-result pattern accepts: a text is matched with
    path [p] exactly when it is [[read_file for 'p'] Result:] with [p]
    not empty and free of single quotes; nothing may precede or follow
    it. *)
Theorem toolMatch_spec (text path : string) :
  toolMatch text = Some path
  ↔ text = toolOpen +:+ path +:+ String quoteChar toolClose
    ∧ path ≠ EmptyString ∧ hasChar quoteChar path = false.
Proof.
  unfold toolMatch. split.
  - destruct (Js.stripPrefix toolOpen text) as [rest|] eqn:Hopen; [|done].
    apply stripPrefix_spec in Hopen.
    destruct (Js.splitAt _ rest) as [[p after]|] eqn:Hsplit; [|done].
    apply (splitAt_char quoteChar) in Hsplit as [-> Hp].
    destruct (Js.truthy p) eqn:Htruthy; [|done]. simpl.
    case_bool_decide as Hafter; [|done]. intros [= ->]. subst after text.
    split; [done|]. split; [|done]. by destruct path.
  - intros (-> & Hne & Hq). rewrite stripPrefix_app.
    assert (Js.splitAt (String quoteChar EmptyString) (path +:+ String quoteChar toolClose)
            = Some (path, toolClose)) as Hsplit by (by apply splitAt_char).
    unfold quoteChar in *. rewrite Hsplit.
    destruct path; [done|]. simpl. done.
Qed.

Lemma mentionAt_sound s path full :
  mentionAt s = Some (path, full) →
  hasChar dquoteChar path = false
  ∧ (∃ body, full = mention path body)
  ∧ ∃ rest, s = full +:+ rest.
Proof.
  unfold mentionAt.
  destruct (Js.stripPrefix mentionOpen s) as [rest|] eqn:Hopen; [|done].
  apply stripPrefix_spec in Hopen.
  destruct (Js.splitAt dquote rest) as [[p afterQuote]|] eqn:Hq; [|done].
  apply (splitAt_char dquoteChar) in Hq as [-> Hp].
  destruct (Js.stripPrefix _ afterQuote) as [afterOpen|] eqn:Hgt; [|done].
  apply stripPrefix_spec in Hgt.
  destruct (Js.splitAt mentionClose afterOpen) as [[body rest]|] eqn:Hclose; [|done].
  apply splitAt_sound in Hclose. intros [= -> <-].
  split; [done|]. split; [by exists body|]. exists rest.
  subst s afterQuote afterOpen. unfold mentionOpenEnd, dquote.
  rewrite !append_assoc. done.
Qed.

Lemma mentionMatchesFrom_sound skip s path full :
  (path, full) ∈ mentionMatchesFrom skip s →
  hasChar dquoteChar path = false
  ∧ (∃ body, full = mention path body)
  ∧ ∃ before after, s = before +:+ full +:+ after.
Proof.
  revert skip. induction s as [|c s IH]; intros skip Hin; simpl in Hin.
  { by apply elem_of_nil in Hin. }
  assert (Hlater : ∀ k, (path, full) ∈ mentionMatchesFrom k s →
            hasChar dquoteChar path = false
            ∧ (∃ body, full = mention path body)
            ∧ ∃ before after, String c s = before +:+ full +:+ after).
  { intros k Hk. destruct (IH k Hk) as (Hp & Hbody & before & after & ->).
    split; [done|]. split; [done|]. by exists (String c before), after. }
  destruct skip as [|k]; [|by eapply Hlater].
  destruct (mentionAt (String c s)) as [[p f]|] eqn:Hat; [|by eapply Hlater].
  apply elem_of_cons in Hin as [[= -> ->]|Hin]; [|by eapply Hlater].
  destruct (mentionAt_sound _ _ _ Hat) as (Hp & Hbody & rest & Hs).
  split; [done|]. split; [done|]. exists EmptyString, rest. by rewrite append_empty_l.
Qed.

(** X17. What the mention scan reports: every match is a canonical
    mention [<file_content path="p">body</file_content>] of its path,
    the path holds no double quote, and the match is a substring of the
    scanned text, so that replacing it in that text finds it. *)
Theorem mentionMatches_sound (text path full : string) :
  (path, full) ∈ mentionMatches text →
  hasChar dquoteChar path = false
  ∧ (∃ body, full = mention path body)
  ∧ (∃ before after, text = before +:+ full +:+ after)
  ∧ is_Some (Js.splitAt full text).
Proof.
  intros Hin. destruct (mentionMatchesFrom_sound 0 text path full Hin)
    as (Hp & Hbody & before & after & Htext).
  split; [done|]. split; [done|]. split; [by exists before, after|].
  rewrite Htext. apply splitAt_complete.
Qed.

End Patterns.

Lemma mentionMatches_sound_witness :
  is_Some (Js.splitAt (mention "a.ts" "X") ("A " +:+ mention "a.ts" "X")).
Proof.
  apply (mentionMatches_sound ("A " +:+ mention "a.ts" "X") "a.ts" (mention "a.ts" "X")).
  vm_compute. apply list_elem_of_here.
Defined.

(** ** The scan result *)

Section ScanResult.

Lemma pushOccurrence_keys fr o p :
  p ∈ (pushOccurrence fr o).*1 ↔ p = filePath o ∨ p ∈ fr.*1.
Proof.
  induction fr as [|[q os] fr IH]; simpl.
  - rewrite list_elem_of_singleton, elem_of_nil. tauto.
  - case_decide as Hq; simpl; rewrite !elem_of_cons.
    + subst q. tauto.
    + rewrite IH. tauto.
Qed.

Lemma pushOccurrence_keyedByPath fr o :
  keyedByPath fr → keyedByPath (pushOccurrence fr o).
Proof.
  intros [Hnd Hgroups]. induction fr as [|[q os] fr IH]; simpl.
  - split; [apply NoDup_singleton|].
    intros path occs Hin. apply list_elem_of_singleton in Hin as [= -> ->].
    split; [done|]. by apply Forall_singleton.
  - simpl in Hnd. apply NoDup_cons in Hnd as [Hq Hnd].
    assert (Hrest : ∀ path occs, (path, occs) ∈ fr →
              occs ≠ [] ∧ Forall (λ o, filePath o = path) occs).
    { intros path occs Hin. apply Hgroups. by right. }
    destruct (Hgroups q os ltac:(by left)) as [Hne Hall].
    case_decide as Hqo; simpl.
    + split; [by apply NoDup_cons|].
      intros path occs [[= -> ->]|Hin]%elem_of_cons; [|by apply Hrest].
      split; [by destruct os|]. apply Forall_app. split; [done|].
      by apply Forall_singleton.
    + destruct (IH Hnd Hrest) as [Hnd' Hgroups']. split.
      * apply NoDup_cons. split; [|done]. simpl.
        intros [Heq|Hin]%pushOccurrence_keys; [by apply Hqo|by apply Hq].
      * intros path occs [[= -> ->]|Hin]%elem_of_cons; [done|by apply Hgroups'].
Qed.

(** X18. What the scan returns: every occurrence points at a text block
    of a user message of the history, so assistant messages and messages
    whose content is a bare string contribute nothing; the result has one
    group per path, no group is empty, and every occurrence is filed
    under its own path. *)
Theorem findDuplicateFileReads_sound (history : list MessageParam) :
  Forall (occurrenceIn history) (allOccurrences (findDuplicateFileReads history))
  ∧ keyedByPath (findDuplicateFileReads history).
Proof.
  split; [apply findDuplicateFileReads_occurrences|].
  unfold findDuplicateFileReads. apply foldl_invariant.
  - split; [constructor|]. intros path occs Hin. by apply elem_of_nil in Hin.
  - intros fr [mi message] _ Hfr. unfold scanMessage.
    destruct (role message); [|done]. destruct (content message) as [|bs]; [done|].
    apply foldl_invariant; [done|]. intros fr' [bi block] _ Hfr'. unfold scanBlock.
    destruct block as [text| | |]; try done.
    apply foldl_invariant.
    + case_decide; [|done]. destruct (toolMatch text); [|done].
      destruct (bs !! (bi + 1)%nat) as [[?| | |]|]; try done.
      by apply pushOccurrence_keyedByPath.
    + intros fr'' pm _ Hfr''. by apply pushOccurrence_keyedByPath.
Qed.

End ScanResult.

(** ** More on the facade *)

Section FacadeMore.
Context `{Collaborators}.

Lemma role_applyAt (L : PersistedContextHistory) i m : role (applyAt L i m) = role m.
Proof.
  unfold applyAt, applyToMessage. destruct (L !! i); [|done].
  by destruct (content m).
Qed.

Lemma rolesAgree_applier (L L2 : PersistedContextHistory) h :
  rolesAgree L h → rolesAgree L (applyModificationsToHistory h L2).
Proof.
  intros HL i e He. destruct (HL i e He) as (m & Hm & Hrole).
  exists (applyAt L2 i m). rewrite applyModificationsToHistory_lookup, Hm.
  split; [done|]. by rewrite role_applyAt.
Qed.

Lemma addTruncationNotice_rolesAgree H0 T (M : PersistedContextHistory) now :
  rolesAgree M H0 → rolesAgree (addTruncationNotice H0 T M now) H0.
Proof.
  intros HM i e He. destruct (decide (i = 1%nat)) as [->|Hi].
  2:{ rewrite addTruncationNotice_lookup_ne in He by done. by apply HM. }
  revert He. unfold addTruncationNotice. case_decide as HT; [|by apply HM].
  destruct (M !! 1%nat) as [e1|] eqn:HM1.
  - rewrite lookup_insert_eq. intros [= <-]. simpl. by apply HM.
  - destruct (H0 !! 1%nat) as [m|] eqn:Hm; [|by rewrite HM1].
    case_decide as Hrole; [|by rewrite HM1].
    rewrite lookup_insert_eq. intros [= <-]. simpl. by exists m.
Qed.

Lemma adjustIndices_rolesAgree (r : nat) (M : PersistedContextHistory) H0 :
  (2 ≤ length H0)%nat → rolesAgree M H0 →
  rolesAgree (adjustIndices (Integer (Z.of_nat r)) M) (take 2 H0 ++ drop (2 + r) H0).
Proof.
  intros Hlen HM k e Hk. apply adjustIndices_lookup in Hk as (j & Hj & Hkey).
  destruct (HM j e Hj) as (m & Hm & Hrole). exists m. split; [|done].
  assert (Hl2 : length (take 2 H0) = 2%nat) by (rewrite length_take; lia).
  apply rekey_nonneg in Hkey as [[Hlt ->]|[Hge ->]].
  - rewrite lookup_app_l by lia. by rewrite lookup_take_lt.
  - rewrite lookup_app_r by lia. rewrite lookup_drop, Hl2. rewrite <- Hm. f_equal. lia.
Qed.

Lemma applyTruncation_rolesAgree φ H0 (L : PersistedContextHistory) maxTokens P now :
  (0 <=? φ)%float = true → rolesAgree L H0 →
  rolesAgree (updatedModifications (applyTruncation φ H0 L maxTokens P now))
    (truncatedHistory (applyTruncation φ H0 L maxTokens P now)).
Proof.
  intros Hφ HL.
  destruct (applyTruncation_cases φ H0 L maxTokens P now) as [[-> ->]|[HP Hlen]]; [done|].
  destruct (evicted_spec φ (Z.of_nat (length H0) - 2) Hφ) as [Hcount _]; [lia|].
  rewrite (applyTruncation_evicting _ _ _ _ _ _ _ HP Hlen Hcount). simpl.
  apply adjustIndices_rolesAgree; [lia|]. by apply addTruncationNotice_rolesAgree.
Qed.

Lemma processHistoryForApi_log st raw P o t :
  let run := processHistoryForApi st raw P o t in
  (run = (mkResult raw (contextHistoryUpdates st) (calculateTokens raw) false, st)
   ∧ (maxTokensForContext st <= 0)%Q)
  ∨ (∃ r, r = applyTruncation (truncationPercentage st)
                (applyModificationsToHistory
                   (applyModificationsToHistory raw (contextHistoryUpdates st))
                   (applyOptimizations raw (contextHistoryUpdates st) o))
                (applyOptimizations raw (contextHistoryUpdates st) o)
                (maxTokensForContext st) P t
          ∧ (0 < maxTokensForContext st)%Q
          ∧ processedHistory run.1 = truncatedHistory r
          ∧ resultModifications run.1 = updatedModifications r
          ∧ tokensUsed run.1 = calculateTokens (truncatedHistory r)
          ∧ resultWasTruncated run.1 = wasTruncated r
          ∧ contextHistoryUpdates run.2 = updatedModifications r
          ∧ persisted run.2
            = (if decide (contextHistoryUpdates st = updatedModifications r)
               then persisted st else persisted st ++ [updatedModifications r])).
Proof.
  unfold processHistoryForApi, applyContextHistoryUpdates.
  destruct (Qle_bool (maxTokensForContext st) 0) eqn:Hb.
  - left. split; [done|]. by apply Qle_bool_iff.
  - right. eexists. split; [done|]. split.
    { apply Qnot_le_lt. intros Hle. apply Qle_bool_iff in Hle. congruence. }
    simpl. case_decide as Heq; simpl; [|done]. by rewrite <- Heq.
Qed.

(** X19. Roles stay right end to end: when the live log names the role
    of every raw message it points at and the fraction is not negative,
    then after [processHistoryForApi], whether it elides, truncates and
    re-keys, or returns early, the live log names the role of every
    message of the prepared history it points at; in particular every
    index of the log is an index of the prepared history. *)
Theorem process_keeps_roles (st : ContextManager) (raw : list MessageParam)
    (P nowOptimize nowTruncate : Z) :
  (0 <=? truncationPercentage st)%float = true →
  rolesAgree (contextHistoryUpdates st) raw →
  let run := processHistoryForApi st raw P nowOptimize nowTruncate in
  rolesAgree (contextHistoryUpdates run.2) (processedHistory run.1).
Proof.
  intros Hφ HL run.
  destruct (processHistoryForApi_log st raw P nowOptimize nowTruncate)
    as [[Hrun _]|(r & Hr & _ & Hhist & _ & _ & _ & Hlog & _)].
  - subst run. rewrite Hrun. done.
  - fold run in Hhist, Hlog. rewrite Hhist, Hlog, Hr.
    apply applyTruncation_rolesAgree; [done|].
    do 2 apply rolesAgree_applier.
    destruct (applyOptimizations_grownFrom raw (contextHistoryUpdates st) nowOptimize)
      as [Hold Hnew].
    intros i e' He'. destruct (contextHistoryUpdates st !! i) as [e|] eqn:Hi.
    + destruct (Hold i e Hi) as (e1 & He1 & Hty).
      destruct (HL i e Hi) as (m & Hm & Hrole). exists m. split; [done|]. congruence.
    + destruct (Hnew i e' He' Hi) as (Hty & m & Hm & Hrole). exists m.
      split; [done|]. congruence.
Qed.

(** X20. The result is coherent: the token count returned is the
    estimate of the prepared history returned, the log returned is the
    manager's live log after the call, a call that reports no truncation
    returns as many messages as it was given, and with a fraction that
    is not negative no call returns more. *)
Theorem process_result_coherent (st : ContextManager) (raw : list MessageParam)
    (P nowOptimize nowTruncate : Z) :
  let run := processHistoryForApi st raw P nowOptimize nowTruncate in
  tokensUsed run.1 = calculateTokens (processedHistory run.1)
  ∧ resultModifications run.1 = contextHistoryUpdates run.2
  ∧ (resultWasTruncated run.1 = false → length (processedHistory run.1) = length raw)
  ∧ ((0 <=? truncationPercentage st)%float = true →
     (length (processedHistory run.1) ≤ length raw)%nat).
Proof.
  intros run.
  destruct (processHistoryForApi_log st raw P nowOptimize nowTruncate)
    as [[Hrun _]|(r & Hr & _ & Hhist & Hmods & Htok & Hflag & Hlog & _)].
  - subst run. rewrite Hrun. simpl. repeat split; done || lia.
  - fold run in Hhist, Hmods, Htok, Hflag, Hlog.
    rewrite Hhist, Hmods, Htok, Hflag, Hlog.
    set (Hstar := applyModificationsToHistory _ _) in Hr.
    assert (Hlen : length Hstar = length raw).
    { subst Hstar. by rewrite !applyModificationsToHistory_length. }
    split; [done|]. split; [done|]. split.
    + intros Hfalse. rewrite <- Hlen. subst r. revert Hfalse. unfold applyTruncation.
      destruct (negb _); [|done]. by case_decide.
    + intros Hφ. rewrite <- Hlen. subst r.
      destruct (applyTruncation_cases (truncationPercentage st) Hstar
                  (applyOptimizations raw (contextHistoryUpdates st) nowOptimize)
                  (maxTokensForContext st) P nowTruncate) as [[-> _]|[HP Hl]]; [done|].
      rewrite truncatedHistory_triggered by done.
      rewrite length_app, length_take, length_drop. lia.
Qed.

Lemma applyModificationsToHistory_twice h (L : PersistedContextHistory) :
  applyModificationsToHistory (applyModificationsToHistory h L) L
  = applyModificationsToHistory h L.
Proof.
  apply list_eq. intros i. rewrite !applyModificationsToHistory_lookup.
  destruct (h !! i) as [m|]; [|done]. simpl. by rewrite applyAt_idem.
Qed.

(** X21. Nothing to do, nothing done: on a history where no path is read
    twice, with a positive budget and the previous request within it,
    [processHistoryForApi] returns the raw history with the live log
    applied, reports no truncation, and leaves the manager as it was:
    the log is the same and nothing is persisted. *)
Theorem process_without_duplicates (st : ContextManager) (raw : list MessageParam)
    (P nowOptimize nowTruncate : Z) :
  (∀ path occurrences,
     (path, occurrences) ∈ findDuplicateFileReads raw → (length occurrences ≤ 1)%nat) →
  (0 < maxTokensForContext st)%Q → (inject_Z P <= maxTokensForContext st)%Q →
  processHistoryForApi st raw P nowOptimize nowTruncate
  = (mkResult (applyModificationsToHistory raw (contextHistoryUpdates st))
       (contextHistoryUpdates st)
       (calculateTokens (applyModificationsToHistory raw (contextHistoryUpdates st)))
       false, st).
Proof.
  intros Hsingle Hpos HP. unfold processHistoryForApi, applyContextHistoryUpdates.
  rewrite (Qle_bool_false_lt _ _ Hpos).
  assert (applyOptimizations raw (contextHistoryUpdates st) nowOptimize
          = contextHistoryUpdates st) as ->.
  { apply (foldl_invariant (λ M, M = contextHistoryUpdates st)); [done|].
    intros M [path os] Hin ->. unfold elidePath.
    rewrite decide_True; [done|]. by eapply Hsingle. }
  rewrite applyTruncation_within_limit by done. simpl.
  rewrite decide_True by done. by rewrite applyModificationsToHistory_twice.
Qed.

(** X22. What is stored is what is live: along any sequence of manager
    operations starting from a manager that has stored nothing yet, the
    log most recently handed to the persistence store is the live log;
    while nothing has been stored, the live log is the initial one. *)
Theorem persisted_log_is_live (st0 st : ContextManager) :
  persisted st0 = [] → rtc managerStep st0 st →
  default (contextHistoryUpdates st0) (last (persisted st)) = contextHistoryUpdates st.
Proof.
  intros Hstart Hsteps. revert st Hsteps.
  apply (rtc_ind_r (λ st, default (contextHistoryUpdates st0) (last (persisted st))
                          = contextHistoryUpdates st)).
  - by rewrite Hstart.
  - intros st1 st2 _ Hstep IH. destruct Hstep as [st1 raw P o t|st1 t|st1 newModelInfo].
    + destruct (processHistoryForApi_log st1 raw P o t)
        as [[-> _]|(r & _ & _ & _ & _ & _ & _ & Hlog & Hsaved)]; [done|].
      rewrite Hlog, Hsaved. case_decide as Heq.
      * by rewrite <- Heq.
      * by rewrite last_snoc.
    + unfold truncateHistoryUpdatesAtTimestamp. case_decide as Heq; [done|].
      simpl. by rewrite last_snoc.
    + unfold updateModelInfo. by case_decide.
Qed.

End FacadeMore.

Lemma process_keeps_roles_witness :
  let e9 := mkEntry assistant {[0%nat := [replaceEdit 1 "Modified last response"]]} in
  let run :=
    processHistoryForApi (managerWith {[9%nat := e9]}) (alternating 5) 200000 2 3 in
  rolesAgree (contextHistoryUpdates run.2) (processedHistory run.1).
Proof.
  intros e9. apply process_keeps_roles.
  - reflexivity.
  - intros i e He. simpl in He. apply lookup_singleton_Some in He as [<- <-].
    eexists. split; reflexivity.
Defined.

Lemma process_result_coherent_witness :
  (length (processedHistory (processHistoryForApi freshManager lateMentions 200000 1 2).1)
   ≤ length lateMentions)%nat.
Proof.
  apply (process_result_coherent freshManager lateMentions 200000 1 2).
  reflexivity.
Defined.

Lemma process_without_duplicates_witness :
  processHistoryForApi (managerWith threeEdits) oneMention 0 9 10
  = (mkResult (applyModificationsToHistory oneMention threeEdits) threeEdits
       (calculateTokens (applyModificationsToHistory oneMention threeEdits))
       false, managerWith threeEdits).
Proof.
  apply (process_without_duplicates (managerWith threeEdits) oneMention 0 9 10).
  - intros path occurrences Hin.
    let scanned := eval vm_compute in (findDuplicateFileReads oneMention) in
    change (findDuplicateFileReads oneMention) with scanned in Hin.
    apply list_elem_of_singleton in Hin. injection Hin as _ ->. simpl. lia.
  - vm_compute. reflexivity.
  - vm_compute. intros Hgt. discriminate Hgt.
Defined.

Lemma persisted_log_is_live_witness :
  let st := (processHistoryForApi freshManager twoMentions 0 1 2).2 in
  default (contextHistoryUpdates freshManager) (last (persisted st))
  = contextHistoryUpdates st.
Proof.
  apply persisted_log_is_live; [reflexivity|].
  eapply rtc_l; [apply step_process|apply rtc_refl].
Defined.

(** ** Elision of a tool result *)

Section ToolResultElision.
Context `{Collaborators}.

Lemma elideOccurrence_emits raw now path (M : PersistedContextHistory) o :
  occurrenceIn raw o →
  ∃ u, emittedFor now o u ∧ ∀ i b,
    editsAt (elideOccurrence raw now path M o) i b
    = editsAt M i b ++ (if decide (targets i b o) then [u] else []).
Proof.
  intros (message & bs & text & Hraw & _). unfold elideOccurrence. rewrite Hraw.
  set (e := match M !! messageIndex o with
            | Some e => e
            | None => mkEntry (role message) ∅
            end).
  assert (He : ∀ b, default [] (blocks e !! b) = editsAt M (messageIndex o) b).
  { intros b. unfold editsAt, e. by destruct (M !! messageIndex o). }
  replace (match M !! messageIndex o with
           | Some e0 => Some e0
           | None => Some (mkEntry (role message) ∅)
           end) with (Some e) by (unfold e; by destruct (M !! messageIndex o)).
  destruct (elisionPayload raw path o (default [] (blocks e !! blockIndex o)))
    as [payload meta] eqn:Hpay.
  exists (mkUpdate now replace_content (Some payload) (Some meta)). split.
  { split; [done|]. intros Hnone. unfold elisionPayload in Hpay.
    rewrite Hnone in Hpay. simpl. by injection Hpay as <- _. }
  intros i b. unfold editsAt at 1, targets.
  destruct (decide (i = messageIndex o)) as [->|Hi].
  - rewrite lookup_insert_eq. simpl.
    destruct (decide (b = blockIndex o)) as [->|Hb].
    + rewrite lookup_insert_eq. simpl. rewrite decide_True by done. by rewrite He.
    + rewrite lookup_insert_ne by done. rewrite decide_False by (by intros [_ ?]).
      by rewrite app_nil_r, He.
  - rewrite lookup_insert_ne by done. rewrite decide_False by (by intros [? _]).
    by rewrite app_nil_r.
Qed.

Lemma foldl_elideOccurrence_emits raw now path os (M : PersistedContextHistory) i b :
  Forall (occurrenceIn raw) os →
  ∃ new, editsAt (foldl (elideOccurrence raw now path) M os) i b = editsAt M i b ++ new
         ∧ Forall2 (emittedFor now) (filter (targets i b) os) new.
Proof.
  revert M. induction os as [|o os IH]; intros M Hos; simpl.
  { exists []. rewrite app_nil_r. split; [done|constructor]. }
  apply Forall_cons in Hos as [Ho Hos].
  destruct (IH (elideOccurrence raw now path M o) Hos) as (new & Hnew & Hall).
  destruct (elideOccurrence_emits raw now path M o Ho) as (u & Hu & Hstep).
  rewrite Hnew, Hstep, <- app_assoc. eexists. split; [done|].
  rewrite filter_cons. destruct (decide (targets i b o)); simpl; [|done].
  by constructor.
Qed.

Lemma foldl_elidePath_emits raw now fr (M : PersistedContextHistory) i b :
  Forall (occurrenceIn raw) (flat_map (λ entry, nonFinal entry.2) fr) →
  ∃ new, editsAt (foldl (elidePath raw now) M fr) i b = editsAt M i b ++ new
         ∧ Forall2 (emittedFor now)
             (filter (targets i b) (flat_map (λ entry, nonFinal entry.2) fr)) new.
Proof.
  revert M. induction fr as [|entry fr IH]; intros M Hfr; simpl.
  { exists []. rewrite app_nil_r. split; [done|constructor]. }
  simpl in Hfr. apply Forall_app in Hfr as [Hentry Hfr].
  destruct (IH (elidePath raw now M entry) Hfr) as (new2 & Hnew2 & Hall2).
  destruct (foldl_elideOccurrence_emits raw now entry.1 (nonFinal entry.2) M i b Hentry)
    as (new1 & Hnew1 & Hall1).
  rewrite <- elidePath_nonFinal in Hnew1.
  exists (new1 ++ new2). split.
  - by rewrite Hnew2, Hnew1, app_assoc.
  - rewrite filter_app. by apply Forall2_app.
Qed.

(** X23. Elision of a tool result: when the last non-final occurrence
    pointing at a block, in the order the elider handles them, is a
    [read_file] result (it has no [fullMatch]), the history the manager
    goes on with after elision holds exactly the duplicate-read notice in
    that block, whatever the live log says about it. *)
Theorem tool_result_elided_to_notice (raw : list MessageParam)
    (L : PersistedContextHistory) (now : Z) (i b : nat) (o : FileReadOccurrence) :
  last (filter (targets i b) (nonFinalOccurrences raw)) = Some o →
  fullMatch o = None →
  blockAt (applyModificationsToHistory (applyModificationsToHistory raw L)
             (applyOptimizations raw L now)) i b
  = Some (TextBlock duplicateFileReadNotice).
Proof.
  intros Hlast Hnone.
  destruct (foldl_elidePath_emits raw now (findDuplicateFileReads raw) L i b
              (nonFinalOccurrences_in raw)) as (new & Hnew & Hall).
  fold (applyOptimizations raw L now) in Hnew. fold (nonFinalOccurrences raw) in Hall.
  apply last_Some in Hlast as (os & Hos). rewrite Hos in Hall.
  apply Forall2_app_inv_l in Hall as (new1 & new2 & _ & Hone & ->).
  apply Forall2_cons_inv_l in Hone as (u & rest & [[_ Hty] Hpay] & Hrest & ->).
  apply Forall2_nil_inv_l in Hrest as ->.
  assert (Ho : o ∈ nonFinalOccurrences raw).
  { assert (o ∈ filter (targets i b) (nonFinalOccurrences raw)) as Hin.
    { rewrite Hos. apply elem_of_app. right. by left. }
    by apply list_elem_of_filter in Hin as [_ Hin]. }
  assert (Htarget : targets i b o).
  { assert (o ∈ filter (targets i b) (nonFinalOccurrences raw)) as Hin.
    { rewrite Hos. apply elem_of_app. right. by left. }
    by apply list_elem_of_filter in Hin as [Hin _]. }
  pose proof (nonFinalOccurrences_in raw) as Hvalid. rewrite Forall_forall in Hvalid.
  destruct (Hvalid o Ho) as (message & bs & text & Hm & _ & Hc & Hb).
  destruct Htarget as [<- <-].
  rewrite !blockAt_applyModificationsToHistory.
  assert (blockAt raw (messageIndex o) (blockIndex o) = Some (TextBlock text)) as ->.
  { unfold blockAt. by rewrite Hm, Hc. }
  simpl. f_equal.
  pose proof (applyLatest_sameVariant (editsAt L (messageIndex o) (blockIndex o))
                (TextBlock text)) as Hvar. simpl in Hvar.
  destruct (applyLatest (editsAt L (messageIndex o) (blockIndex o)) (TextBlock text))
    as [t'| | |]; try done.
  rewrite Hnew. unfold applyLatest. rewrite app_assoc, last_snoc.
  unfold applyUpdate. by rewrite Hty, (Hpay Hnone).
Qed.

End ToolResultElision.

Lemma tool_result_elided_to_notice_witness :
  blockAt (applyModificationsToHistory (applyModificationsToHistory twoReads ∅)
             (applyOptimizations twoReads ∅ 1)) 0 1
  = Some (TextBlock duplicateFileReadNotice).
Proof.
  apply (tool_result_elided_to_notice twoReads ∅ 1 0 1 (mkOccurrence 0 1 "f" None)).
  - vm_compute. reflexivity.
  - reflexivity.
Defined.
